(** * Task assignment and load balancing of the orchestration framework

    A shallow embedding of
      - [src/agent-specialization.ts]   (AgentSpecializationManager),
      - [src/multi-agent-orchestration.ts] (MultiAgentOrchestrationImpl),
      - [src/load-balancer.ts]          (LoadBalancer),
      - [src/work-queue.ts]             (WorkQueue),
      - [src/agent-monitor.ts]          (AgentMonitor),
      - the class [PerformanceMetrics],
    followed by the properties of the assignment engine, of the load
    balancer and of the other classes.

    Conventions of the embedding.
      - JavaScript numbers that hold loads, capacities and scores are
        integers ([Z]).  What the program computes from them with [/],
        [-], [+], [*], [Math.pow] and [Math.sqrt] is a double: an
        IEEE 754 binary64 value with the operations of the Standard
        Library's [SpecFloat], rounded to nearest, ties to even
        ([Number]).  An integer enters such a computation as the double
        nearest to it, which is the integer itself up to 2^53.
      - Strings are [string]s of ASCII characters.
      - [this.agents] is a [list Agent]; an object reference into it is
        its position, so that the lists built by [filter] and [sort] share
        the agents of the registry instead of copying them.
      - Methods of the orchestration object run in a state-and-exception
        monad ([M]); a rejected promise is the [inl] result together with
        the state the method left behind.  Calls do not interleave: each
        one runs to its end before the next starts. *)

From Stdlib Require Import ZArith QArith Qpower Lqa Reals Qreals List String Ascii Bool Lia Sorted SpecFloat.
From stdpp Require Import base list strings.

Local Open Scope string_scope.
Local Open Scope Z_scope.

(** ** Data model *)

(** [AgentStatusType] of [src/types.ts]. *)
Inductive AgentStatusType : Type :=
  | STARTING | RUNNING | COMPLETED | FAILED | DISCONNECTED.

(** Modelled from the spec: the declaration of [AgentSpecialization] is not
    in the sources at hand; its members are the keys that
    [determineSpecialization] initialises. *)
Inductive AgentSpecialization : Type :=
  | frontend | backend | database | devops | general.

(** Modelled from the spec: the declaration of the [Agent] interface is not
    in the sources at hand; the fields are those [registerAgent] fills in. *)
Record Agent : Type := mkAgent {
  agentId : string;
  agentName : string;
  status : AgentStatusType;
  specialization : AgentSpecialization;
  capacity : Z;
  currentLoad : Z
}.

Inductive Priority : Type := low | medium | high.
Inductive WorkStatus : Type := pending | in_progress | completed | failed.

(** [WorkItem] of [src/types.ts] (the optional fields are never read
    here). *)
Record WorkItem : Type := mkWorkItem {
  workId : string;
  title : string;
  description : string;
  priority : Priority;
  workStatus : WorkStatus;
  createdAt : Z
}.

Definition AgentStatusType_eqb (a b : AgentStatusType) : bool :=
  match a, b with
  | STARTING, STARTING | RUNNING, RUNNING | COMPLETED, COMPLETED
  | FAILED, FAILED | DISCONNECTED, DISCONNECTED => true
  | _, _ => false
  end.

Definition AgentSpecialization_eqb (a b : AgentSpecialization) : bool :=
  match a, b with
  | frontend, frontend | backend, backend | database, database
  | devops, devops | general, general => true
  | _, _ => false
  end.

(** ** Strings *)

Module JsString.

Definition lowerChar (c : ascii) : ascii :=
  let n := nat_of_ascii c in
  if ((65 <=? n) && (n <=? 90))%nat then ascii_of_nat (n + 32) else c.

Fixpoint toLowerCase (s : string) : string :=
  match s with
  | EmptyString => EmptyString
  | String c s' => String (lowerChar c) (toLowerCase s')
  end.

(** [s.startsWith(p)] *)
Definition startsWith (s p : string) : bool := String.prefix p s.

(** [s.includes(p)] *)
Fixpoint includes (s p : string) : bool :=
  String.prefix p s ||
  match s with
  | EmptyString => false
  | String _ s' => includes s' p
  end.

(** [s.endsWith(p)] *)
Fixpoint endsWith (s p : string) : bool :=
  String.eqb s p ||
  match s with
  | EmptyString => false
  | String _ s' => endsWith s' p
  end.

(** [s.substring(1)] *)
Definition substring1 (s : string) : string :=
  match s with
  | EmptyString => EmptyString
  | String _ s' => s'
  end.

End JsString.

(** ** The specialization classifier ([src/agent-specialization.ts]) *)

Module AgentSpecializationManager.
Import JsString.

(** A [Map] in insertion order. *)
Definition PatternTable : Type := list (AgentSpecialization * list string).
Definition Scores : Type := list (AgentSpecialization * Z).

(** The table the constructor builds. *)
Definition defaultSpecializations : PatternTable :=
  [ (frontend,
     ["*.html"; "*.css"; "*.scss"; "*.js"; "*.jsx"; "*.ts"; "*.tsx";
      "react"; "vue"; "angular"; "svelte"; "webpack"; "babel"; "eslint";
      "ui"; "ux"; "responsive"; "mobile"; "desktop"; "web"]);
    (backend,
     ["*.js"; "*.ts"; "*.py"; "*.java"; "*.go"; "*.rb"; "*.php"; "*.cs";
      "api"; "rest"; "graphql"; "server"; "endpoint"; "controller";
      "middleware"; "authentication"; "authorization"; "security"]);
    (database,
     ["*.sql"; "*.prisma"; "*.schema"; "migration";
      "database"; "db"; "sql"; "nosql"; "mongodb"; "postgres"; "mysql";
      "query"; "index"; "transaction"; "orm"; "entity"; "model"]);
    (devops,
     ["Dockerfile"; "docker-compose.yml"; "*.yaml"; "*.yml";
      "kubernetes"; "k8s"; "helm"; "terraform"; "ansible";
      "ci"; "cd"; "pipeline"; "deploy"; "build"; "test";
      "monitoring"; "logging"; "metrics"; "alert"]) ].

(** [scores.set(k, scores.get(k)! + n)]: the entry keeps its place. *)
Fixpoint bump (k : AgentSpecialization) (n : Z) (scores : Scores) : Scores :=
  match scores with
  | [] => []
  | (k', v) :: rest =>
      if AgentSpecialization_eqb k k' then (k', v + n) :: rest
      else (k', v) :: bump k n rest
  end.

Definition initialScores : Scores :=
  [ (frontend, 0); (backend, 0); (database, 0); (devops, 0); (general, 0) ].

(** Inner loop of [scoreDescription]: the patterns of one
    specialization. *)
Fixpoint scoreDescriptionPatterns (lowerDescription : string)
    (k : AgentSpecialization) (patterns : list string) (scores : Scores)
    : Scores :=
  match patterns with
  | [] => scores
  | pattern :: rest =>
      let scores' :=
        if includes lowerDescription (toLowerCase pattern)
        then bump k 1 scores else scores in
      scoreDescriptionPatterns lowerDescription k rest scores'
  end.

Fixpoint scoreDescriptionEntries (lowerDescription : string)
    (table : PatternTable) (scores : Scores) : Scores :=
  match table with
  | [] => scores
  | (k, patterns) :: rest =>
      scoreDescriptionEntries lowerDescription rest
        (scoreDescriptionPatterns lowerDescription k patterns scores)
  end.

Definition scoreDescription (table : PatternTable) (description : string)
    (scores : Scores) : Scores :=
  scoreDescriptionEntries (toLowerCase description) table scores.

(** Innermost loop of [scoreFiles]: the patterns of one specialization
    against one file name. *)
Fixpoint scoreFilePatterns (lowerFile : string) (k : AgentSpecialization)
    (patterns : list string) (scores : Scores) : Scores :=
  match patterns with
  | [] => scores
  | pattern :: rest =>
      let scores' :=
        if startsWith pattern "*." then
          let extension := substring1 pattern in
          if endsWith lowerFile extension then bump k 2 scores else scores
        else if includes lowerFile (toLowerCase pattern) then bump k 1 scores
        else scores in
      scoreFilePatterns lowerFile k rest scores'
  end.

Fixpoint scoreFileEntries (lowerFile : string) (table : PatternTable)
    (scores : Scores) : Scores :=
  match table with
  | [] => scores
  | (k, patterns) :: rest =>
      scoreFileEntries lowerFile rest
        (scoreFilePatterns lowerFile k patterns scores)
  end.

Fixpoint scoreFiles (table : PatternTable) (files : list string)
    (scores : Scores) : Scores :=
  match files with
  | [] => scores
  | file :: rest =>
      scoreFiles table rest (scoreFileEntries (toLowerCase file) table scores)
  end.

(** The final loop of [determineSpecialization]: a strictly larger score
    replaces the current best. *)
Fixpoint pickBest (entries : Scores) (maxScore : Z)
    (bestSpecialization : AgentSpecialization) : AgentSpecialization :=
  match entries with
  | [] => bestSpecialization
  | (k, score) :: rest =>
      if maxScore <? score then pickBest rest score k
      else pickBest rest maxScore bestSpecialization
  end.

Definition finalScores (table : PatternTable) (description : string)
    (files : list string) : Scores :=
  scoreFiles table files (scoreDescription table description initialScores).

Definition determineSpecialization (table : PatternTable)
    (description : string) (files : list string) : AgentSpecialization :=
  pickBest (finalScores table description files) 0 general.

(** [addPatterns] *)
Fixpoint addPatterns (k : AgentSpecialization) (patterns : list string)
    (table : PatternTable) : PatternTable :=
  match table with
  | [] => [(k, patterns)]
  | (k', existing) :: rest =>
      if AgentSpecialization_eqb k k' then (k', (existing ++ patterns)%list) :: rest
      else (k', existing) :: addPatterns k patterns rest
  end.

(** [this.specializations.get(k) || []] *)
Fixpoint getPatterns (k : AgentSpecialization) (table : PatternTable)
    : list string :=
  match table with
  | [] => []
  | (k', patterns) :: rest =>
      if AgentSpecialization_eqb k k' then patterns else getPatterns k rest
  end.

(** [scores.get(k)] *)
Fixpoint scoreOf (k : AgentSpecialization) (scores : Scores) : Z :=
  match scores with
  | [] => 0
  | (k', v) :: rest =>
      if AgentSpecialization_eqb k k' then v else scoreOf k rest
  end.

(** The score of a specialization, pattern by pattern: the patterns found
    in the lower-cased description count 1 each ... *)
Fixpoint descriptionHits (lowerDescription : string) (patterns : list string) : Z :=
  match patterns with
  | [] => 0
  | pattern :: rest =>
      (if includes lowerDescription (toLowerCase pattern) then 1 else 0)
      + descriptionHits lowerDescription rest
  end.

(** ... and for a lower-cased file name, an extension pattern [*.ext] that
    the name ends with counts 2, any other pattern found in the name 1. *)
Fixpoint filePoints (lowerFile : string) (patterns : list string) : Z :=
  match patterns with
  | [] => 0
  | pattern :: rest =>
      (if startsWith pattern "*." then
         if endsWith lowerFile (substring1 pattern) then 2 else 0
       else if includes lowerFile (toLowerCase pattern) then 1 else 0)
      + filePoints lowerFile rest
  end.

Definition expectedScore (table : PatternTable) (k : AgentSpecialization)
    (description : string) (files : list string) : Z :=
  descriptionHits (toLowerCase description) (getPatterns k table)
  + fold_right (fun file acc =>
                  filePoints (toLowerCase file) (getPatterns k table) + acc)
               0 files.

(** Every specialization has an entry in the scores. *)
Definition allScored (sc : Scores) : Prop := forall k, In k (map fst sc).

End AgentSpecializationManager.

(** ** File names in a task description

    The regular expression [/\b[\w-]+\.[a-z]{2,4}\b/g] of
    [determineTaskSpecialization], as a backtracking matcher: the greedy
    quantifiers try the longest repetition first. *)

Module FileNameRegex.

Definition between (lo hi : nat) (c : ascii) : bool :=
  let n := nat_of_ascii c in ((lo <=? n) && (n <=? hi))%nat.

(** [\w] *)
Definition isWord (c : ascii) : bool :=
  between 48 57 c || between 65 90 c || between 97 122 c || between 95 95 c.

(** [[\w-]] *)
Definition isClass (c : ascii) : bool := isWord c || between 45 45 c.

(** [[a-z]] *)
Definition isLower (c : ascii) : bool := between 97 122 c.

Definition isDot (c : ascii) : bool := between 46 46 c.

Definition head (s : string) : option ascii :=
  match s with
  | EmptyString => None
  | String c _ => Some c
  end.

Definition wordAt (o : option ascii) : bool :=
  match o with
  | Some c => isWord c
  | None => false
  end.

(** [\b] between the character before the position and the one at it. *)
Definition boundary (prev next : option ascii) : bool :=
  xorb (wordAt prev) (wordAt next).

Fixpoint dropChars (n : nat) (s : string) : string :=
  match n, s with
  | S n', String _ s' => dropChars n' s'
  | _, _ => s
  end.

(** Exactly [k] characters of [[a-z]]: the last one read and the rest. *)
Fixpoint lowers (k : nat) (last : option ascii) (s : string)
    : option (option ascii * string) :=
  match k with
  | O => Some (last, s)
  | S k' =>
      match s with
      | String c s' => if isLower c then lowers k' (Some c) s' else None
      | EmptyString => None
      end
  end.

(** [[a-z]{k}\b] *)
Definition extension (k : nat) (dot : ascii) (s : string) : bool :=
  match lowers k (Some dot) s with
  | Some (last, rest) => boundary last (head rest)
  | None => false
  end.

(** [[a-z]{2,4}\b], longest first. *)
Definition extensionLength (dot : ascii) (s : string) : option nat :=
  if extension 4 dot s then Some 4%nat
  else if extension 3 dot s then Some 3%nat
  else if extension 2 dot s then Some 2%nat
  else None.

(** The longest run of [[\w-]] at the start of [s]. *)
Fixpoint classRun (s : string) : nat :=
  match s with
  | String c s' => if isClass c then S (classRun s') else O
  | EmptyString => O
  end.

(** [\.[a-z]{2,4}\b] after [len] characters of the class. *)
Definition afterClass (len : nat) (s : string) : option nat :=
  match dropChars len s with
  | String c rest =>
      if isDot c then
        match extensionLength c rest with
        | Some k => Some (len + 1 + k)%nat
        | None => None
        end
      else None
  | EmptyString => None
  end.

(** [[\w-]+] gives characters back one at a time, down to one. *)
Fixpoint backtrack (len : nat) (s : string) : option nat :=
  match len with
  | O => None
  | S len' =>
      match afterClass len s with
      | Some n => Some n
      | None => backtrack len' s
      end
  end.

(** The length of the match that starts at the head of [s], if any. *)
Definition matchAt (prev : option ascii) (s : string) : option nat :=
  if boundary prev (head s) then backtrack (classRun s) s else None.

(** [String.prototype.match] with the [g] flag: all matches from left to
    right, each search resuming where the previous match ended ([skip]
    counts the characters of a match still to be passed over). *)
Fixpoint matchAll (prev : option ascii) (s : string) (skip : nat)
    : list string :=
  match s with
  | EmptyString => []
  | String c s' =>
      match skip with
      | S k => matchAll (Some c) s' k
      | O =>
          match matchAt prev s with
          | Some n => String.substring 0 n s :: matchAll (Some c) s' (n - 1)
          | None => matchAll (Some c) s' O
          end
      end
  end.

Definition fileMatches (description : string) : list string :=
  matchAll None description O.

(** Whether every character of a string is in a class. *)
Fixpoint allChars (P : ascii -> bool) (s : string) : bool :=
  match s with
  | EmptyString => true
  | String c s' => P c && allChars P s'
  end.

(** The shape of a match: a non-empty stem of [[\w-]], a dot, and two to
    four letters of [[a-z]]. *)
Definition isFileName (m : string) : Prop :=
  exists stem ext,
    m = (stem ++ "." ++ ext)%string /\
    stem <> EmptyString /\ allChars isClass stem = true /\
    (2 <= String.length ext <= 4)%nat /\ allChars isLower ext = true.

End FileNameRegex.

(** ** JavaScript numbers *)

Module Number.

(** Binary64: 53 bits of precision, exponents below 1024. *)
Definition prec : Z := 53.
Definition emax : Z := 1024.

(** The exponent of the least positive number, [2 ^ emin]. *)
Definition emin : Z := SpecFloat.emin prec emax.

Definition number : Type := spec_float.

(** The double nearest to an integer. *)
Definition ofInteger (z : Z) : number := binary_normalize prec emax z 0 false.

Definition add : number -> number -> number := SFadd prec emax.
Definition sub : number -> number -> number := SFsub prec emax.
Definition mul : number -> number -> number := SFmul prec emax.
Definition div : number -> number -> number := SFdiv prec emax.
Definition sqrt : number -> number := SFsqrt prec emax.

(** [x < y] and [x <= y]; both are false when an operand is NaN. *)
Definition ltb (x y : number) : bool := SFltb x y.
Definition leb (x y : number) : bool := SFleb x y.

Definition isNaN (x : number) : bool :=
  match x with
  | S754_nan => true
  | _ => false
  end.

(** How [sort] reads the number a comparator returns: negative, positive,
    or neither (a zero; NaN counts as [+0]). *)
Definition sign (x : number) : comparison :=
  match x with
  | S754_finite true _ _ | S754_infinity true => Lt
  | S754_finite false _ _ | S754_infinity false => Gt
  | S754_zero _ | S754_nan => Eq
  end.

(** [x - y < 0] *)
Definition below (x y : number) : Prop := sign (sub x y) = Lt.

(** [Number.isSafeInteger]: the integers of magnitude below [2 ^ 53], which
    doubles hold exactly. *)
Definition isSafeInteger (z : Z) : Prop := - 2 ^ 53 < z < 2 ^ 53.

(** *** The order of the values *)

(** The value of a number other than NaN: the side of the infinities it
    lies on, and its multiple of [2 ^ emin]. *)
Definition rank (x : number) : Z * Z :=
  match x with
  | S754_infinity true => (-1, 0)
  | S754_infinity false => (1, 0)
  | S754_finite s m e => (0, cond_Zopp s (Zpos m * 2 ^ (e - emin)))
  | S754_zero _ | S754_nan => (0, 0)
  end.

Definition compareRank (a b : Z * Z) : comparison :=
  match fst a ?= fst b with
  | Eq => snd a ?= snd b
  | c => c
  end.

(** The numbers that have a value: NaN has none, and no mantissa lies below
    the least exponent. *)
Definition ordered (x : number) : Prop :=
  match x with
  | S754_nan => False
  | S754_finite _ _ e => emin <= e
  | _ => True
  end.

(** The place of a number in the order of [<]: sign, then exponent, then
    mantissa. *)
Definition place (x : number) : Z * Z * Z :=
  match x with
  | S754_infinity true => (-2, 0, 0)
  | S754_finite true m e => (-1, - e, - Zpos m)
  | S754_zero _ | S754_nan => (0, 0, 0)
  | S754_finite false m e => (1, e, Zpos m)
  | S754_infinity false => (2, 0, 0)
  end.

Definition before (a b : Z * Z * Z) : Prop :=
  fst (fst a) < fst (fst b) \/
  (fst (fst a) = fst (fst b) /\
   (snd (fst a) < snd (fst b) \/ (snd (fst a) = snd (fst b) /\ snd a < snd b))).

End Number.

(** ** Load ratios and [Array.prototype.sort] *)

(** [a.currentLoad / a.capacity] *)
Definition loadPercentage (a : Agent) : Number.number :=
  Number.div (Number.ofInteger (currentLoad a)) (Number.ofInteger (capacity a)).

(** The sign of [aLoadPercentage - bLoadPercentage]. *)
Definition byLoadPercentage (a b : Agent) : comparison :=
  Number.sign (Number.sub (loadPercentage a) (loadPercentage b)).

(** The order of the values of two load ratios. *)
Definition byValue (a b : Agent) : comparison :=
  Number.compareRank (Number.rank (loadPercentage a))
    (Number.rank (loadPercentage b)).

Section Sort.
Context {A : Type} (compareFn : A -> A -> comparison).

(** [x] goes in front of the first element it does not follow. *)
Fixpoint insertSorted (x : A) (l : list A) : list A :=
  match l with
  | [] => [x]
  | y :: l' =>
      match compareFn x y with
      | Gt => y :: insertSorted x l'
      | _ => x :: y :: l'
      end
  end.

(** [l.sort(compareFn)]: the stable sort (ECMAScript 2019), by insertion
    from the right.  Every stable sort gives this array when the
    comparator orders the elements; when it does not (a NaN among the
    ratios compares equal to everything) the language leaves the order to
    the implementation, and this is one such order. *)
Definition sort (l : list A) : list A := fold_right insertSorted [] l.
End Sort.

(** ** The orchestration object ([src/multi-agent-orchestration.ts]) *)

Inductive Error : Type :=
  | AgentNotFound (id : string)        (* Agent with ID ... not found *)
  | AgentAtCapacity (id : string)      (* Agent ... is at capacity *)
  | TaskNotFound (taskId : string)     (* Task with ID ... not found *)
  | NoAvailableAgents (s : AgentSpecialization)
                                       (* No available agents for ... *)
  | ReduceOfEmptyArray                 (* TypeError raised by [reduce] *)
  | UndefinedAgent.                    (* TypeError: a field of [undefined] *)

Inductive ErrorKind : Type :=
  | NotFound | CapacityExceeded | NoAvailableAgent | TypeError.

(** The failure taxonomy. *)
Definition kind (e : Error) : ErrorKind :=
  match e with
  | AgentNotFound _ | TaskNotFound _ => NotFound
  | AgentAtCapacity _ => CapacityExceeded
  | NoAvailableAgents _ => NoAvailableAgent
  | ReduceOfEmptyArray | UndefinedAgent => TypeError
  end.

(** The object and its collaborators: the registry [this.agents], the task
    records of the storage provider ([storage.load] of [task_<id>], whose
    file provider answers [null] instead of failing), the pattern table of
    the specialization manager, and what was written to the console. *)
Record Orchestration : Type := mkOrchestration {
  agents : list Agent;
  tasks : string -> option WorkItem;
  specializations : AgentSpecializationManager.PatternTable;
  console : list string
}.

Definition M (A : Type) : Type := Orchestration -> (Error + A) * Orchestration.

Definition ret {A} (x : A) : M A := fun st => (inr x, st).
Definition throw {A} (e : Error) : M A := fun st => (inl e, st).
Definition bind {A B} (m : M A) (k : A -> M B) : M B :=
  fun st =>
    match m st with
    | (inl e, st') => (inl e, st')
    | (inr x, st') => k x st'
    end.
Definition get : M Orchestration := fun st => (inr st, st).
Definition setAgents (l : list Agent) : M unit :=
  fun st => (inr tt, mkOrchestration l (tasks st) (specializations st) (console st)).
Definition warn (msg : string) : M unit :=
  fun st => (inr tt, mkOrchestration (agents st) (tasks st) (specializations st)
                       (console st ++ [msg])%list).

Notation "x <- m ;; k" := (bind m (fun x => k))
  (at level 100, m at next level, right associativity).
Notation "m ;;; k" := (bind m (fun _ => k))
  (at level 100, right associativity).

Definition withLoad (n : Z) (a : Agent) : Agent :=
  mkAgent (agentId a) (agentName a) (status a) (specialization a) (capacity a) n.

Definition withStatus (s : AgentStatusType) (a : Agent) : Agent :=
  mkAgent (agentId a) (agentName a) s (specialization a) (capacity a) (currentLoad a).

(** [agent.currentLoad++] and [agent.currentLoad--] *)
Definition increment (a : Agent) : Agent := withLoad (currentLoad a + 1) a.
Definition decrement (a : Agent) : Agent := withLoad (currentLoad a - 1) a.

(** [this.agents.find(a => a.id === id)]: the reference and the object. *)
Fixpoint findFrom (n : nat) (id : string) (l : list Agent) : option (nat * Agent) :=
  match l with
  | [] => None
  | a :: l' => if String.eqb (agentId a) id then Some (n, a) else findFrom (S n) id l'
  end.

Definition find (id : string) (l : list Agent) : option (nat * Agent) :=
  findFrom 0 id l.

(** The agents of an array together with their references. *)
Fixpoint indexedFrom (n : nat) (l : list Agent) : list (nat * Agent) :=
  match l with
  | [] => []
  | a :: l' => (n, a) :: indexedFrom (S n) l'
  end.

Definition indexed (l : list Agent) : list (nat * Agent) := indexedFrom 0 l.

(** [saveAgents]: writes the registry to the storage provider and catches
    what the provider throws; the object itself is left as it is. *)
Definition saveAgents : M unit := ret tt.

(** [getAgents]: a copy of the array (the agents themselves are shared). *)
Definition getAgents : M (list Agent) :=
  st <- get ;; ret (agents st).

(** [getAgent] *)
Definition getAgent (id : string) : M nat :=
  st <- get ;;
  match find id (agents st) with
  | None => throw (AgentNotFound id)
  | Some (i, _) => ret i
  end.

Definition isRunning (a : Agent) : bool := AgentStatusType_eqb (status a) RUNNING.
Definition hasSpecialization (s : AgentSpecialization) (a : Agent) : bool :=
  AgentSpecialization_eqb (specialization a) s.

(** The comparator of the second [sort] of [findBestAgentForTask]. *)
Definition bySpecializationThenLoad (s : AgentSpecialization) (a b : Agent)
    : comparison :=
  if hasSpecialization s a && negb (hasSpecialization s b) then Lt
  else if negb (hasSpecialization s a) && hasSpecialization s b then Gt
  else byLoadPercentage a b.

(** The same comparator on the values of the ratios. *)
Definition bySpecializationThenValue (s : AgentSpecialization) (a b : Agent)
    : comparison :=
  if hasSpecialization s a && negb (hasSpecialization s b) then Lt
  else if negb (hasSpecialization s a) && hasSpecialization s b then Gt
  else byValue a b.

Definition onAgent {B} (f : Agent -> Agent -> B) (x y : nat * Agent) : B :=
  f (snd x) (snd y).

(** [findBestAgentForTask]: a reference into the registry, or the error
    thrown. *)
Definition findBestAgentForTask (l : list Agent) (s : AgentSpecialization)
    : Error + nat :=
  let availableAgents :=
    List.filter (fun x =>
      (hasSpecialization s (snd x) || hasSpecialization general (snd x))
      && (currentLoad (snd x) <? capacity (snd x))
      && isRunning (snd x)) (indexed l) in
  match availableAgents with
  | [] =>
      let anyAvailableAgents :=
        List.filter (fun x =>
          (currentLoad (snd x) <? capacity (snd x)) && isRunning (snd x))
          (indexed l) in
      match anyAvailableAgents with
      | [] => inl (NoAvailableAgents s)
      | _ :: _ =>
          match sort (onAgent byLoadPercentage) anyAvailableAgents with
          | x :: _ => inr (fst x)
          | [] => inl UndefinedAgent
          end
      end
  | _ :: _ =>
      match sort (onAgent (bySpecializationThenLoad s)) availableAgents with
      | x :: _ => inr (fst x)
      | [] => inl UndefinedAgent
      end
  end.

(** [determineTaskSpecialization] *)
Definition determineTaskSpecialization (table : AgentSpecializationManager.PatternTable)
    (task : WorkItem) : AgentSpecialization :=
  let files := FileNameRegex.fileMatches (JsString.toLowerCase (description task)) in
  AgentSpecializationManager.determineSpecialization table (description task) files.

(** [if (agentId)]: an absent or empty argument selects the automatic
    branch. *)
Definition truthy (agentId : option string) : option string :=
  match agentId with
  | Some EmptyString => None
  | other => other
  end.

(** [assignTask]: the reference of the agent the task went to. *)
Definition assignTask (taskId : string) (agentId : option string) : M nat :=
  match truthy agentId with
  | Some id =>
      st <- get ;;
      match find id (agents st) with
      | None => throw (AgentNotFound id)
      | Some (i, agent) =>
          if capacity agent <=? currentLoad agent then throw (AgentAtCapacity id)
          else
            setAgents (alter increment i (agents st)) ;;;
            saveAgents ;;;
            ret i
      end
  | None =>
      st <- get ;;
      match tasks st taskId with
      | None => throw (TaskNotFound taskId)
      | Some task =>
          let s := determineTaskSpecialization (specializations st) task in
          match findBestAgentForTask (agents st) s with
          | inl e => throw e
          | inr i =>
              setAgents (alter increment i (agents st)) ;;;
              saveAgents ;;;
              ret i
          end
      end
  end.

(** *** [balanceLoad] *)

Definition loadAt (l : list Agent) (i : nat) : Z :=
  from_option currentLoad 0 (l !! i).
Definition capacityAt (l : list Agent) (i : nat) : Z :=
  from_option capacity 0 (l !! i).
Definition percentageAt (l : list Agent) (i : nat) : Number.number :=
  from_option loadPercentage (Number.ofInteger 0) (l !! i).

(** [underloadedAgents.reduce((prev, curr) => ...)] without an initial
    value: the first element starts as [prev]; on an empty array [reduce]
    raises a TypeError. *)
Fixpoint reduceFrom (l : list Agent) (prev : nat) (rest : list nat) : nat :=
  match rest with
  | [] => prev
  | curr :: rest' =>
      let prevLoadPercentage := percentageAt l prev in
      let currLoadPercentage := percentageAt l curr in
      reduceFrom l
        (if Number.leb prevLoadPercentage currLoadPercentage then prev else curr)
        rest'
  end.

Definition mostUnderloaded (l : list Agent) (underloadedAgents : list nat)
    : option nat :=
  match underloadedAgents with
  | [] => None
  | first :: rest => Some (reduceFrom l first rest)
  end.

(** [underloadedAgents.splice(underloadedAgents.indexOf(x), 1)] *)
Fixpoint spliceOut (x : nat) (refs : list nat) : list nat :=
  match refs with
  | [] => []
  | y :: refs' => if Nat.eqb x y then refs' else y :: spliceOut x refs'
  end.

(** The inner [for] loop with [n] iterations left: it moves one unit of
    load per iteration from [overloadedAgent] to the most underloaded
    agent, and leaves through [break] when the last receiver is full. *)
Fixpoint moveTasks (n : nat) (overloadedAgent : nat) (l : list Agent)
    (underloadedAgents : list nat)
    : (Error + unit) * (list Agent * list nat) :=
  match n with
  | O => (inr tt, (l, underloadedAgents))
  | S n' =>
      match mostUnderloaded l underloadedAgents with
      | None => (inl ReduceOfEmptyArray, (l, underloadedAgents))
      | Some mostUnderloadedAgent =>
          let l1 := alter decrement overloadedAgent l in
          let l2 := alter increment mostUnderloadedAgent l1 in
          if capacityAt l2 mostUnderloadedAgent <=? loadAt l2 mostUnderloadedAgent
          then
            let underloadedAgents' := spliceOut mostUnderloadedAgent underloadedAgents in
            match underloadedAgents' with
            | [] => (inr tt, (l2, underloadedAgents'))
            | _ :: _ => moveTasks n' overloadedAgent l2 underloadedAgents'
            end
          else moveTasks n' overloadedAgent l2 underloadedAgents
      end
  end.

(** The outer [for ... of] loop over the overloaded agents. *)
Fixpoint forEachOverloaded (overloadedAgents : list nat) (l : list Agent)
    (underloadedAgents : list nat)
    : (Error + unit) * (list Agent * list nat) :=
  match overloadedAgents with
  | [] => (inr tt, (l, underloadedAgents))
  | overloadedAgent :: rest =>
      let excessLoad := loadAt l overloadedAgent - capacityAt l overloadedAgent in
      match moveTasks (Z.to_nat excessLoad) overloadedAgent l underloadedAgents with
      | (inl e, s) => (inl e, s)
      | (inr _, (l', underloadedAgents')) =>
          forEachOverloaded rest l' underloadedAgents'
      end
  end.

Definition isOverloaded (a : Agent) : bool := capacity a <? currentLoad a.
Definition isUnderloaded (a : Agent) : bool := currentLoad a <? capacity a.

Definition cannotBalance : string :=
  "Cannot balance load: all agents are at or over capacity".

Definition balanceLoad : M unit :=
  st <- get ;;
  let sortedAgents := sort (onAgent byLoadPercentage) (indexed (agents st)) in
  let overloadedAgents := List.filter (fun x => isOverloaded (snd x)) sortedAgents in
  match overloadedAgents with
  | [] => ret tt
  | _ :: _ =>
      let underloadedAgents := List.filter (fun x => isUnderloaded (snd x)) sortedAgents in
      match underloadedAgents with
      | [] => warn cannotBalance
      | _ :: _ =>
          match forEachOverloaded (map fst overloadedAgents) (agents st)
                  (map fst underloadedAgents) with
          | (inl e, (l', _)) => setAgents l' ;;; throw e
          | (inr _, (l', _)) => setAgents l' ;;; saveAgents
          end
      end
  end.

(** *** The other methods *)

(** [registerAgent]; the identifier, which the program draws from the
    clock and a random number, is an argument. *)
Definition registerAgent (id name : string) (s : AgentSpecialization)
    (cap : Z) : M nat :=
  st <- get ;;
  let agent := mkAgent id name STARTING s cap 0 in
  setAgents (agents st ++ [agent])%list ;;;
  saveAgents ;;;
  ret (length (agents st)).

Definition updateAgentStatus (id : string) (s : AgentStatusType) : M nat :=
  st <- get ;;
  match find id (agents st) with
  | None => throw (AgentNotFound id)
  | Some (i, _) =>
      setAgents (alter (withStatus s) i (agents st)) ;;;
      saveAgents ;;;
      ret i
  end.

Definition completeTask (agentId taskId : string) : M nat :=
  st <- get ;;
  match find agentId (agents st) with
  | None => throw (AgentNotFound agentId)
  | Some (i, agent) =>
      (if 0 <? currentLoad agent
       then setAgents (alter decrement i (agents st))
       else ret tt) ;;;
      saveAgents ;;;
      ret i
  end.

(** The public operations, and the state a sequence of calls leaves
    behind, whether a call returns or throws. *)
Inductive Operation : Type :=
  | RegisterAgent (id name : string) (s : AgentSpecialization) (cap : Z)
  | AssignTask (taskId : string) (agentId : option string)
  | CompleteTask (agentId taskId : string)
  | BalanceLoad
  | UpdateAgentStatus (id : string) (s : AgentStatusType).

Definition perform (op : Operation) (st : Orchestration) : Orchestration :=
  match op with
  | RegisterAgent id name s cap => snd (registerAgent id name s cap st)
  | AssignTask taskId agentId => snd (assignTask taskId agentId st)
  | CompleteTask agentId taskId => snd (completeTask agentId taskId st)
  | BalanceLoad => snd (balanceLoad st)
  | UpdateAgentStatus id s => snd (updateAgentStatus id s st)
  end.

Definition performAll (ops : list Operation) (st : Orchestration) : Orchestration :=
  fold_left (fun s op => perform op s) ops st.

(** ** [LoadBalancer.isLoadBalancingNeeded] ([src/load-balancer.ts]) *)

(** [Math.pow(x, 2)]: the square [x * x], rounded once. *)
Definition square (x : Number.number) : Number.number := Number.mul x x.

(** [loadPercentages.reduce((sum, val) => sum + val, 0) /
    loadPercentages.length] *)
Definition mean (loadPercentages : list Number.number) : Number.number :=
  Number.div
    (fold_left (fun sum val => Number.add sum val) loadPercentages
       (Number.ofInteger 0))
    (Number.ofInteger (Z.of_nat (length loadPercentages))).

Definition variance (loadPercentages : list Number.number) : Number.number :=
  let mean := mean loadPercentages in
  Number.div
    (fold_left (fun sum val => Number.add sum (square (Number.sub val mean)))
       loadPercentages (Number.ofInteger 0))
    (Number.ofInteger (Z.of_nat (length loadPercentages))).

Definition stdDev (loadPercentages : list Number.number) : Number.number :=
  Number.sqrt (variance loadPercentages).

(** The literal [0.2]: the double nearest to one fifth,
    [7205759403792794 * 2 ^ -55]. *)
Definition threshold : Number.number :=
  S754_finite false 7205759403792794 (-55).

Definition isLoadBalancingNeeded (l : list Agent) : bool :=
  let overloadedAgents := List.filter isOverloaded l in
  if (0 <? length overloadedAgents)%nat then true
  else
    let loadPercentages := map loadPercentage (List.filter isRunning l) in
    if (length loadPercentages <=? 1)%nat then false
    else Number.ltb threshold (stdDev loadPercentages).

(** ** [LoadBalancer.getLoadDistribution] ([src/load-balancer.ts]) *)

(** One entry of [agents] in the result (the fields [id], [name],
    [specialization], [capacity], [currentLoad] and [loadPercentage]). *)
Record AgentLoad : Type := mkAgentLoad {
  entryId : string;
  entryName : string;
  entrySpecialization : AgentSpecialization;
  entryCapacity : Z;
  entryCurrentLoad : Z;
  entryLoadPercentage : Number.number
}.

(** The object returned (the fields [totalCapacity], [totalLoad],
    [loadPercentage] and [agents]). *)
Record LoadDistribution : Type := mkLoadDistribution {
  distTotalCapacity : Z;
  distTotalLoad : Z;
  distLoadPercentage : Number.number;
  distAgents : list AgentLoad
}.

Definition agentLoadOf (agent : Agent) : AgentLoad :=
  mkAgentLoad (agentId agent) (agentName agent) (specialization agent)
    (capacity agent) (currentLoad agent)
    (Number.mul
       (Number.div (Number.ofInteger (currentLoad agent))
          (Number.ofInteger (capacity agent)))
       (Number.ofInteger 100)).

(** The sign of [b.loadPercentage - a.loadPercentage]. *)
Definition byPercentageDescending (a b : AgentLoad) : comparison :=
  Number.sign (Number.sub (entryLoadPercentage b) (entryLoadPercentage a)).

(** The same order on the values of the percentages. *)
Definition byValueDescending (a b : AgentLoad) : comparison :=
  Number.compareRank (Number.rank (entryLoadPercentage b))
    (Number.rank (entryLoadPercentage a)).

Definition getLoadDistribution (l : list Agent) : LoadDistribution :=
  let totalCapacity := fold_left (fun sum agent => sum + capacity agent) l 0 in
  let totalLoad := fold_left (fun sum agent => sum + currentLoad agent) l 0 in
  let agentLoads := map agentLoadOf l in
  mkLoadDistribution totalCapacity totalLoad
    (Number.mul
       (Number.div (Number.ofInteger totalLoad) (Number.ofInteger totalCapacity))
       (Number.ofInteger 100))
    (sort byPercentageDescending agentLoads).

(** ** The work queue ([src/work-queue.ts]) *)

Module WorkQueue.

(** A queued work item: the fields every [WorkItem] has, and the optional
    ones the queue fills in ([result] holds the serialized value). *)
Record QueueItem : Type := mkQueueItem {
  item : WorkItem;
  assignedTo : option string;
  startedAt : option Z;
  completedAt : option Z;
  result : option string
}.

Definition WorkStatus_eqb (a b : WorkStatus) : bool :=
  match a, b with
  | pending, pending | in_progress, in_progress
  | completed, completed | failed, failed => true
  | _, _ => false
  end.

Definition itemId (q : QueueItem) : string := workId (item q).
Definition itemStatus (q : QueueItem) : WorkStatus := workStatus (item q).

(** [item.status = s] *)
Definition setStatus (s : WorkStatus) (q : QueueItem) : QueueItem :=
  let w := item q in
  mkQueueItem
    (mkWorkItem (workId w) (title w) (description w) (priority w) s (createdAt w))
    (assignedTo q) (startedAt q) (completedAt q) (result q).

(** [{ ...item, id, status: 'pending', createdAt: Date.now() }] *)
Definition newItem (id : string) (now : Z) (input : QueueItem) : QueueItem :=
  let w := item input in
  mkQueueItem
    (mkWorkItem id (title w) (description w) (priority w) pending now)
    (assignedTo input) (startedAt input) (completedAt input) (result input).

(** [addItem]; the identifier (random in the program) and the clock are
    arguments. *)
Definition addItem (id : string) (now : Z) (input : QueueItem)
    (items : list QueueItem) : string * list QueueItem :=
  (id, (items ++ [newItem id now input])%list).

(** [items.find(p)]: the reference of the first item that satisfies [p]. *)
Fixpoint findIndex (p : QueueItem -> bool) (items : list QueueItem) : option nat :=
  match items with
  | [] => None
  | q :: rest => if p q then Some 0%nat else option_map S (findIndex p rest)
  end.

Definition hasId (id : string) (q : QueueItem) : bool := String.eqb (itemId q) id.
Definition isPending (q : QueueItem) : bool := WorkStatus_eqb (itemStatus q) pending.

(** [priorityValues] *)
Definition priorityValue (p : Priority) : Z :=
  match p with
  | high => 3
  | medium => 2
  | low => 1
  end.

(** The comparator of [getNextItem], as the sign of what it returns. *)
Definition byPriorityThenAge (a b : QueueItem) : comparison :=
  if negb (isPending a) && isPending b then Gt
  else if isPending a && negb (isPending b) then Lt
  else
    let priorityDiff :=
      priorityValue (priority (item b)) - priorityValue (priority (item a)) in
    if negb (priorityDiff =? 0) then (priorityDiff ?= 0)
    else (createdAt (item a) - createdAt (item b) ?= 0).

(** The priority of an item as a number. *)
Definition urgency (q : QueueItem) : Z := priorityValue (priority (item q)).

(** [nextItem.status = 'in-progress'; nextItem.startedAt = Date.now()] *)
Definition start (now : Z) (q : QueueItem) : QueueItem :=
  let q' := setStatus in_progress q in
  mkQueueItem (item q') (assignedTo q') (Some now) (completedAt q') (result q').

(** [getNextItem]: sorts the queue in place and hands out the first
    pending item, if any; the result is its reference in the sorted
    queue. *)
Definition getNextItem (now : Z) (items : list QueueItem)
    : option nat * list QueueItem :=
  let sorted := sort byPriorityThenAge items in
  match findIndex isPending sorted with
  | Some i => (Some i, alter (start now) i sorted)
  | None => (None, sorted)
  end.

(** [getItemById] *)
Definition getItemById (id : string) (items : list QueueItem) : option QueueItem :=
  match findIndex (hasId id) items with
  | Some i => items !! i
  | None => None
  end.

(** What [updateItemStatus] does to the item it found. *)
Definition finish (s : WorkStatus) (res : option string) (now : Z)
    (q : QueueItem) : QueueItem :=
  let q' := setStatus s q in
  if WorkStatus_eqb s completed || WorkStatus_eqb s failed
  then mkQueueItem (item q') (assignedTo q') (startedAt q') (Some now) res
  else q'.

Definition updateItemStatus (id : string) (s : WorkStatus) (res : option string)
    (now : Z) (items : list QueueItem) : bool * list QueueItem :=
  match findIndex (hasId id) items with
  | None => (false, items)
  | Some i => (true, alter (finish s res now) i items)
  end.

Definition assignItem (id agentId : string) (items : list QueueItem)
    : bool * list QueueItem :=
  match findIndex (hasId id) items with
  | None => (false, items)
  | Some i =>
      (true,
       alter (fun q => mkQueueItem (item q) (Some agentId) (startedAt q)
                         (completedAt q) (result q)) i items)
  end.

(** [listItems]: a status is never an empty string, so that [if (status)]
    tests whether the argument was given. *)
Definition listItems (status : option WorkStatus) (items : list QueueItem)
    : list QueueItem :=
  match status with
  | Some s => List.filter (fun q => WorkStatus_eqb (itemStatus q) s) items
  | None => items
  end.

Definition removeItem (id : string) (items : list QueueItem)
    : bool * list QueueItem :=
  let initialLength := length items in
  let items' := List.filter (fun q => negb (hasId id q)) items in
  if negb (length items' =? initialLength)%nat then (true, items')
  else (false, items').

End WorkQueue.

(** ** The agent monitor ([src/agent-monitor.ts]) *)

Module AgentMonitor.

Inductive OperationType : Type :=
  | HEARTBEAT | COMPLETION | DISCONNECTION | ERROR.

(** [OperationResult] of [src/types.ts] ([data] holds the serialized
    value). *)
Record OperationResult : Type := mkOperationResult {
  success : bool;
  message : option string;
  data : option string
}.

(** The [details] of an operation: absent, the result of a completion,
    the error reported, or the reason of a disconnection. *)
Inductive Details : Type :=
  | NoDetails
  | ResultDetails (r : OperationResult)
  | ErrorDetails (error : string)
  | ReasonDetails (reason : string).

(** [AgentOperation] of [src/types.ts]. *)
Record AgentOperation : Type := mkAgentOperation {
  timestamp : Z;
  type : OperationType;
  details : Details
}.

(** [AgentStatus] of [src/types.ts]. *)
Record AgentStatus : Type := mkAgentStatus {
  id : string;
  status : AgentStatusType;
  lastHeartbeat : Z;
  operations : list AgentOperation
}.

(** [this.agents]: a [Map] from identifiers to statuses, in insertion
    order. *)
Definition Agents : Type := list (string * AgentStatus).

(** [this.agents.get(agentId)] *)
Fixpoint get (agentId : string) (m : Agents) : option AgentStatus :=
  match m with
  | [] => None
  | (k, v) :: rest => if String.eqb k agentId then Some v else get agentId rest
  end.

(** [this.agents.set(agentId, v)]: a key that is present keeps its place. *)
Fixpoint set (agentId : string) (v : AgentStatus) (m : Agents) : Agents :=
  match m with
  | [] => [(agentId, v)]
  | (k, v') :: rest =>
      if String.eqb k agentId then (k, v) :: rest
      else (k, v') :: set agentId v rest
  end.

(** The agent objects are shared with the map: a change to the object
    [get] returned is a change to the entry. *)
Fixpoint update (agentId : string) (f : AgentStatus -> AgentStatus) (m : Agents)
    : Agents :=
  match m with
  | [] => []
  | (k, v) :: rest =>
      if String.eqb k agentId then (k, f v) :: rest
      else (k, v) :: update agentId f rest
  end.

(** [registerAgent]; [now] is the reading of the clock. *)
Definition registerAgent (agentId : string) (now : Z) (m : Agents)
    : AgentStatus * Agents :=
  let st := mkAgentStatus agentId STARTING now [] in
  (st, set agentId st m).

Definition push (op : AgentOperation) (a : AgentStatus) : AgentStatus :=
  mkAgentStatus (id a) (status a) (lastHeartbeat a) (operations a ++ [op])%list.

Definition withMonitorStatus (s : AgentStatusType) (a : AgentStatus) : AgentStatus :=
  mkAgentStatus (id a) s (lastHeartbeat a) (operations a).

(** [recordHeartbeat]; the clock is read twice. *)
Definition recordHeartbeat (agentId : string) (now now' : Z) (m : Agents)
    : bool * Agents :=
  match get agentId m with
  | None => (false, m)
  | Some _ =>
      (true,
       update agentId
         (fun a =>
            push (mkAgentOperation now' HEARTBEAT NoDetails)
              (mkAgentStatus (id a) RUNNING now (operations a))) m)
  end.

Definition recordCompletion (agentId : string) (r : OperationResult) (now : Z)
    (m : Agents) : bool * Agents :=
  match get agentId m with
  | None => (false, m)
  | Some _ =>
      (true,
       update agentId
         (fun a =>
            push (mkAgentOperation now COMPLETION (ResultDetails r))
              (withMonitorStatus (if success r then COMPLETED else FAILED) a)) m)
  end.

Definition recordError (agentId : string) (error : string) (now : Z)
    (m : Agents) : bool * Agents :=
  match get agentId m with
  | None => (false, m)
  | Some _ =>
      (true,
       update agentId
         (fun a =>
            push (mkAgentOperation now ERROR (ErrorDetails error))
              (withMonitorStatus FAILED a)) m)
  end.

Definition getAgentStatus (agentId : string) (m : Agents) : option AgentStatus :=
  get agentId m.

Definition getAllAgents (m : Agents) : list AgentStatus := map snd m.

Definition getAgentsByStatus (s : AgentStatusType) (m : Agents) : list AgentStatus :=
  List.filter (fun a => AgentStatusType_eqb (status a) s) (map snd m).

(** What the heartbeat monitor does to one agent at time [now]. *)
Definition checkHeartbeat (heartbeatFrequency now : Z) (a : AgentStatus)
    : AgentStatus :=
  if AgentStatusType_eqb (status a) RUNNING
     && (heartbeatFrequency * 2 <? now - lastHeartbeat a)
  then push (mkAgentOperation now DISCONNECTION (ReasonDetails "Heartbeat timeout"))
         (withMonitorStatus DISCONNECTED a)
  else a.

(** One firing of the interval of [startHeartbeatMonitor]. *)
Definition heartbeatMonitor (heartbeatFrequency now : Z) (m : Agents) : Agents :=
  map (fun kv => (fst kv, checkHeartbeat heartbeatFrequency now (snd kv))) m.

(** The calls that change the monitor. *)
Inductive Call : Type :=
  | RegisterAgentCall (agentId : string) (now : Z)
  | RecordHeartbeat (agentId : string) (now now' : Z)
  | RecordCompletion (agentId : string) (r : OperationResult) (now : Z)
  | RecordError (agentId : string) (error : string) (now : Z)
  | HeartbeatMonitor (heartbeatFrequency now : Z).

Definition call (c : Call) (m : Agents) : Agents :=
  match c with
  | RegisterAgentCall agentId now => snd (registerAgent agentId now m)
  | RecordHeartbeat agentId now now' => snd (recordHeartbeat agentId now now' m)
  | RecordCompletion agentId r now => snd (recordCompletion agentId r now m)
  | RecordError agentId error now => snd (recordError agentId error now m)
  | HeartbeatMonitor heartbeatFrequency now => heartbeatMonitor heartbeatFrequency now m
  end.

Definition registers (agentId : string) (c : Call) : bool :=
  match c with
  | RegisterAgentCall agentId' _ => String.eqb agentId' agentId
  | _ => false
  end.

End AgentMonitor.

(** ** The performance metrics ([PerformanceMetrics], among the sources
    without a file name) *)

Module PerformanceMetrics.

(** The declaration of [PerformanceMetric] (imported from [./types]) is not
    among the sources; the fields are those the class reads ([name],
    [value], [unit], [timestamp]). *)
Record PerformanceMetric : Type := mkPerformanceMetric {
  metricName : string;
  metricValue : Q;
  metricUnit : string;
  metricTimestamp : Z
}.

(** The filter object of [getMetrics]; every field may be absent.  The
    field [value] is what [getSuccessRate] passes. *)
Record Filter : Type := mkFilter {
  filterName : option string;
  filterValue : option Q;
  filterUnit : option string;
  filterMinValue : option Q;
  filterMaxValue : option Q;
  filterStartTime : option Z;
  filterEndTime : option Z
}.

(** [filter.name && ...]: an absent or empty string does not filter. *)
Definition truthyString (o : option string) : option string :=
  match o with
  | Some EmptyString => None
  | other => other
  end.

(** [filter.startTime && ...]: an absent or zero time does not filter. *)
Definition truthyTime (o : option Z) : option Z :=
  match o with
  | Some 0 => None
  | other => other
  end.

Definition Qltb (x y : Q) : bool := negb (Qle_bool y x).

(** The callback of [this.metrics.filter] in [getMetrics]. *)
Definition matches (filter : Filter) (metric : PerformanceMetric) : bool :=
  let match1 :=
    match truthyString (filterName filter) with
    | Some n => String.eqb (metricName metric) n
    | None => true
    end in
  let match2 :=
    match truthyString (filterUnit filter) with
    | Some u => if String.eqb (metricUnit metric) u then match1 else false
    | None => match1
    end in
  let match3 :=
    match filterMinValue filter with
    | Some v => if Qltb (metricValue metric) v then false else match2
    | None => match2
    end in
  let match4 :=
    match filterMaxValue filter with
    | Some v => if Qltb v (metricValue metric) then false else match3
    | None => match3
    end in
  let match5 :=
    match truthyTime (filterStartTime filter) with
    | Some t => if metricTimestamp metric <? t then false else match4
    | None => match4
    end in
  match truthyTime (filterEndTime filter) with
  | Some t => if t <? metricTimestamp metric then false else match5
  | None => match5
  end.

Definition getMetrics (filter : option Filter) (metrics : list PerformanceMetric)
    : list PerformanceMetric :=
  match filter with
  | None => metrics
  | Some f => List.filter (matches f) metrics
  end.

(** The filter [getSuccessRate] builds for the value [v]. *)
Definition successFilter (v : Q) (timeRange : option (Z * Z)) : Filter :=
  match timeRange with
  | Some (start, finish) =>
      mkFilter (Some "operation_success") (Some v) None None None
        (Some start) (Some finish)
  | None =>
      mkFilter (Some "operation_success") (Some v) None None None None None
  end.

Definition getSuccessRate (timeRange : option (Z * Z))
    (metrics : list PerformanceMetric) : Q :=
  let successMetrics := getMetrics (Some (successFilter 1 timeRange)) metrics in
  let failureMetrics := getMetrics (Some (successFilter 0 timeRange)) metrics in
  let total := (length successMetrics + length failureMetrics)%nat in
  if (total =? 0)%nat then 100%Q
  else (inject_Z (Z.of_nat (length successMetrics)) / inject_Z (Z.of_nat total)
        * 100)%Q.

(** The operations [getSuccessRate] looks at: the metrics named
    [operation_success] inside the time range. *)
Definition counted (timeRange : option (Z * Z)) (metric : PerformanceMetric) : bool :=
  String.eqb (metricName metric) "operation_success" &&
  match timeRange with
  | Some (start, finish) =>
      ((start =? 0) || (start <=? metricTimestamp metric)) &&
      ((finish =? 0) || (metricTimestamp metric <=? finish))
  | None => true
  end.

End PerformanceMetrics.

(** ** Predicates of the specification *)

(** A RUNNING agent with a free slot. *)
Definition hasSpareCapacity (a : Agent) : Prop :=
  status a = RUNNING /\ currentLoad a < capacity a.

(** The state with the registry replaced. *)
Definition withAgents (l : list Agent) (st : Orchestration) : Orchestration :=
  mkOrchestration l (tasks st) (specializations st) (console st).

(** The agents the first filter of [findBestAgentForTask] keeps for the
    tag [s]. *)
Definition eligible (s : AgentSpecialization) (a : Agent) : Prop :=
  (specialization a = s \/ specialization a = general) /\
  currentLoad a < capacity a /\
  status a = RUNNING.

(** The sum of [currentLoad] over the registry. *)
Definition totalLoad (l : list Agent) : Z :=
  fold_right (fun a acc => currentLoad a + acc) 0 l.

(** Loads and capacities that are not negative. *)
Definition wellFormedAgent (a : Agent) : Prop :=
  0 <= currentLoad a /\ 0 <= capacity a.

Definition wellFormed (l : list Agent) : Prop := Forall wellFormedAgent l.

(** Agents are registered with a capacity that is not negative. *)
Definition registersCapacity (op : Operation) : Prop :=
  match op with
  | RegisterAgent _ _ _ cap => 0 <= cap
  | _ => True
  end.

(** An agent whose load and capacity are integers that doubles hold
    exactly. *)
Definition safeAgent (a : Agent) : Prop :=
  Number.isSafeInteger (currentLoad a) /\ Number.isSafeInteger (capacity a).

(** An agent that has a load ratio: with no load and no capacity,
    [currentLoad / capacity] is NaN. *)
Definition hasRatio (a : Agent) : Prop :=
  currentLoad a <> 0 \/ capacity a <> 0.

(** *** The standard deviation of the specification *)

(** The load ratio as a rational number. *)
Definition exactRatio (a : Agent) : Q :=
  (inject_Z (currentLoad a) / inject_Z (capacity a))%Q.

Definition exactMean (ratios : list Q) : Q :=
  (fold_left Qplus ratios 0 / inject_Z (Z.of_nat (length ratios)))%Q.

(** The population variance: the mean of the squared deviations from the
    mean. *)
Definition exactVariance (ratios : list Q) : Q :=
  let m := exactMean ratios in
  (fold_left (fun sum val => sum + (val - m) ^ 2) ratios 0
   / inject_Z (Z.of_nat (length ratios)))%Q.

(** Whether the population standard deviation, the square root of the
    variance, exceeds [t]: decided on the squares. *)
Definition exactStdDevExceeds (ratios : list Q) (t : Q) : bool :=
  negb (Qle_bool (exactVariance ratios) (t * t)).

(** Agents are registered with a positive capacity. *)
Definition admissible (op : Operation) : Prop :=
  match op with
  | RegisterAgent _ _ _ cap => 0 < cap
  | _ => True
  end.

(** A registry and a task store to evaluate the methods on. *)
Definition sampleAgent (id : string) (st : AgentStatusType)
    (s : AgentSpecialization) (cap load : Z) : Agent :=
  mkAgent id id st s cap load.

Definition sampleTask : WorkItem :=
  mkWorkItem "t1" "Schema" "add an index to schema.sql" medium pending 0.

Definition sampleTasks (taskId : string) : option WorkItem :=
  if String.eqb taskId "t1" then Some sampleTask else None.

Definition orchestrationOf (l : list Agent) : Orchestration :=
  mkOrchestration l sampleTasks AgentSpecializationManager.defaultSpecializations [].

(** ** Predicates on the outcome of a rebalance pass *)

(** The sum of [capacity] over the registry. *)
Definition totalCapacity (l : list Agent) : Z :=
  fold_right (fun a acc => capacity a + acc) 0 l.

Definition noneOverloaded (l : list Agent) : Prop :=
  Forall (fun a => currentLoad a <= capacity a) l.

Definition noneUnderloaded (l : list Agent) : Prop :=
  Forall (fun a => capacity a <= currentLoad a) l.

(** The receivers the loops work on are the agents below capacity, each
    listed once. *)
Definition receiversExact (l : list Agent) (under : list nat) : Prop :=
  NoDup under /\ forall i, In i under <-> loadAt l i < capacityAt l i.

(** An agent with its load blanked: what [balanceLoad] must not touch. *)
Definition unloaded (a : Agent) : Agent := withLoad 0 a.

(** What one operation adds to the sum of the loads: one unit for an
    assignment that goes through, minus one unit for a completion on an
    agent that carries load, nothing otherwise. *)
Definition loadDelta (op : Operation) (st : Orchestration) : Z :=
  match op with
  | AssignTask taskId agentId =>
      match fst (assignTask taskId agentId st) with
      | inr _ => 1
      | inl _ => 0
      end
  | CompleteTask agentId _ =>
      match find agentId (agents st) with
      | Some (_, agent) => if 0 <? currentLoad agent then -1 else 0
      | None => 0
      end
  | _ => 0
  end.

(** The same over a sequence of operations. *)
Fixpoint totalDelta (ops : list Operation) (st : Orchestration) : Z :=
  match ops with
  | [] => 0
  | op :: rest => loadDelta op st + totalDelta rest (perform op st)
  end.

(** * Properties *)

(** ** Doubles *)

(** Rounding, for any precision and exponent range. *)
Section Binary.
Variables prec emax : Z.
Hypothesis prec_pos : 0 < prec.
Hypothesis prec_lt_emax : prec < emax.

Lemma fexp_ge (e : Z) : SpecFloat.emin prec emax <= SpecFloat.fexp prec emax e.
Proof. unfold SpecFloat.fexp. lia. Qed.

Lemma digits2_pos_bounds (m : positive) :
  2 ^ (Zpos (digits2_pos m) - 1) <= Zpos m < 2 ^ Zpos (digits2_pos m).
Proof.
  induction m as [m IH|m IH|]; simpl digits2_pos.
  - rewrite Pos2Z.inj_succ. change (Zpos m~1) with (2 * Zpos m + 1).
    replace (Z.succ (Zpos (digits2_pos m)) - 1) with (Z.succ (Zpos (digits2_pos m) - 1)) by lia.
    rewrite !Z.pow_succ_r by lia.
    revert IH. generalize (2 ^ (Zpos (digits2_pos m) - 1)) (2 ^ Zpos (digits2_pos m)). intros; lia.
  - rewrite Pos2Z.inj_succ. change (Zpos m~0) with (2 * Zpos m).
    replace (Z.succ (Zpos (digits2_pos m)) - 1) with (Z.succ (Zpos (digits2_pos m) - 1)) by lia.
    rewrite !Z.pow_succ_r by lia.
    revert IH. generalize (2 ^ (Zpos (digits2_pos m) - 1)) (2 ^ Zpos (digits2_pos m)). intros; lia.
  - simpl. lia.
Qed.

Lemma shr_1_m (mrs : shr_record) :
  0 <= shr_m mrs -> shr_m (shr_1 mrs) = shr_m mrs / 2.
Proof.
  destruct mrs as [m r s]. simpl. intros Hm.
  destruct m as [|[p|p|]|p]; simpl shr_m; try lia.
  - reflexivity.
  - apply Z.div_unique with 1; lia.
  - apply Z.div_unique with 0; lia.
  - reflexivity.
Qed.

Lemma iter_shr_m (p : positive) (mrs : shr_record) :
  0 <= shr_m mrs ->
  shr_m (SpecFloat.iter_pos shr_1 p mrs) = shr_m mrs / 2 ^ Zpos p.
Proof.
  revert mrs. induction p as [p IH|p IH|]; intros mrs Hm; simpl SpecFloat.iter_pos.
  - assert (H1 : 0 <= shr_m (shr_1 mrs)).
    { rewrite shr_1_m by exact Hm. apply Z.div_pos; lia. }
    assert (H2 : 0 <= shr_m (SpecFloat.iter_pos shr_1 p (shr_1 mrs))).
    { rewrite IH by exact H1. apply Z.div_pos; [exact H1|]. apply Z.pow_pos_nonneg; lia. }
    rewrite IH by exact H2. rewrite IH by exact H1. rewrite shr_1_m by exact Hm.
    assert (Hp : 0 < 2 ^ Zpos p) by (apply Z.pow_pos_nonneg; lia).
    rewrite !Z.div_div by lia. f_equal.
    replace (Zpos p~1) with (Z.succ (Zpos p + Zpos p)) by lia.
    rewrite Z.pow_succ_r, Z.pow_add_r by lia. ring.
  - assert (H2 : 0 <= shr_m (SpecFloat.iter_pos shr_1 p mrs)).
    { rewrite IH by exact Hm. apply Z.div_pos; [exact Hm|]. apply Z.pow_pos_nonneg; lia. }
    rewrite IH by exact H2. rewrite IH by exact Hm.
    assert (Hp : 0 < 2 ^ Zpos p) by (apply Z.pow_pos_nonneg; lia).
    rewrite !Z.div_div by lia. f_equal.
    replace (Zpos p~0) with (Zpos p + Zpos p) by lia.
    rewrite Z.pow_add_r by lia. ring.
  - rewrite shr_1_m by exact Hm. reflexivity.
Qed.

Lemma shr_record_of_loc_m (m : Z) (l : location) : shr_m (shr_record_of_loc m l) = m.
Proof. destruct l as [|[]]; reflexivity. Qed.

(** What [shr_fexp] does to a mantissa and its exponent. *)
Lemma shr_fexp_spec (m e : Z) (l : location) :
  0 <= m ->
  let n := SpecFloat.fexp prec emax (Zdigits2 m + e) - e in
  shr_m (fst (shr_fexp prec emax m e l)) = (if 0 <? n then m / 2 ^ n else m) /\
  snd (shr_fexp prec emax m e l) = Z.max e (SpecFloat.fexp prec emax (Zdigits2 m + e)).
Proof.
  intros Hm n. unfold shr_fexp, shr. fold n.
  destruct n as [|p|p] eqn:En; simpl fst; simpl snd.
  - rewrite shr_record_of_loc_m. split; [reflexivity|lia].
  - split; [|lia]. rewrite iter_shr_m by (now rewrite shr_record_of_loc_m).
    now rewrite shr_record_of_loc_m.
  - rewrite shr_record_of_loc_m. split; [reflexivity|lia].
Qed.

Lemma shr_fexp_nonneg (m e : Z) (l : location) :
  0 <= m -> 0 <= shr_m (fst (shr_fexp prec emax m e l)).
Proof.
  intros Hm. destruct (shr_fexp_spec m e l Hm) as [-> _].
  destruct (0 <? _) eqn:E; [|exact Hm]. apply Z.ltb_lt in E.
  apply Z.div_pos; [exact Hm|]. apply Z.pow_pos_nonneg; lia.
Qed.

Lemma shr_fexp_exponent (m e : Z) (l : location) :
  0 <= m -> SpecFloat.emin prec emax <= snd (shr_fexp prec emax m e l).
Proof.
  intros Hm. destruct (shr_fexp_spec m e l Hm) as [_ ->].
  pose proof (fexp_ge (Zdigits2 m + e)). lia.
Qed.

(** Above the least exponent no mantissa is shifted out. *)
Lemma shr_fexp_pos (m e : Z) (l : location) :
  0 < m -> SpecFloat.emin prec emax <= e -> 0 < shr_m (fst (shr_fexp prec emax m e l)).
Proof.
  intros Hm He. destruct (shr_fexp_spec m e l) as [-> _]; [lia|].
  destruct (0 <? _) eqn:En; [|exact Hm]. apply Z.ltb_lt in En.
  destruct m as [|p|p]; try lia. simpl Zdigits2 in *.
  pose proof (digits2_pos_bounds p) as [Hlo _].
  set (d := Zpos (digits2_pos p)) in *.
  assert (Hn : SpecFloat.fexp prec emax (d + e) - e = d - prec) by (unfold SpecFloat.fexp in *; lia).
  rewrite Hn in *.
  assert (H2 : 2 ^ (d - 1) = 2 ^ (prec - 1) * 2 ^ (d - prec)).
  { rewrite <- Z.pow_add_r by lia. f_equal. lia. }
  assert (Hp : 0 < 2 ^ (d - prec)) by (apply Z.pow_pos_nonneg; lia).
  assert (Hq : 0 < 2 ^ (prec - 1)) by (apply Z.pow_pos_nonneg; lia).
  apply Z.lt_le_trans with (2 ^ (prec - 1)); [exact Hq|].
  apply Z.div_le_lower_bound; [exact Hp|]. lia.
Qed.

Lemma round_nearest_even_bounds (m : Z) (l : location) :
  m <= round_nearest_even m l <= m + 1.
Proof.
  destruct l as [|[]]; simpl; try lia. destruct (Z.even m); lia.
Qed.

(** The result of rounding a mantissa that is not negative. *)
Lemma binary_round_aux_shape (s : bool) (mx ex : Z) (lx : location) :
  0 <= mx ->
  binary_round_aux prec emax s mx ex lx = S754_zero s \/
  binary_round_aux prec emax s mx ex lx = S754_infinity s \/
  exists m e, binary_round_aux prec emax s mx ex lx = S754_finite s m e /\ SpecFloat.emin prec emax <= e.
Proof.
  intros Hm. unfold binary_round_aux.
  pose proof (shr_fexp_nonneg mx ex lx Hm) as H1.
  destruct (shr_fexp prec emax mx ex lx) as [mrs' e']. simpl in H1.
  pose proof (round_nearest_even_bounds (shr_m mrs') (loc_of_shr_record mrs')) as Hr.
  set (m1 := round_nearest_even _ _) in *.
  assert (Hm1 : 0 <= m1) by lia.
  pose proof (shr_fexp_nonneg m1 e' loc_Exact Hm1) as H2.
  pose proof (shr_fexp_exponent m1 e' loc_Exact Hm1) as H3.
  destruct (shr_fexp prec emax m1 e' loc_Exact) as [mrs'' e'']. simpl in H2, H3.
  destruct (shr_m mrs'') as [|p|p]; [auto| |lia].
  destruct (e'' <=? emax - prec); [right; right; eauto|right; left; reflexivity].
Qed.

(** The result of rounding a positive mantissa above the least exponent. *)
Lemma binary_round_aux_pos (s : bool) (mx ex : Z) (lx : location) :
  0 < mx -> SpecFloat.emin prec emax <= ex ->
  binary_round_aux prec emax s mx ex lx = S754_infinity s \/
  exists m e, binary_round_aux prec emax s mx ex lx = S754_finite s m e /\ SpecFloat.emin prec emax <= e.
Proof.
  intros Hm He. unfold binary_round_aux.
  pose proof (shr_fexp_pos mx ex lx Hm He) as H1.
  pose proof (shr_fexp_exponent mx ex lx ltac:(lia)) as H1'.
  destruct (shr_fexp prec emax mx ex lx) as [mrs' e']. simpl in H1, H1'.
  pose proof (round_nearest_even_bounds (shr_m mrs') (loc_of_shr_record mrs')) as Hr.
  set (m1 := round_nearest_even _ _) in *.
  assert (Hm1 : 0 < m1) by lia.
  pose proof (shr_fexp_pos m1 e' loc_Exact Hm1 H1') as H2.
  pose proof (shr_fexp_exponent m1 e' loc_Exact ltac:(lia)) as H3.
  destruct (shr_fexp prec emax m1 e' loc_Exact) as [mrs'' e'']. simpl in H2, H3.
  destruct (shr_m mrs'') as [|p|p]; [lia| |lia].
  destruct (e'' <=? emax - prec); [right; eauto|left; reflexivity].
Qed.

Lemma iter_xO (m k : positive) : Zpos (Pos.iter xO m k) = Zpos m * 2 ^ Zpos k.
Proof.
  induction k as [|k IH] using Pos.peano_ind.
  - simpl. lia.
  - rewrite Pos.iter_succ, Pos2Z.inj_xO, IH, Pos2Z.inj_succ, Z.pow_succ_r by lia. lia.
Qed.

Lemma shl_align_spec (mx : positive) (ex ez : Z) :
  ez <= ex ->
  Zpos (fst (shl_align mx ex ez)) = Zpos mx * 2 ^ (ex - ez) /\
  snd (shl_align mx ex ez) = ez.
Proof.
  intros H. unfold shl_align. destruct (ez - ex) as [|p|p] eqn:E; simpl; try lia.
  - replace (ex - ez) with 0 by lia. rewrite Z.pow_0_r. split; lia.
  - rewrite iter_xO. replace (ex - ez) with (Zpos p) by lia. split; reflexivity.
Qed.

Lemma binary_round_pos (s : bool) (mx : positive) (ex : Z) :
  SpecFloat.emin prec emax <= ex ->
  binary_round prec emax s mx ex = S754_infinity s \/
  exists m e, binary_round prec emax s mx ex = S754_finite s m e /\ SpecFloat.emin prec emax <= e.
Proof.
  intros He. unfold binary_round.
  set (f := SpecFloat.fexp prec emax (Zpos (digits2_pos mx) + ex)).
  pose proof (fexp_ge (Zpos (digits2_pos mx) + ex)) as Hf. fold f in Hf.
  destruct (shl_align mx ex f) as [mz ez] eqn:E.
  apply binary_round_aux_pos; [lia|].
  unfold shl_align in E. destruct (f - ex) as [|p|p] eqn:E'; injection E as <- <-; lia.
Qed.

(** The sign of a difference is the order of the values, counted in
    units of the least power of two. *)
Lemma sign_sub_finite (sx sy : bool) (mx my : positive) (ex ey : Z) :
  SpecFloat.emin prec emax <= ex -> SpecFloat.emin prec emax <= ey ->
  Number.sign (SFsub prec emax (S754_finite sx mx ex) (S754_finite sy my ey))
  = (cond_Zopp sx (Zpos mx * 2 ^ (ex - (SpecFloat.emin prec emax)))
     ?= cond_Zopp sy (Zpos my * 2 ^ (ey - (SpecFloat.emin prec emax)))).
Proof.
  intros Hx Hy. unfold SFsub.
  set (ez := Z.min ex ey).
  destruct (shl_align_spec mx ex ez ltac:(lia)) as [-> _].
  destruct (shl_align_spec my ey ez ltac:(lia)) as [-> _].
  set (X := cond_Zopp sx (Zpos mx * 2 ^ (ex - ez))).
  set (Y := cond_Zopp sy (Zpos my * 2 ^ (ey - ez))).
  assert (Hc : 0 < 2 ^ (ez - (SpecFloat.emin prec emax))) by (apply Z.pow_pos_nonneg; lia).
  assert (Hsplit : forall e, ez <= e -> 2 ^ (e - (SpecFloat.emin prec emax)) = 2 ^ (e - ez) * 2 ^ (ez - (SpecFloat.emin prec emax))).
  { intros e He. rewrite <- Z.pow_add_r by lia. f_equal. lia. }
  assert (Kx : cond_Zopp sx (Zpos mx * 2 ^ (ex - (SpecFloat.emin prec emax))) = X * 2 ^ (ez - (SpecFloat.emin prec emax))).
  { rewrite (Hsplit ex) by lia. unfold X, cond_Zopp. destruct sx; ring. }
  assert (Ky : cond_Zopp sy (Zpos my * 2 ^ (ey - (SpecFloat.emin prec emax))) = Y * 2 ^ (ez - (SpecFloat.emin prec emax))).
  { rewrite (Hsplit ey) by lia. unfold Y, cond_Zopp. destruct sy; ring. }
  rewrite Kx, Ky, <- Zmult_compare_compat_r by lia.
  rewrite (Z.compare_sub X Y).
  destruct (X - Y) as [|p|p]; simpl binary_normalize.
  - reflexivity.
  - destruct (binary_round_pos false p ez ltac:(lia)) as [->|(m & e & -> & _)];
      reflexivity.
  - destruct (binary_round_pos true p ez ltac:(lia)) as [->|(m & e & -> & _)];
      reflexivity.
Qed.

Lemma digits2_pos_unique (m : positive) (d : Z) :
  2 ^ (d - 1) <= Zpos m < 2 ^ d -> Zpos (digits2_pos m) = d.
Proof.
  intros [H1 H2]. pose proof (digits2_pos_bounds m) as [H3 H4].
  assert (Hd : 0 < d).
  { destruct d as [|d|d]; [simpl in H2; lia|lia|]. rewrite Z.pow_neg_r in H2; lia. }
  assert (Ha : 2 ^ (Zpos (digits2_pos m) - 1) < 2 ^ d) by lia.
  assert (Hb : 2 ^ (d - 1) < 2 ^ Zpos (digits2_pos m)) by lia.
  apply Z.pow_lt_mono_r_iff in Ha; [|lia|lia].
  apply Z.pow_lt_mono_r_iff in Hb; [|lia|lia].
  lia.
Qed.

(** A mantissa that already has its exponent is kept as it is. *)
Lemma binary_round_aux_exact (s : bool) (m : positive) (e : Z) :
  SpecFloat.fexp prec emax (Zpos (digits2_pos m) + e) = e ->
  binary_round_aux prec emax s (Zpos m) e loc_Exact
  = if e <=? emax - prec then S754_finite s m e else S754_infinity s.
Proof.
  intros H. unfold binary_round_aux, shr_fexp. simpl Zdigits2.
  rewrite H, Z.sub_diag. unfold shr at 1. cbv beta iota.
  cbn [shr_record_of_loc shr_m loc_of_shr_record round_nearest_even Zdigits2].
  rewrite H, Z.sub_diag. reflexivity.
Qed.

(** Integers below [2 ^ prec] are held exactly. *)
Lemma binary_round_integer (s : bool) (p : positive) :
  Zpos p < 2 ^ prec ->
  exists m e, binary_round prec emax s p 0 = S754_finite s m e.
Proof.
  intros Hp. unfold binary_round.
  pose proof (digits2_pos_bounds p) as [Hlo Hhi].
  set (d := Zpos (digits2_pos p)) in *.
  assert (Hd : 0 < d <= prec).
  { split; [unfold d; lia|].
    assert (Ha : 2 ^ (d - 1) < 2 ^ prec) by lia.
    apply Z.pow_lt_mono_r_iff in Ha; lia. }
  replace (d + 0) with d by lia.
  assert (Hf : SpecFloat.fexp prec emax d = d - prec) by (unfold SpecFloat.fexp, SpecFloat.emin; lia).
  rewrite Hf.
  destruct (shl_align_spec p 0 (d - prec) ltac:(lia)) as [Hm He].
  destruct (shl_align p 0 (d - prec)) as [mz ez]. cbn [fst snd] in Hm, He. subst ez.
  replace (0 - (d - prec)) with (prec - d) in Hm by lia.
  assert (Hdz : Zpos (digits2_pos mz) = prec).
  { apply digits2_pos_unique. rewrite Hm.
    assert (Hk : 0 < 2 ^ (prec - d)) by (apply Z.pow_pos_nonneg; lia).
    assert (H1 : 2 ^ (prec - 1) = 2 ^ (d - 1) * 2 ^ (prec - d)).
    { rewrite <- Z.pow_add_r by lia. f_equal. lia. }
    assert (H2 : 2 ^ prec = 2 ^ d * 2 ^ (prec - d)).
    { rewrite <- Z.pow_add_r by lia. f_equal. lia. }
    rewrite H1, H2. split; nia. }
  rewrite binary_round_aux_exact.
  - destruct (d - prec <=? emax - prec) eqn:E; [eauto|]. apply Z.leb_gt in E. lia.
  - rewrite Hdz. unfold SpecFloat.fexp, SpecFloat.emin. lia.
Qed.

(** A quotient of finite numbers is a number. *)
Lemma div_finite_shape (sx sy : bool) (mx my : positive) (ex ey : Z) :
  let r := SFdiv prec emax (S754_finite sx mx ex) (S754_finite sy my ey) in
  r = S754_zero (xorb sx sy) \/ r = S754_infinity (xorb sx sy) \/
  exists m e, r = S754_finite (xorb sx sy) m e /\ SpecFloat.emin prec emax <= e.
Proof.
  unfold SFdiv, SFdiv_core_binary.
  set (s := _ - _ - _). set (m' := match s with Zpos _ => _ | Z0 => _ | Zneg _ => _ end).
  assert (Hm' : 0 <= m').
  { unfold m'. destruct s; [lia| |lia]. apply Z.shiftl_nonneg. lia. }
  pose proof (Z.div_pos m' (Zpos my) Hm' ltac:(lia)) as Hq.
  unfold Z.div in Hq. destruct (Z.div_eucl m' (Zpos my)) as [q r]. simpl in Hq.
  now apply binary_round_aux_shape.
Qed.

(** So is a product. *)
Lemma mul_finite_shape (sx sy : bool) (mx my : positive) (ex ey : Z) :
  let r := SFmul prec emax (S754_finite sx mx ex) (S754_finite sy my ey) in
  r = S754_zero (xorb sx sy) \/ r = S754_infinity (xorb sx sy) \/
  exists m e, r = S754_finite (xorb sx sy) m e /\ SpecFloat.emin prec emax <= e.
Proof. simpl. apply binary_round_aux_shape. lia. Qed.
End Binary.

(** Binary64. *)
Section NumberFacts.
Import Number.

Lemma prec_positive : 0 < prec.
Proof. reflexivity. Qed.

Lemma prec_below_emax : prec < emax.
Proof. reflexivity. Qed.

Lemma ofInteger_safe (z : Z) :
  isSafeInteger z -> z <> 0 ->
  exists m e, ofInteger z = S754_finite (z <? 0) m e.
Proof.
  intros [H1 H2] Hz. unfold ofInteger.
  destruct z as [|p|p]; [congruence| |].
  - apply (binary_round_integer prec emax prec_positive prec_below_emax false p). exact H2.
  - apply (binary_round_integer prec emax prec_positive prec_below_emax true p).
    change (Zpos p) with (- Zneg p). unfold prec. lia.
Qed.

Lemma ofInteger_zero : ofInteger 0 = S754_zero false.
Proof. reflexivity. Qed.

(** The quotient of two safe integers that are not both zero is a
    number. *)
Lemma div_ordered (a b : Z) :
  isSafeInteger a -> isSafeInteger b -> a <> 0 \/ b <> 0 ->
  ordered (div (ofInteger a) (ofInteger b)).
Proof.
  intros Ha Hb Hnz.
  destruct (Z.eq_dec a 0) as [->|Hza], (Z.eq_dec b 0) as [->|Hzb].
  - lia.
  - destruct (ofInteger_safe b Hb Hzb) as (m & e & ->). exact I.
  - destruct (ofInteger_safe a Ha Hza) as (m & e & ->). exact I.
  - destruct (ofInteger_safe a Ha Hza) as (m & e & ->).
    destruct (ofInteger_safe b Hb Hzb) as (m' & e' & ->).
    destruct (div_finite_shape prec emax (a <? 0) (b <? 0) m m' e e')
      as [H|[H|(m2 & e2 & H & He)]]; unfold div; rewrite H; simpl; auto.
Qed.

Lemma mul_ordered (x : number) (z : Z) :
  ordered x -> isSafeInteger z -> z <> 0 -> ordered (mul x (ofInteger z)).
Proof.
  intros Hx Hz Hnz. destruct (ofInteger_safe z Hz Hnz) as (m & e & ->).
  destruct x as [s|s| |s mx ex]; try exact I; [destruct Hx|].
  destruct (mul_finite_shape prec emax s (z <? 0) mx m ex e)
    as [H|[H|(m2 & e2 & H & He)]]; unfold mul; rewrite H; simpl; auto.
Qed.

Lemma compareRank_same_class (c a b : Z) :
  compareRank (c, a) (c, b) = (a ?= b).
Proof. unfold compareRank. cbn [fst snd]. now rewrite Z.compare_refl. Qed.

Lemma sign_sub (x y : number) :
  ordered x -> ordered y -> sign (sub x y) = compareRank (rank x) (rank y).
Proof.
  destruct x as [sx|sx| |sx mx ex], y as [sy|sy| |sy my ey]; intros Hx Hy;
    unfold ordered in Hx, Hy; try contradiction.
  - destruct sx, sy; reflexivity.
  - destruct sx, sy; reflexivity.
  - unfold rank. rewrite compareRank_same_class.
    assert (Hp : 0 < Zpos my * 2 ^ (ey - emin)).
    { apply Z.mul_pos_pos; [lia|]. apply Z.pow_pos_nonneg; lia. }
    destruct sy; unfold cond_Zopp.
    + change (sign (sub (S754_zero sx) (S754_finite true my ey))) with Gt.
      symmetry. apply Z.compare_gt_iff. lia.
    + change (sign (sub (S754_zero sx) (S754_finite false my ey))) with Lt.
      symmetry. apply Z.compare_lt_iff. lia.
  - destruct sx, sy; reflexivity.
  - destruct sx, sy; reflexivity.
  - destruct sx; reflexivity.
  - unfold rank. rewrite compareRank_same_class.
    assert (Hp : 0 < Zpos mx * 2 ^ (ex - emin)).
    { apply Z.mul_pos_pos; [lia|]. apply Z.pow_pos_nonneg; lia. }
    destruct sx; unfold cond_Zopp.
    + change (sign (sub (S754_finite true mx ex) (S754_zero sy))) with Lt.
      symmetry. apply Z.compare_lt_iff. lia.
    + change (sign (sub (S754_finite false mx ex) (S754_zero sy))) with Gt.
      symmetry. apply Z.compare_gt_iff. lia.
  - destruct sy; reflexivity.
  - unfold rank. rewrite compareRank_same_class.
    apply (sign_sub_finite prec emax prec_positive); assumption.
Qed.

Lemma compareRank_not_Gt (a b : Z * Z) :
  compareRank a b <> Gt <->
  fst a < fst b \/ (fst a = fst b /\ snd a <= snd b).
Proof.
  unfold compareRank.
  destruct (Z.compare_spec (fst a) (fst b)), (Z.compare_spec (snd a) (snd b));
    split; intros; try congruence; try lia; try tauto.
Qed.

Lemma compareRank_Lt (a b : Z * Z) :
  compareRank a b = Lt <->
  fst a < fst b \/ (fst a = fst b /\ snd a < snd b).
Proof.
  unfold compareRank.
  destruct (Z.compare_spec (fst a) (fst b)), (Z.compare_spec (snd a) (snd b));
    split; intros; try congruence; try lia; try tauto.
Qed.

Lemma compareRank_Gt (a b : Z * Z) :
  compareRank a b = Gt <->
  fst b < fst a \/ (fst a = fst b /\ snd b < snd a).
Proof.
  unfold compareRank.
  destruct (Z.compare_spec (fst a) (fst b)), (Z.compare_spec (snd a) (snd b));
    split; intros; try congruence; try lia; try tauto.
Qed.

Lemma place_ltb (x y : number) :
  isNaN x = false -> isNaN y = false ->
  ltb x y = true <-> before (place x) (place y).
Proof.
  unfold ltb, SFltb, before.
  destruct x as [sx|sx| |sx mx ex], y as [sy|sy| |sy my ey];
    intros Hx Hy; try discriminate;
    try (destruct sx); try (destruct sy); simpl;
    try (split; [discriminate|lia]); try (split; [lia|reflexivity]);
    change (Pos.compare_cont Eq ?a ?b) with (Pos.compare a b);
    destruct (Z.compare_spec ex ey), (Pos.compare_spec mx my); simpl;
    split; intros; try congruence; try lia.
Qed.

Lemma place_leb (x y : number) :
  isNaN x = false -> isNaN y = false ->
  leb x y = true <-> ~ before (place y) (place x).
Proof.
  unfold leb, SFleb, before.
  destruct x as [sx|sx| |sx mx ex], y as [sy|sy| |sy my ey];
    intros Hx Hy; try discriminate;
    try (destruct sx); try (destruct sy); simpl;
    try (split; [discriminate|lia]); try (split; [lia|reflexivity]);
    change (Pos.compare_cont Eq ?a ?b) with (Pos.compare a b);
    destruct (Z.compare_spec ex ey), (Pos.compare_spec mx my); simpl;
    split; intros; try congruence; try lia.
Qed.
End NumberFacts.


(** ** The methods on concrete inputs *)

Example fileMatches_picks_file_names :
  FileNameRegex.fileMatches
    "fix schema.sql and my-app.tsx, not a.b or x.config1; see index.html"
  = ["schema.sql"; "my-app.tsx"; "index.html"].
Proof. reflexivity. Qed.

Example fileMatches_backtracks :
  FileNameRegex.fileMatches "a.b.cd e_f.go. -x.py ab.c9 ab.cd_ q.abcd"
  = ["b.cd"; "e_f.go"; "x.py"; "q.abcd"].
Proof. reflexivity. Qed.

Example determineSpecialization_empty :
  AgentSpecializationManager.determineSpecialization
    AgentSpecializationManager.defaultSpecializations "" [] = general.
Proof. reflexivity. Qed.

(** An excess of 2 is absorbed by the only receiver. *)
Example balanceLoad_absorbs_excess :
  balanceLoad (orchestrationOf [sampleAgent "a" RUNNING general 2 4;
                                sampleAgent "b" RUNNING general 3 0])
  = (inr tt, orchestrationOf [sampleAgent "a" RUNNING general 2 2;
                              sampleAgent "b" RUNNING general 3 2]).
Proof. reflexivity. Qed.

(** Ties between receivers go to the first one in sorted order. *)
Example balanceLoad_spreads_over_receivers :
  map currentLoad (agents (snd (balanceLoad
    (orchestrationOf [sampleAgent "a" RUNNING general 4 1;
                      sampleAgent "b" RUNNING general 1 4;
                      sampleAgent "c" RUNNING general 4 0]))))
  = [2; 1; 2].
Proof. reflexivity. Qed.

(** Three explicit assignments fill an agent of capacity 3; the fourth
    fails. *)
Example assignTask_saturates :
  let st0 := orchestrationOf [] in
  let st1 := snd (registerAgent "agent-1" "one" backend 3 st0) in
  let st4 := performAll [AssignTask "t1" (Some "agent-1");
                         AssignTask "t2" (Some "agent-1");
                         AssignTask "t3" (Some "agent-1")] st1 in
  map currentLoad (agents st4) = [3] /\
  assignTask "t4" (Some "agent-1") st4 = (inl (AgentAtCapacity "agent-1"), st4).
Proof. split; reflexivity. Qed.

(** The task [sampleTask] names a [.sql] file: the RUNNING database agent
    gets it although the general agent is idle. *)
Example assignTask_routes_by_specialization :
  fst (assignTask "t1" None
         (orchestrationOf [sampleAgent "g" RUNNING general 4 0;
                           sampleAgent "d" RUNNING database 4 3;
                           sampleAgent "e" STARTING database 4 0]))
  = inr 1%nat.
Proof. reflexivity. Qed.

(** ** Facts about [sort], [indexed] and [find] *)

Section SortFacts.
Context {A : Type} (compareFn : A -> A -> comparison).

Lemma insertSorted_In (x y : A) (l : list A) :
  In y (insertSorted compareFn x l) <-> y = x \/ In y l.
Proof.
  induction l as [|z l IH]; simpl.
  - intuition.
  - destruct (compareFn x z); simpl; rewrite ?IH; intuition.
Qed.

Lemma sort_In (y : A) (l : list A) : In y (sort compareFn l) <-> In y l.
Proof.
  induction l as [|x l IH]; simpl; [tauto|].
  rewrite insertSorted_In, IH. intuition.
Qed.

Lemma sort_nil (l : list A) : sort compareFn l = [] -> l = [].
Proof.
  destruct l as [|x l]; [reflexivity|].
  intros H. assert (Hin : In x (sort compareFn (x :: l))).
  { apply sort_In. now left. }
  rewrite H in Hin. destruct Hin.
Qed.

(** Only what the comparator answers on the elements of the array
    matters. *)
Lemma insertSorted_ext (compareFn' : A -> A -> comparison) (x : A) (l : list A) :
  (forall y, In y l -> compareFn x y = compareFn' x y) ->
  insertSorted compareFn x l = insertSorted compareFn' x l.
Proof.
  induction l as [|z l IH]; intros H; simpl; [reflexivity|].
  rewrite <- (H z (or_introl eq_refl)).
  destruct (compareFn x z); try reflexivity.
  f_equal. apply IH. intros y Hy. apply H. now right.
Qed.

Lemma sort_ext (compareFn' : A -> A -> comparison) (l : list A) :
  (forall x y, In x l -> In y l -> compareFn x y = compareFn' x y) ->
  sort compareFn l = sort compareFn' l.
Proof.
  induction l as [|x l IH]; intros H; simpl; [reflexivity|].
  change (fold_right (insertSorted compareFn') [] l) with (sort compareFn' l).
  rewrite <- IH by (intros y z Hy Hz; apply H; now right).
  apply insertSorted_ext. intros y Hy. apply (proj1 (sort_In _ _)) in Hy.
  apply H; [now left|now right].
Qed.

(** The comparator orders the elements: it is reflexive and transitive
    as "not after", and never puts two elements after each other. *)
Hypothesis compare_refl : forall x, compareFn x x <> Gt.
Hypothesis compare_trans :
  forall x y z, compareFn x y <> Gt -> compareFn y z <> Gt -> compareFn x z <> Gt.
Hypothesis compare_total :
  forall x y, compareFn x y = Gt -> compareFn y x <> Gt.

(** The first element of a sorted array follows no other element. *)
Lemma sort_head_least (l : list A) (h : A) (t : list A) :
  sort compareFn l = h :: t -> forall y, In y l -> compareFn h y <> Gt.
Proof.
  revert h t. induction l as [|x l IH]; intros h t Hs y Hy; [destruct Hy|].
  simpl in Hs.
  destruct (sort compareFn l) as [|h' t'] eqn:Hl.
  - apply sort_nil in Hl. subst l. simpl in Hs. injection Hs as <- _.
    destruct Hy as [<-|[]]. apply compare_refl.
  - simpl in Hs. destruct (compareFn x h') eqn:Hc.
    + injection Hs as <- _. destruct Hy as [<-|Hy]; [apply compare_refl|].
      apply compare_trans with h'; [congruence|]. now apply (IH h' t').
    + injection Hs as <- _. destruct Hy as [<-|Hy]; [apply compare_refl|].
      apply compare_trans with h'; [congruence|]. now apply (IH h' t').
    + injection Hs as <- _. destruct Hy as [<-|Hy].
      * now apply compare_total.
      * now apply (IH h' t').
Qed.
End SortFacts.

Lemma indexedFrom_In (n i : nat) (a : Agent) (l : list Agent) :
  In (i, a) (indexedFrom n l) <-> (n <= i)%nat /\ l !! (i - n)%nat = Some a.
Proof.
  revert n. induction l as [|b l IH]; intros n; simpl.
  - split; [tauto|]. intros [_ H]. discriminate.
  - rewrite IH. split.
    + intros [H|[H1 H2]].
      * injection H as <- <-. split; [lia|]. now rewrite Nat.sub_diag.
      * split; [lia|]. replace (i - n)%nat with (S (i - S n)) by lia. exact H2.
    + intros [H1 H2]. destruct (decide (i = n)) as [->|Hne].
      * left. rewrite Nat.sub_diag in H2. simpl in H2. congruence.
      * right. split; [lia|].
        replace (i - n)%nat with (S (i - S n)) in H2 by lia. exact H2.
Qed.

Lemma indexed_In (i : nat) (a : Agent) (l : list Agent) :
  In (i, a) (indexed l) <-> l !! i = Some a.
Proof.
  unfold indexed. rewrite indexedFrom_In, Nat.sub_0_r. intuition lia.
Qed.

Lemma findFrom_Some (n : nat) (id : string) (l : list Agent) (i : nat) (a : Agent) :
  findFrom n id l = Some (i, a) ->
  (n <= i)%nat /\ l !! (i - n)%nat = Some a /\ agentId a = id.
Proof.
  revert n. induction l as [|b l IH]; intros n; simpl; [discriminate|].
  destruct (String.eqb (agentId b) id) eqn:E.
  - intros H. injection H as <- <-. rewrite Nat.sub_diag.
    apply String.eqb_eq in E. auto.
  - intros H. apply IH in H as (H1 & H2 & H3). split; [lia|]. split; [|exact H3].
    replace (i - n)%nat with (S (i - S n)) by lia. exact H2.
Qed.

Lemma find_Some (id : string) (l : list Agent) (i : nat) (a : Agent) :
  find id l = Some (i, a) -> l !! i = Some a /\ agentId a = id.
Proof.
  intros H. apply findFrom_Some in H as (_ & H2 & H3).
  rewrite Nat.sub_0_r in H2. auto.
Qed.

Lemma findFrom_None (n : nat) (id : string) (l : list Agent) :
  findFrom n id l = None <-> forall a, In a l -> agentId a <> id.
Proof.
  revert n. induction l as [|b l IH]; intros n; simpl.
  - split; [intros _ a []|reflexivity].
  - destruct (String.eqb (agentId b) id) eqn:E.
    + apply String.eqb_eq in E. split; [discriminate|].
      intros H. exfalso. apply (H b); auto.
    + apply String.eqb_neq in E. rewrite IH. split.
      * intros H a [<-|Ha]; auto.
      * intros H a Ha. apply H. auto.
Qed.

(** With distinct identifiers, [find] reaches every agent through its own
    identifier. *)
Lemma findFrom_unique (n : nat) (l : list Agent) (i : nat) (a : Agent) :
  NoDup (map agentId l) -> l !! i = Some a ->
  findFrom n (agentId a) l = Some ((n + i)%nat, a).
Proof.
  revert n i. induction l as [|b l IH]; intros n i Hnd Hi; [discriminate|].
  simpl. apply NoDup_cons in Hnd as [Hb Hnd]. destruct i as [|i]; simpl in Hi.
  - injection Hi as ->. rewrite String.eqb_refl. now rewrite Nat.add_0_r.
  - destruct (String.eqb (agentId b) (agentId a)) eqn:E.
    + apply String.eqb_eq in E. exfalso. apply Hb. rewrite E.
      apply list_elem_of_In, in_map, list_elem_of_In.
      apply list_elem_of_lookup. eauto.
    + rewrite (IH (S n) i Hnd Hi). f_equal. f_equal. lia.
Qed.

(** ** Facts about [findBestAgentForTask] *)

Lemma isRunning_true (a : Agent) : isRunning a = true <-> status a = RUNNING.
Proof. unfold isRunning. destruct (status a); simpl; split; congruence. Qed.

Lemma hasSpecialization_true (s : AgentSpecialization) (a : Agent) :
  hasSpecialization s a = true <-> specialization a = s.
Proof.
  unfold hasSpecialization. destruct (specialization a), s; simpl; split; congruence.
Qed.

Lemma sort_head_In {A : Type} (compareFn : A -> A -> comparison)
    (l : list A) (h : A) (t : list A) :
  sort compareFn l = h :: t -> In h l.
Proof. intros H. apply (sort_In compareFn). rewrite H. now left. Qed.

Lemma filter_nil_none {A : Type} (f : A -> bool) (l : list A) :
  List.filter f l = [] -> forall x, In x l -> f x = false.
Proof.
  intros H x Hx. destruct (f x) eqn:E; [|reflexivity].
  assert (Hin : In x (List.filter f l)) by (apply filter_In; auto).
  rewrite H in Hin. destruct Hin.
Qed.

Lemma findBestAgentForTask_inr (l : list Agent) (s : AgentSpecialization) (i : nat) :
  findBestAgentForTask l s = inr i ->
  exists a, l !! i = Some a /\ hasSpareCapacity a.
Proof.
  unfold findBestAgentForTask.
  set (P1 := fun x : nat * Agent => _ && _ && isRunning (snd x)).
  set (P2 := fun x : nat * Agent => _ && isRunning (snd x)).
  intros H.
  assert (Hgoal : forall x, In x (indexed l) -> P2 x = true ->
                  exists a, l !! (fst x) = Some a /\ hasSpareCapacity a).
  { intros [j a] Hin Hp. exists a. split; [now apply indexed_In|].
    unfold P2 in Hp. simpl in Hp. apply andb_prop in Hp as [H1 H2].
    split; [now apply isRunning_true|]. now apply Z.ltb_lt. }
  destruct (List.filter P1 (indexed l)) as [|x1 r1] eqn:E1.
  - destruct (List.filter P2 (indexed l)) as [|x2 r2] eqn:E2; [discriminate|].
    destruct (sort _ (x2 :: r2)) as [|h t] eqn:Es; [discriminate|].
    injection H as <-. apply sort_head_In in Es. rewrite <- E2 in Es.
    apply filter_In in Es as [Hin Hp]. now apply Hgoal.
  - destruct (sort _ (x1 :: r1)) as [|h t] eqn:Es; [discriminate|].
    injection H as <-. apply sort_head_In in Es. rewrite <- E1 in Es.
    apply filter_In in Es as [Hin Hp]. apply Hgoal; [exact Hin|].
    unfold P1 in Hp. unfold P2.
    apply andb_prop in Hp as [Hp H3]. apply andb_prop in Hp as [_ H2].
    now rewrite H2, H3.
Qed.

Lemma findBestAgentForTask_inl (l : list Agent) (s : AgentSpecialization) (e : Error) :
  findBestAgentForTask l s = inl e ->
  e = NoAvailableAgents s /\ forall a, In a l -> ~ hasSpareCapacity a.
Proof.
  unfold findBestAgentForTask.
  set (P1 := fun x : nat * Agent => _ && _ && isRunning (snd x)).
  set (P2 := fun x : nat * Agent => _ && isRunning (snd x)).
  intros H.
  destruct (List.filter P1 (indexed l)) as [|x1 r1] eqn:E1.
  - destruct (List.filter P2 (indexed l)) as [|x2 r2] eqn:E2.
    + injection H as <-. split; [reflexivity|].
      intros a Ha [Hr Hc]. apply list_elem_of_In, list_elem_of_lookup in Ha as [i Hi].
      apply indexed_In in Hi.
      pose proof (filter_nil_none _ _ E2 _ Hi) as Hf. unfold P2 in Hf. simpl in Hf.
      apply isRunning_true in Hr. apply Z.ltb_lt in Hc. rewrite Hr, Hc in Hf.
      discriminate.
    + destruct (sort _ (x2 :: r2)) as [|h t] eqn:Es; [|discriminate].
      apply sort_nil in Es. discriminate.
  - destruct (sort _ (x1 :: r1)) as [|h t] eqn:Es; [|discriminate].
    apply sort_nil in Es. discriminate.
Qed.

(** ** Facts about [assignTask] *)

Lemma assignTask_explicit (taskId id : string) (st : Orchestration) :
  id <> EmptyString ->
  assignTask taskId (Some id) st =
    match find id (agents st) with
    | None => (inl (AgentNotFound id), st)
    | Some (i, agent) =>
        if capacity agent <=? currentLoad agent then (inl (AgentAtCapacity id), st)
        else (inr i, withAgents (alter increment i (agents st)) st)
    end.
Proof.
  intros Hid. unfold assignTask, truthy.
  destruct id as [|c id]; [congruence|].
  unfold bind, get. destruct (find _ (agents st)) as [[i agent]|]; [|reflexivity].
  destruct (capacity agent <=? currentLoad agent); reflexivity.
Qed.

Lemma assignTask_auto (taskId : string) (agentId : option string) (st : Orchestration) :
  truthy agentId = None ->
  assignTask taskId agentId st =
    match tasks st taskId with
    | None => (inl (TaskNotFound taskId), st)
    | Some task =>
        match findBestAgentForTask (agents st)
                (determineTaskSpecialization (specializations st) task) with
        | inl e => (inl e, st)
        | inr i => (inr i, withAgents (alter increment i (agents st)) st)
        end
    end.
Proof.
  intros Ht. unfold assignTask. rewrite Ht. unfold bind, get.
  destruct (tasks st taskId) as [task|]; [|reflexivity].
  destruct (findBestAgentForTask _ _); reflexivity.
Qed.

Lemma truthy_cases (agentId : option string) :
  truthy agentId = None \/
  exists id, agentId = Some id /\ id <> EmptyString.
Proof.
  destruct agentId as [[|c id]|]; simpl; auto.
  right. exists (String c id). split; [reflexivity|discriminate].
Qed.

(** C3. Automatic assignment (no agent id given) of a task that the store
    knows: whatever agent it returns was RUNNING with [currentLoad]
    strictly below [capacity] before the increment, and only that agent's
    load changes; it does return an agent as soon as some RUNNING agent
    has spare capacity; with no such agent it fails with
    NoAvailableAgent and changes nothing. *)
Theorem assignTask_auto_returns_running_agent_with_spare_capacity
    (taskId : string) (agentId : option string) (task : WorkItem)
    (st : Orchestration) :
  truthy agentId = None ->
  tasks st taskId = Some task ->
  (forall i st', assignTask taskId agentId st = (inr i, st') ->
     exists a, agents st !! i = Some a /\
               status a = RUNNING /\ currentLoad a < capacity a /\
               st' = withAgents (alter increment i (agents st)) st /\
               agents st' !! i = Some (increment a))
  /\ ((exists a, In a (agents st) /\ hasSpareCapacity a) ->
      exists i, fst (assignTask taskId agentId st) = inr i)
  /\ ((forall a, In a (agents st) -> ~ hasSpareCapacity a) ->
      exists e, assignTask taskId agentId st = (inl e, st) /\
                kind e = NoAvailableAgent).
Proof.
  intros Ht Htask. rewrite (assignTask_auto _ _ _ Ht), Htask.
  destruct (findBestAgentForTask _ _) as [e|j] eqn:E.
  - apply findBestAgentForTask_inl in E as [-> Hnone].
    split; [intros i st' H; discriminate|]. split.
    + intros (a & Ha & Hs). exfalso. exact (Hnone a Ha Hs).
    + intros _. eexists. split; reflexivity.
  - apply findBestAgentForTask_inr in E as (a & Ha & Hr & Hc).
    split; [|split].
    + intros i st' H. injection H as <- <-. exists a.
      repeat split; auto. simpl. rewrite list_lookup_alter_eq, Ha. reflexivity.
    + intros _. exists j. reflexivity.
    + intros Hnone. exfalso. apply (Hnone a).
      * apply list_elem_of_In, list_elem_of_lookup. eauto.
      * split; assumption.
Qed.

Lemma assignTask_auto_returns_running_agent_with_spare_capacity_witness :
  exists i, fst (assignTask "t1" None
    (orchestrationOf [sampleAgent "a" RUNNING database 1 1;
                      sampleAgent "b" RUNNING general 2 1])) = inr i.
Proof.
  refine (proj1 (proj2
    (assignTask_auto_returns_running_agent_with_spare_capacity
       "t1" None sampleTask
       (orchestrationOf [sampleAgent "a" RUNNING database 1 1;
                         sampleAgent "b" RUNNING general 2 1])
       eq_refl eq_refl)) _).
  exists (sampleAgent "b" RUNNING general 2 1). split.
  - simpl. auto.
  - split; [reflexivity|]. simpl. lia.
Defined.

(** C4. Explicit assignment (a non-empty agent id is given) to an agent
    whose [currentLoad] has reached [capacity] fails with
    CapacityExceeded, and to an identifier that no agent carries with
    NotFound; either way the object is left exactly as it was. *)
Theorem assignTask_explicit_full_agent_or_unknown_id
    (taskId id : string) (st : Orchestration) :
  id <> EmptyString ->
  (forall a, NoDup (map agentId (agents st)) ->
     In a (agents st) -> agentId a = id -> capacity a <= currentLoad a ->
     assignTask taskId (Some id) st = (inl (AgentAtCapacity id), st) /\
     kind (AgentAtCapacity id) = CapacityExceeded)
  /\ ((forall a, In a (agents st) -> agentId a <> id) ->
      assignTask taskId (Some id) st = (inl (AgentNotFound id), st) /\
      kind (AgentNotFound id) = NotFound).
Proof.
  intros Hid. rewrite (assignTask_explicit _ _ _ Hid). split.
  - intros a Hnd Ha <- Hfull. split; [|reflexivity].
    apply list_elem_of_In, list_elem_of_lookup in Ha as [i Hi].
    unfold find. rewrite (findFrom_unique 0 _ i a Hnd Hi).
    apply Z.leb_le in Hfull. now rewrite Hfull.
  - intros Hnone. split; [|reflexivity].
    apply (findFrom_None 0) in Hnone. unfold find. now rewrite Hnone.
Qed.

Lemma assignTask_explicit_full_agent_or_unknown_id_witness :
  assignTask "t1" (Some "a")
    (orchestrationOf [sampleAgent "a" RUNNING database 3 3;
                      sampleAgent "b" RUNNING general 2 1])
  = (inl (AgentAtCapacity "a"),
     orchestrationOf [sampleAgent "a" RUNNING database 3 3;
                      sampleAgent "b" RUNNING general 2 1]).
Proof.
  refine (proj1 (proj1
    (assignTask_explicit_full_agent_or_unknown_id "t1" "a" _ _)
    (sampleAgent "a" RUNNING database 3 3) _ _ _ _)).
  - discriminate.
  - simpl. apply NoDup_cons_2; [|apply NoDup_cons_2; [|apply NoDup_nil_2]].
    + intros H. apply list_elem_of_In in H. simpl in H. intuition discriminate.
    + intros H. apply list_elem_of_In in H. destruct H.
  - simpl. auto.
  - reflexivity.
  - simpl. lia.
Defined.

(** C10. A failing [assignTask] changes nothing, in either mode: the
    state it leaves is the state it started from, and the failure is one
    of: agent not found or agent at capacity (explicit mode), task not
    found or no available agent (automatic mode). *)
Theorem assignTask_failure_is_atomic
    (taskId : string) (agentId : option string) (st st' : Orchestration)
    (e : Error) :
  assignTask taskId agentId st = (inl e, st') ->
  st' = st /\
  ((exists id, agentId = Some id /\
               (e = AgentNotFound id \/ e = AgentAtCapacity id)) \/
   (truthy agentId = None /\
    (e = TaskNotFound taskId \/ exists s, e = NoAvailableAgents s))).
Proof.
  destruct (truthy_cases agentId) as [Ht|(id & -> & Hid)].
  - rewrite (assignTask_auto _ _ _ Ht).
    destruct (tasks st taskId) as [task|].
    + destruct (findBestAgentForTask _ _) as [e'|i] eqn:E; [|discriminate].
      intros H. injection H as <- <-.
      apply findBestAgentForTask_inl in E as [-> _]. split; [reflexivity|].
      right. split; [exact Ht|]. right. eexists. reflexivity.
    + intros H. injection H as <- <-. split; [reflexivity|]. right. auto.
  - rewrite (assignTask_explicit _ _ _ Hid).
    destruct (find id (agents st)) as [[i agent]|].
    + destruct (capacity agent <=? currentLoad agent); [|discriminate].
      intros H. injection H as <- <-. split; [reflexivity|]. left. eauto.
    + intros H. injection H as <- <-. split; [reflexivity|]. left. eauto.
Qed.

Lemma assignTask_failure_is_atomic_witness :
  let st := orchestrationOf [sampleAgent "a" STARTING database 3 0] in
  assignTask "t1" None st = (inl (NoAvailableAgents database), st) /\
  st = st /\
  ((exists id, None = Some id /\
               (NoAvailableAgents database = AgentNotFound id \/
                NoAvailableAgents database = AgentAtCapacity id)) \/
   (truthy None = None /\
    (NoAvailableAgents database = TaskNotFound "t1" \/
     exists s, NoAvailableAgents database = NoAvailableAgents s))).
Proof.
  split; [reflexivity|].
  apply (assignTask_failure_is_atomic "t1" None
    (orchestrationOf [sampleAgent "a" STARTING database 3 0])).
  reflexivity.
Defined.

(** ** The order of [findBestAgentForTask] *)

Lemma compareRank_refl (a : Z * Z) : Number.compareRank a a <> Gt.
Proof. apply compareRank_not_Gt. lia. Qed.

Lemma compareRank_trans (a b c : Z * Z) :
  Number.compareRank a b <> Gt -> Number.compareRank b c <> Gt ->
  Number.compareRank a c <> Gt.
Proof. rewrite !compareRank_not_Gt. lia. Qed.

Lemma compareRank_total (a b : Z * Z) :
  Number.compareRank a b = Gt -> Number.compareRank b a <> Gt.
Proof. rewrite compareRank_not_Gt, compareRank_Gt. lia. Qed.

Lemma compareRank_not_Lt (a b : Z * Z) :
  Number.compareRank b a <> Lt <-> Number.compareRank a b <> Gt.
Proof. rewrite compareRank_not_Gt, compareRank_Lt. lia. Qed.

(** The ratio of an agent whose load and capacity are safe integers, not
    both zero, has a value. *)
Lemma loadPercentage_ordered (a : Agent) :
  safeAgent a -> hasRatio a -> Number.ordered (loadPercentage a).
Proof. intros [H1 H2] H. now apply div_ordered. Qed.

(** On such agents the comparators order the values. *)
Lemma byLoadPercentage_value (a b : Agent) :
  safeAgent a -> hasRatio a -> safeAgent b -> hasRatio b ->
  byLoadPercentage a b = byValue a b.
Proof.
  intros Ha Ha' Hb Hb'. apply sign_sub; now apply loadPercentage_ordered.
Qed.

Lemma bySpecializationThenLoad_value (s : AgentSpecialization) (a b : Agent) :
  safeAgent a -> hasRatio a -> safeAgent b -> hasRatio b ->
  bySpecializationThenLoad s a b = bySpecializationThenValue s a b.
Proof.
  intros Ha Ha' Hb Hb'. unfold bySpecializationThenLoad, bySpecializationThenValue.
  now rewrite byLoadPercentage_value.
Qed.

(** Not below: the difference of the ratios is not negative. *)
Lemma not_below_value (a b : Agent) :
  safeAgent a -> hasRatio a -> safeAgent b -> hasRatio b ->
  ~ Number.below (loadPercentage b) (loadPercentage a) <-> byValue a b <> Gt.
Proof.
  intros Ha Ha' Hb Hb'. unfold Number.below.
  rewrite sign_sub by now apply loadPercentage_ordered.
  apply compareRank_not_Lt.
Qed.

Lemma byValue_refl (a : Agent) : byValue a a <> Gt.
Proof. apply compareRank_refl. Qed.

Lemma byValue_trans (a b c : Agent) :
  byValue a b <> Gt -> byValue b c <> Gt -> byValue a c <> Gt.
Proof. apply compareRank_trans. Qed.

Lemma byValue_total (a b : Agent) : byValue a b = Gt -> byValue b a <> Gt.
Proof. apply compareRank_total. Qed.

Lemma bySpecializationThenValue_not_Gt (s : AgentSpecialization) (a b : Agent) :
  bySpecializationThenValue s a b <> Gt <->
  (hasSpecialization s a = true /\ hasSpecialization s b = false) \/
  (hasSpecialization s a = hasSpecialization s b /\ byValue a b <> Gt).
Proof.
  unfold bySpecializationThenValue.
  destruct (hasSpecialization s a), (hasSpecialization s b); simpl;
    intuition congruence.
Qed.

Lemma bySpecializationThenValue_refl (s : AgentSpecialization) (a : Agent) :
  bySpecializationThenValue s a a <> Gt.
Proof.
  apply bySpecializationThenValue_not_Gt. right.
  split; [reflexivity|apply byValue_refl].
Qed.

Lemma bySpecializationThenValue_trans (s : AgentSpecialization) (a b c : Agent) :
  bySpecializationThenValue s a b <> Gt ->
  bySpecializationThenValue s b c <> Gt ->
  bySpecializationThenValue s a c <> Gt.
Proof.
  rewrite !bySpecializationThenValue_not_Gt.
  intros [[H1 H2]|[H1 H2]] [[H3 H4]|[H3 H4]]; try congruence.
  - left. split; congruence.
  - left. split; congruence.
  - right. split; [congruence|]. now apply byValue_trans with b.
Qed.

Lemma bySpecializationThenValue_total (s : AgentSpecialization) (a b : Agent) :
  bySpecializationThenValue s a b = Gt -> bySpecializationThenValue s b a <> Gt.
Proof.
  intros H. apply bySpecializationThenValue_not_Gt.
  unfold bySpecializationThenValue in H.
  destruct (hasSpecialization s a), (hasSpecialization s b); simpl in H;
    try discriminate; auto;
    right; (split; [reflexivity|]); now apply byValue_total.
Qed.

Lemma eligible_filter (s : AgentSpecialization) (a : Agent) :
  (hasSpecialization s a || hasSpecialization general a)
  && (currentLoad a <? capacity a) && isRunning a = true <-> eligible s a.
Proof.
  unfold eligible.
  rewrite !andb_true_iff, orb_true_iff, !hasSpecialization_true,
    isRunning_true, Z.ltb_lt. tauto.
Qed.

Lemma spare_hasRatio (a : Agent) : currentLoad a < capacity a -> hasRatio a.
Proof. unfold hasRatio. lia. Qed.

Lemma safeAgent_lookup (l : list Agent) (i : nat) (a : Agent) :
  Forall safeAgent l -> l !! i = Some a -> safeAgent a.
Proof. intros H Ha. exact (Forall_lookup_1 _ _ _ _ H Ha). Qed.

(** The pick of the first branch of [findBestAgentForTask]. *)
Lemma findBestAgentForTask_specialized (l : list Agent) (s : AgentSpecialization) :
  Forall safeAgent l ->
  (exists b, In b l /\ eligible s b) ->
  exists i a,
    findBestAgentForTask l s = inr i /\ l !! i = Some a /\ eligible s a /\
    forall b, In b l -> eligible s b ->
      bySpecializationThenValue s a b <> Gt.
Proof.
  intros Hsafe (b0 & Hb0 & He0). unfold findBestAgentForTask.
  set (P1 := fun x : nat * Agent => _ && _ && isRunning (snd x)).
  assert (HP1 : forall j b, P1 (j, b) = true <-> eligible s b).
  { intros j b. unfold P1. simpl. apply eligible_filter. }
  apply list_elem_of_In, list_elem_of_lookup in Hb0 as [j0 Hj0].
  assert (Hin0 : In (j0, b0) (List.filter P1 (indexed l))).
  { apply filter_In. split; [now apply indexed_In|now apply HP1]. }
  assert (Hext : sort (onAgent (bySpecializationThenLoad s)) (List.filter P1 (indexed l))
                 = sort (onAgent (bySpecializationThenValue s))
                     (List.filter P1 (indexed l))).
  { apply sort_ext. intros [j x] [k y] Hx Hy.
    apply filter_In in Hx as [Hx1 Hx2]. apply filter_In in Hy as [Hy1 Hy2].
    apply indexed_In in Hx1, Hy1. apply HP1 in Hx2 as (_ & Hx2 & _).
    apply HP1 in Hy2 as (_ & Hy2 & _).
    unfold onAgent. simpl. apply bySpecializationThenLoad_value;
      eauto using safeAgent_lookup, spare_hasRatio. }
  destruct (List.filter P1 (indexed l)) as [|x1 r1] eqn:E1; [destruct Hin0|].
  rewrite Hext. clear Hext.
  destruct (sort (onAgent (bySpecializationThenValue s)) (x1 :: r1))
    as [|[i a] t] eqn:Es.
  { apply sort_nil in Es. discriminate. }
  pose proof (sort_head_In _ _ _ _ Es) as Hh. rewrite <- E1 in Hh.
  apply filter_In in Hh as [Hh1 Hh2].
  exists i, a. split; [reflexivity|]. split; [now apply indexed_In|].
  split; [now apply (HP1 i)|].
  intros b Hb Heb. apply list_elem_of_In, list_elem_of_lookup in Hb as [j Hj].
  assert (Hin : In (j, b) (x1 :: r1)).
  { rewrite <- E1. apply filter_In. split; [now apply indexed_In|now apply HP1]. }
  refine (sort_head_least (onAgent (bySpecializationThenValue s)) _ _ _ _ _ _ Es (j, b) Hin).
  - intros x. apply bySpecializationThenValue_refl.
  - intros x y z. apply bySpecializationThenValue_trans.
  - intros x y. apply bySpecializationThenValue_total.
Qed.

(** C6. Automatic assignment among the eligible agents (specialization
    equal to the derived tag or general, spare capacity, RUNNING), on a
    registry whose loads and capacities are integers that doubles hold
    exactly: the agent it picks is eligible; it is an
    exact-specialization agent whenever one is eligible, whatever the load
    ratios of the general agents; and no eligible agent of the same match
    class has a ratio below that of the pick, the ratios being the doubles
    [currentLoad / capacity] and "below" the test that their difference is
    negative. *)
Theorem assignTask_auto_prefers_exact_match_then_lowest_ratio
    (taskId : string) (agentId : option string) (task : WorkItem)
    (st : Orchestration) :
  let s := determineTaskSpecialization (specializations st) task in
  truthy agentId = None ->
  tasks st taskId = Some task ->
  Forall safeAgent (agents st) ->
  (exists b, In b (agents st) /\ eligible s b) ->
  exists i a,
    assignTask taskId agentId st
      = (inr i, withAgents (alter increment i (agents st)) st) /\
    agents st !! i = Some a /\ eligible s a /\
    ((exists b, In b (agents st) /\ eligible s b /\ specialization b = s) ->
     specialization a = s) /\
    (forall b, In b (agents st) -> eligible s b ->
       (specialization b = s <-> specialization a = s) ->
       ~ Number.below (loadPercentage b) (loadPercentage a)).
Proof.
  intros s Ht Htask Hsafe Hex.
  destruct (findBestAgentForTask_specialized _ s Hsafe Hex)
    as (i & a & Hf & Ha & He & Hleast).
  exists i, a. rewrite (assignTask_auto _ _ _ Ht), Htask. fold s. rewrite Hf.
  split; [reflexivity|]. split; [exact Ha|]. split; [exact He|]. split.
  - intros (b & Hb & Heb & Hsb). specialize (Hleast b Hb Heb).
    apply bySpecializationThenValue_not_Gt in Hleast.
    apply hasSpecialization_true in Hsb.
    destruct Hleast as [[H1 H2]|[H1 H2]].
    + now apply hasSpecialization_true.
    + apply hasSpecialization_true. congruence.
  - intros b Hb Heb Hclass. specialize (Hleast b Hb Heb).
    apply bySpecializationThenValue_not_Gt in Hleast.
    assert (Hsb : safeAgent b).
    { rewrite Forall_forall in Hsafe. apply Hsafe. now apply list_elem_of_In. }
    apply not_below_value;
      [eauto using safeAgent_lookup|apply spare_hasRatio, He|exact Hsb
      |apply spare_hasRatio, Heb|].
    destruct Hleast as [[H1 H2]|[H1 H2]]; [|exact H2].
    apply hasSpecialization_true in H1. apply Hclass in H1.
    apply hasSpecialization_true in H1. congruence.
Qed.

(** The task [sampleTask] is a database task; the database agent is three
    quarters full, the general agent is empty, and the database agent
    gets the task. *)
Lemma assignTask_auto_prefers_exact_match_then_lowest_ratio_witness :
  exists i a,
    assignTask "t1" None
      (orchestrationOf [sampleAgent "g" RUNNING general 4 0;
                        sampleAgent "d" RUNNING database 4 3])
    = (inr i, orchestrationOf
                (alter increment i [sampleAgent "g" RUNNING general 4 0;
                                    sampleAgent "d" RUNNING database 4 3])) /\
    [sampleAgent "g" RUNNING general 4 0;
     sampleAgent "d" RUNNING database 4 3] !! i = Some a /\
    specialization a = database.
Proof.
  destruct (assignTask_auto_prefers_exact_match_then_lowest_ratio
              "t1" None sampleTask
              (orchestrationOf [sampleAgent "g" RUNNING general 4 0;
                                sampleAgent "d" RUNNING database 4 3])
              eq_refl eq_refl) as (i & a & H1 & H2 & H3 & H4 & H5).
  - repeat constructor.
  - exists (sampleAgent "d" RUNNING database 4 3). split; [simpl; auto|].
    split; [left; reflexivity|]. split; [simpl; lia|reflexivity].
  - exists i, a. split; [exact H1|]. split; [exact H2|].
    apply H4. exists (sampleAgent "d" RUNNING database 4 3).
    split; [simpl; auto|]. split; [|reflexivity].
    split; [left; reflexivity|]. split; [simpl; lia|reflexivity].
Defined.

(** Two agents whose ratios differ by less than doubles tell apart: the
    first one gets the task although the ratio of the second is the lower
    one. *)
Lemma assignTask_auto_picks_higher_exact_ratio :
  let a := sampleAgent "a" RUNNING database 268435458 268435457 in
  let b := sampleAgent "b" RUNNING database 268435457 268435456 in
  fst (assignTask "t1" None (orchestrationOf [a; b])) = inr 0%nat /\
  determineTaskSpecialization AgentSpecializationManager.defaultSpecializations
    sampleTask = database /\
  eligible database a /\ eligible database b /\
  (exactRatio b < exactRatio a)%Q /\
  loadPercentage a = loadPercentage b.
Proof.
  split; [vm_compute; reflexivity|]. split; [vm_compute; reflexivity|].
  split; [repeat split; try (left; reflexivity); reflexivity|].
  split; [repeat split; try (left; reflexivity); reflexivity|].
  split; [reflexivity|vm_compute; reflexivity].
Qed.

(** ** Facts about the loops of [balanceLoad] *)

Lemma totalLoad_alter (f : Agent -> Agent) (l : list Agent) (i : nat) (a : Agent) :
  l !! i = Some a ->
  totalLoad (alter f i l) = totalLoad l - currentLoad a + currentLoad (f a).
Proof.
  revert i. induction l as [|b l IH]; intros i Hi; [discriminate|].
  destruct i as [|i].
  - injection Hi as ->. simpl. lia.
  - change (alter f (S i) (b :: l)) with (b :: alter f i l).
    simpl in Hi. simpl. rewrite (IH i Hi). lia.
Qed.

Lemma loadAt_alter (f : Agent -> Agent) (l : list Agent) (i j : nat) :
  loadAt (alter f i l) j =
  if decide (i = j) then from_option (fun a => currentLoad (f a)) 0 (l !! j)
  else loadAt l j.
Proof.
  unfold loadAt. rewrite list_lookup_alter.
  destruct (decide (i = j)) as [->|]; [|reflexivity].
  destruct (l !! j); reflexivity.
Qed.

Lemma capacityAt_alter (f : Agent -> Agent) (l : list Agent) (i j : nat) :
  (forall a, capacity (f a) = capacity a) ->
  capacityAt (alter f i l) j = capacityAt l j.
Proof.
  intros Hf. unfold capacityAt. rewrite list_lookup_alter.
  destruct (decide (i = j)) as [->|]; [|reflexivity].
  destruct (l !! j); simpl; auto.
Qed.

Lemma loadAt_increment (l : list Agent) (i j : nat) :
  loadAt l j <= loadAt (alter increment i l) j.
Proof.
  rewrite loadAt_alter. destruct (decide (i = j)); [|lia].
  unfold loadAt. destruct (l !! j); simpl; lia.
Qed.

Lemma loadAt_decrement (l : list Agent) (i j : nat) :
  loadAt l j - (if decide (i = j) then 1 else 0) <= loadAt (alter decrement i l) j.
Proof.
  rewrite loadAt_alter. destruct (decide (i = j)); [|lia].
  unfold loadAt. destruct (l !! j); simpl; lia.
Qed.

Lemma reduceFrom_In (l : list Agent) (prev : nat) (rest : list nat) :
  In (reduceFrom l prev rest) (prev :: rest).
Proof.
  revert prev. induction rest as [|curr rest IH]; intros prev; simpl; [auto|].
  destruct (IH (if Number.leb (percentageAt l prev) (percentageAt l curr)
                then prev else curr)) as [H|H]; [|auto].
  rewrite <- H. destruct (Number.leb _ _); auto.
Qed.

Lemma mostUnderloaded_In (l : list Agent) (refs : list nat) (m : nat) :
  mostUnderloaded l refs = Some m -> In m refs.
Proof.
  destruct refs as [|first rest]; simpl; [discriminate|].
  intros H. injection H as <-. apply reduceFrom_In.
Qed.

Lemma spliceOut_In (x y : nat) (refs : list nat) :
  In y (spliceOut x refs) -> In y refs.
Proof.
  induction refs as [|z refs IH]; simpl; [tauto|].
  destruct (Nat.eqb x z); simpl; intuition.
Qed.

(** What every run of the inner loop keeps: the shape of the registry and
    the capacities; references stay among the receivers; no agent but the
    overloaded one loses load, and that one loses at most one unit per
    iteration. *)
Lemma moveTasks_frame (n over : nat) (l : list Agent) (under : list nat)
    (r : Error + unit) (l' : list Agent) (under' : list nat) :
  moveTasks n over l under = (r, (l', under')) ->
  length l' = length l /\
  (forall i, capacityAt l' i = capacityAt l i) /\
  (forall x, In x under' -> In x under) /\
  (forall i, loadAt l i - (if decide (over = i) then Z.of_nat n else 0)
             <= loadAt l' i).
Proof.
  revert l under. induction n as [|n IH]; intros l under H; simpl in H.
  - injection H as <- <- <-. repeat split; auto.
    intros i. destruct (decide (over = i)); lia.
  - destruct (mostUnderloaded l under) as [m|] eqn:Em.
    + set (l1 := alter decrement over l) in *.
      set (l2 := alter increment m l1) in *.
      assert (Hlen : length l2 = length l).
      { unfold l2, l1. now rewrite !length_alter. }
      assert (Hcap : forall i, capacityAt l2 i = capacityAt l i).
      { intros i. unfold l2, l1. rewrite !capacityAt_alter; auto. }
      assert (Hload : forall i, loadAt l i - (if decide (over = i) then 1 else 0)
                                <= loadAt l2 i).
      { intros i. pose proof (loadAt_decrement l over i).
        pose proof (loadAt_increment l1 m i). fold l1 in H0. fold l2 in H1. lia. }
      assert (Hrec : forall under1, (forall x, In x under1 -> In x under) ->
                moveTasks n over l2 under1 = (r, (l', under')) ->
                length l' = length l /\
                (forall i, capacityAt l' i = capacityAt l i) /\
                (forall x, In x under' -> In x under) /\
                (forall i, loadAt l i -
                   (if decide (over = i) then Z.of_nat (S n) else 0) <= loadAt l' i)).
      { intros under1 Hsub Hm. apply IH in Hm as (H1 & H2 & H3 & H4).
        split; [congruence|]. split; [intros i; rewrite H2; apply Hcap|].
        split; [auto|]. intros i. specialize (H4 i). specialize (Hload i).
        destruct (decide (over = i)); lia. }
      destruct (capacityAt l2 m <=? loadAt l2 m).
      * destruct (spliceOut m under) as [|u us] eqn:Es.
        -- injection H as <- <- <-. split; [exact Hlen|]. split; [exact Hcap|].
           split; [intros x []|]. intros i. specialize (Hload i).
           destruct (decide (over = i)); lia.
        -- apply (Hrec (u :: us)); [|exact H].
           intros x Hx. apply (spliceOut_In m). now rewrite Es.
      * apply (Hrec under); auto.
    + injection H as <- <- <-. repeat split; auto.
      intros i. destruct (decide (over = i)); lia.
Qed.

(** With all references inside the registry, the inner loop moves load
    without creating or losing any. *)
Lemma moveTasks_totalLoad (n over : nat) (l : list Agent) (under : list nat)
    (r : Error + unit) (l' : list Agent) (under' : list nat) :
  moveTasks n over l under = (r, (l', under')) ->
  (over < length l)%nat ->
  (forall x, In x under -> (x < length l)%nat) ->
  totalLoad l' = totalLoad l.
Proof.
  revert l under. induction n as [|n IH]; intros l under H Hover Hunder; simpl in H.
  - now injection H as <- <- <-.
  - destruct (mostUnderloaded l under) as [m|] eqn:Em.
    + set (l1 := alter decrement over l) in *.
      set (l2 := alter increment m l1) in *.
      assert (Hl1 : length l1 = length l) by (unfold l1; now rewrite length_alter).
      assert (Hl2 : length l2 = length l) by (unfold l2; now rewrite length_alter).
      assert (Hm : (m < length l)%nat) by (apply Hunder; eapply mostUnderloaded_In; eauto).
      assert (Hsum : totalLoad l2 = totalLoad l).
      { destruct (lookup_lt_is_Some_2 l over Hover) as [a Ha].
        assert (Hm1 : (m < length l1)%nat) by lia.
        destruct (lookup_lt_is_Some_2 l1 m Hm1) as [b Hb].
        unfold l2. rewrite (totalLoad_alter _ _ _ _ Hb).
        unfold l1. rewrite (totalLoad_alter _ _ _ _ Ha). simpl. lia. }
      assert (Hrec : forall under1, (forall x, In x under1 -> In x under) ->
                moveTasks n over l2 under1 = (r, (l', under')) ->
                totalLoad l' = totalLoad l).
      { intros under1 Hsub Hmv. rewrite <- Hsum.
        apply (IH l2 under1 Hmv); [lia|]. intros x Hx. rewrite Hl2. auto. }
      destruct (capacityAt l2 m <=? loadAt l2 m).
      * destruct (spliceOut m under) as [|u us] eqn:Es.
        -- injection H as <- <- <-. exact Hsum.
        -- apply (Hrec (u :: us)); [|exact H].
           intros x Hx. apply (spliceOut_In m). now rewrite Es.
      * apply (Hrec under); auto.
    + now injection H as <- <- <-.
Qed.

Lemma forEachOverloaded_frame (overs : list nat) (l : list Agent)
    (under : list nat) (r : Error + unit) (l' : list Agent) (under' : list nat) :
  forEachOverloaded overs l under = (r, (l', under')) ->
  length l' = length l /\
  (forall i, capacityAt l' i = capacityAt l i) /\
  (forall x, In x under' -> In x under) /\
  (forall i, Z.min (loadAt l i) (capacityAt l i) <= loadAt l' i).
Proof.
  revert l under. induction overs as [|o overs IH]; intros l under H; simpl in H.
  - injection H as <- <- <-. repeat split; auto. intros i. lia.
  - destruct (moveTasks _ o l under) as [r1 [l1 under1]] eqn:Em.
    apply moveTasks_frame in Em as (H1 & H2 & H3 & H4).
    assert (Hfloor : forall i, Z.min (loadAt l i) (capacityAt l i) <= loadAt l1 i).
    { intros i. specialize (H4 i). destruct (decide (o = i)) as [->|]; lia. }
    destruct r1 as [e|[]].
    + injection H as <- <- <-. auto.
    + apply IH in H as (H5 & H6 & H7 & H8).
      split; [congruence|]. split; [intros i; rewrite H6; apply H2|].
      split; [auto|]. intros i. specialize (H8 i). specialize (Hfloor i).
      rewrite H2 in H8. lia.
Qed.

Lemma forEachOverloaded_totalLoad (overs : list nat) (l : list Agent)
    (under : list nat) (r : Error + unit) (l' : list Agent) (under' : list nat) :
  forEachOverloaded overs l under = (r, (l', under')) ->
  (forall x, In x overs -> (x < length l)%nat) ->
  (forall x, In x under -> (x < length l)%nat) ->
  totalLoad l' = totalLoad l.
Proof.
  revert l under. induction overs as [|o overs IH]; intros l under H Ho Hu; simpl in H.
  - now injection H as <- <- <-.
  - destruct (moveTasks _ o l under) as [r1 [l1 under1]] eqn:Em.
    pose proof (moveTasks_totalLoad _ _ _ _ _ _ _ Em (Ho o (or_introl eq_refl)) Hu) as Hs.
    apply moveTasks_frame in Em as (H1 & H2 & H3 & H4).
    destruct r1 as [e|[]].
    + now injection H as <- <- <-.
    + rewrite <- Hs. apply (IH l1 under1 H).
      * intros x Hx. rewrite H1. apply Ho. now right.
      * intros x Hx. rewrite H1. auto.
Qed.

(** With no receiver left the loops move nothing. *)
Lemma forEachOverloaded_no_receiver (overs : list nat) (l : list Agent) :
  snd (forEachOverloaded overs l []) = (l, []).
Proof.
  induction overs as [|o overs IH]; simpl; [reflexivity|].
  destruct (Z.to_nat _); simpl; [exact IH|reflexivity].
Qed.

(** With no receiver left, an overloaded agent that is still to be
    processed makes [reduce] raise. *)
Lemma forEachOverloaded_throws_without_receiver (o : nat) (overs : list nat)
    (l : list Agent) :
  capacityAt l o < loadAt l o ->
  forEachOverloaded (o :: overs) l [] = (inl ReduceOfEmptyArray, (l, [])).
Proof.
  intros H. simpl.
  destruct (Z.to_nat (loadAt l o - capacityAt l o)) eqn:E; [lia|reflexivity].
Qed.

Lemma sorted_refs_in_range (f : nat * Agent -> bool)
    (compareFn : nat * Agent -> nat * Agent -> comparison) (l : list Agent) (x : nat) :
  In x (map fst (List.filter f (sort compareFn (indexed l)))) ->
  exists a, l !! x = Some a /\ f (x, a) = true.
Proof.
  intros H. apply in_map_iff in H as ([i a] & <- & H).
  apply filter_In in H as [H1 H2]. apply sort_In, indexed_In in H1. eauto.
Qed.

Lemma filter_all_false {A : Type} (f : A -> bool) (l : list A) :
  (forall x, In x l -> f x = false) -> List.filter f l = [].
Proof.
  intros H. destruct (List.filter f l) as [|x r] eqn:E; [reflexivity|].
  assert (Hin : In x (List.filter f l)) by (rewrite E; now left).
  apply filter_In in Hin as [H1 H2]. rewrite (H x H1) in H2. discriminate.
Qed.

(** [balanceLoad] either leaves the registry alone or leaves what the two
    loops made of it, started on references into the registry. *)
Lemma balanceLoad_cases (st : Orchestration) :
  agents (snd (balanceLoad st)) = agents st \/
  exists overs under r l' under',
    forEachOverloaded overs (agents st) under = (r, (l', under')) /\
    agents (snd (balanceLoad st)) = l' /\
    (forall x, In x overs -> (x < length (agents st))%nat) /\
    (forall x, In x under -> (x < length (agents st))%nat).
Proof.
  unfold balanceLoad, bind, get.
  set (sorted := sort (onAgent byLoadPercentage) (indexed (agents st))).
  destruct (List.filter (fun x => isOverloaded (snd x)) sorted) as [|o os] eqn:Eo;
    [left; reflexivity|].
  destruct (List.filter (fun x => isUnderloaded (snd x)) sorted) as [|u us] eqn:Eu;
    [left; reflexivity|].
  right.
  destruct (forEachOverloaded _ (agents st) _) as [r [l' under']] eqn:Ef.
  exists (map fst (o :: os)), (map fst (u :: us)), r, l', under'.
  split; [exact Ef|]. split.
  - destruct r as [e|[]]; reflexivity.
  - split; intros x Hx.
    + rewrite <- Eo in Hx. apply sorted_refs_in_range in Hx as (a & Ha & _).
      now apply lookup_lt_Some in Ha.
    + rewrite <- Eu in Hx. apply sorted_refs_in_range in Hx as (a & Ha & _).
      now apply lookup_lt_Some in Ha.
Qed.

(** ** Well-formed registries *)

Lemma forEachOverloaded_wellFormed (overs : list nat) (l : list Agent)
    (under : list nat) (r : Error + unit) (l' : list Agent) (under' : list nat) :
  forEachOverloaded overs l under = (r, (l', under')) ->
  wellFormed l -> wellFormed l'.
Proof.
  intros H Hwf. apply forEachOverloaded_frame in H as (H1 & H2 & _ & H4).
  apply Forall_lookup_2. intros i a' Ha'.
  assert (Hi : (i < length l)%nat).
  { rewrite <- H1. now apply lookup_lt_Some in Ha'. }
  destruct (lookup_lt_is_Some_2 l i Hi) as [a Ha].
  destruct (Forall_lookup_1 _ _ _ _ Hwf Ha) as [Hload Hcap].
  specialize (H2 i). specialize (H4 i).
  unfold capacityAt, loadAt in *. rewrite Ha, Ha' in *. simpl in *.
  split; lia.
Qed.

Lemma balanceLoad_wellFormed (st : Orchestration) :
  wellFormed (agents st) -> wellFormed (agents (snd (balanceLoad st))).
Proof.
  intros Hwf.
  destruct (balanceLoad_cases st) as [->|(overs & under & r & l' & u' & Hf & -> & _)];
    [exact Hwf|].
  eapply forEachOverloaded_wellFormed; eauto.
Qed.

Lemma assignTask_wellFormed (taskId : string) (agentId : option string)
    (st : Orchestration) :
  wellFormed (agents st) -> wellFormed (agents (snd (assignTask taskId agentId st))).
Proof.
  intros Hwf.
  assert (Hinc : forall i, wellFormed (alter increment i (agents st))).
  { intros i. apply Forall_alter; [exact Hwf|].
    intros a _ [H1 H2]. split; simpl; lia. }
  destruct (truthy_cases agentId) as [Ht|(id & -> & Hid)].
  - rewrite (assignTask_auto _ _ _ Ht).
    destruct (tasks st taskId); [|exact Hwf].
    destruct (findBestAgentForTask _ _); [exact Hwf|apply Hinc].
  - rewrite (assignTask_explicit _ _ _ Hid).
    destruct (find id (agents st)) as [[i agent]|]; [|exact Hwf].
    destruct (capacity agent <=? currentLoad agent); [exact Hwf|apply Hinc].
Qed.

Lemma completeTask_wellFormed (agentId taskId : string) (st : Orchestration) :
  wellFormed (agents st) -> wellFormed (agents (snd (completeTask agentId taskId st))).
Proof.
  intros Hwf. unfold completeTask, bind, get.
  destruct (find agentId (agents st)) as [[i agent]|] eqn:Ef; [|exact Hwf].
  apply find_Some in Ef as [Hi _].
  destruct (0 <? currentLoad agent) eqn:E; simpl; [|exact Hwf].
  apply Z.ltb_lt in E. apply Forall_alter; [exact Hwf|].
  intros a Ha [H1 H2]. assert (a = agent) by congruence. subst a.
  split; simpl; lia.
Qed.

Lemma perform_wellFormed (op : Operation) (st : Orchestration) :
  registersCapacity op -> wellFormed (agents st) ->
  wellFormed (agents (perform op st)).
Proof.
  intros Hop Hwf. destruct op as [id name s cap|taskId agentId|agentId taskId| |id s];
    simpl.
  - apply Forall_app. split; [exact Hwf|].
    constructor; [|constructor]. split; simpl; [lia|exact Hop].
  - now apply assignTask_wellFormed.
  - now apply completeTask_wellFormed.
  - now apply balanceLoad_wellFormed.
  - unfold updateAgentStatus, bind, get.
    destruct (find id (agents st)) as [[i agent]|]; [|exact Hwf].
    simpl. apply Forall_alter; [exact Hwf|]. intros a _ H. exact H.
Qed.

Lemma performAll_wellFormed (ops : list Operation) (st : Orchestration) :
  Forall registersCapacity ops -> wellFormed (agents st) ->
  wellFormed (agents (performAll ops st)).
Proof.
  revert st. induction ops as [|op ops IH]; intros st Hops Hwf; [exact Hwf|].
  apply Forall_cons in Hops as [Hop Hops]. simpl.
  apply IH; [exact Hops|]. now apply perform_wellFormed.
Qed.

(** ** The load balancer *)

(** C2. Over any sequence of [registerAgent], [assignTask],
    [completeTask], [balanceLoad] and [updateAgentStatus] calls that
    starts from a registry in which no load and no capacity is negative
    and registers no agent with a negative capacity, every
    [currentLoad] stays at or above 0, whether the calls return or throw;
    [completeTask] on an agent whose load is 0 leaves the load, and
    everything else, as it is; and [balanceLoad] leaves every agent that
    was over its capacity at or above its capacity. *)
Theorem currentLoad_never_negative :
  (forall ops st,
     wellFormed (agents st) -> Forall registersCapacity ops ->
     Forall (fun a => 0 <= currentLoad a) (agents (performAll ops st)))
  /\ (forall st agentId taskId i a,
        find agentId (agents st) = Some (i, a) -> currentLoad a = 0 ->
        completeTask agentId taskId st = (inr i, st))
  /\ (forall st i a,
        agents st !! i = Some a -> capacity a < currentLoad a ->
        exists a', agents (snd (balanceLoad st)) !! i = Some a' /\
                   capacity a' = capacity a /\
                   capacity a <= currentLoad a').
Proof.
  split; [|split].
  - intros ops st Hwf Hops.
    pose proof (performAll_wellFormed ops st Hops Hwf) as H.
    eapply Forall_impl; [exact H|]. intros a [Ha _]. exact Ha.
  - intros st agentId taskId i a Hf Hz. unfold completeTask, bind, get.
    rewrite Hf, Hz. reflexivity.
  - intros st i a Ha Hover.
    destruct (balanceLoad_cases st) as [->|(overs & under & r & l' & u' & Hf & -> & _)].
    + exists a. split; [exact Ha|]. split; [reflexivity|lia].
    + apply forEachOverloaded_frame in Hf as (H1 & H2 & _ & H4).
      assert (Hi : (i < length l')%nat).
      { rewrite H1. now apply lookup_lt_Some in Ha. }
      destruct (lookup_lt_is_Some_2 l' i Hi) as [a' Ha'].
      exists a'. split; [exact Ha'|].
      specialize (H2 i). specialize (H4 i).
      unfold capacityAt, loadAt in *. rewrite Ha, Ha' in *. simpl in *.
      split; lia.
Qed.

Lemma currentLoad_never_negative_witness :
  Forall (fun a => 0 <= currentLoad a)
    (agents (performAll
       [RegisterAgent "c" "c" general 2; CompleteTask "c" "t1";
        UpdateAgentStatus "c" RUNNING; AssignTask "t1" None; BalanceLoad]
       (orchestrationOf [sampleAgent "a" RUNNING database 1 0;
                         sampleAgent "b" RUNNING general 1 3]))).
Proof.
  apply (proj1 currentLoad_never_negative).
  - repeat constructor; simpl; lia.
  - repeat constructor; simpl; lia.
Defined.

(** A capacity below zero breaks the invariant: an agent registered with
    capacity -1 counts as overloaded at load 0, and [balanceLoad] hands
    out load that the agent does not have. *)
Lemma currentLoad_negative_after_balanceLoad :
  let ops := [RegisterAgent "a" "a" general (-1);
              RegisterAgent "b" "b" general 2; BalanceLoad] in
  let st := orchestrationOf [] in
  Forall (fun a => 0 <= currentLoad a) (agents st) /\
  map currentLoad (agents (performAll (removelast ops) st)) = [0; 0] /\
  map currentLoad (agents (performAll ops st)) = [-1; 1].
Proof. split; [constructor|]. split; vm_compute; reflexivity. Qed.

(** C9. [balanceLoad] conserves the total load: the sum of [currentLoad]
    after the pass, whether it returned or threw, is the sum before it;
    and so is the sum after any number of iterations of the inner loop and
    after the outer loop over any overloaded agents, since every iteration
    pairs one decrement with one increment. *)
Theorem balanceLoad_conserves_total_load :
  (forall st, totalLoad (agents (snd (balanceLoad st))) = totalLoad (agents st))
  /\ (forall n over l under,
        (over < length l)%nat ->
        (forall x, In x under -> (x < length l)%nat) ->
        totalLoad (fst (snd (moveTasks n over l under))) = totalLoad l)
  /\ (forall overs l under,
        (forall x, In x overs -> (x < length l)%nat) ->
        (forall x, In x under -> (x < length l)%nat) ->
        totalLoad (fst (snd (forEachOverloaded overs l under))) = totalLoad l).
Proof.
  split; [|split].
  - intros st.
    destruct (balanceLoad_cases st)
      as [->|(overs & under & r & l' & u' & Hf & -> & Ho & Hu)]; [reflexivity|].
    eapply forEachOverloaded_totalLoad; eauto.
  - intros n over l under Ho Hu.
    destruct (moveTasks n over l under) as [r [l' u']] eqn:E. simpl.
    eapply moveTasks_totalLoad; eauto.
  - intros overs l under Ho Hu.
    destruct (forEachOverloaded overs l under) as [r [l' u']] eqn:E. simpl.
    eapply forEachOverloaded_totalLoad; eauto.
Qed.

Lemma balanceLoad_conserves_total_load_witness :
  totalLoad (fst (snd (moveTasks 1 0
     [sampleAgent "a" RUNNING general 2 4; sampleAgent "b" RUNNING general 3 0]
     [1%nat])))
  = 4.
Proof.
  refine (proj1 (proj2 balanceLoad_conserves_total_load) 1%nat 0%nat
     [sampleAgent "a" RUNNING general 2 4; sampleAgent "b" RUNNING general 3 0]
     [1%nat] _ _).
  - simpl. lia.
  - intros x [<-|[]]. simpl. lia.
Defined.

(** C5 as stated fails on a registry whose agents are all exactly at
    capacity: no agent is below its capacity, and [balanceLoad] returns
    through its first test without reporting anything. *)
Lemma balanceLoad_at_capacity_reports_nothing :
  let st := orchestrationOf [sampleAgent "a" RUNNING general 1 1] in
  (forall a, In a (agents st) -> ~ currentLoad a < capacity a) /\
  ~ In cannotBalance (console (snd (balanceLoad st))).
Proof.
  split.
  - intros a [<-|[]]. simpl. lia.
  - simpl. tauto.
Qed.

(** C5, amended. [balanceLoad] changes no [currentLoad] in either terminal
    case.  With no agent over its capacity it returns at once, the object
    untouched and nothing reported.  With some agent over its capacity
    and none under it, it leaves every agent as it is and reports that it
    cannot balance. *)
Theorem balanceLoad_terminal_cases (st : Orchestration) :
  ((forall a, In a (agents st) -> currentLoad a <= capacity a) ->
   balanceLoad st = (inr tt, st))
  /\ ((exists a, In a (agents st) /\ capacity a < currentLoad a) ->
      (forall a, In a (agents st) -> capacity a <= currentLoad a) ->
      balanceLoad st =
        (inr tt, mkOrchestration (agents st) (tasks st) (specializations st)
                   (console st ++ [cannotBalance])%list)).
Proof.
  unfold balanceLoad, bind, get.
  set (sorted := sort (onAgent byLoadPercentage) (indexed (agents st))).
  assert (Hin : forall i a, In (i, a) sorted -> In a (agents st)).
  { intros i a H. apply sort_In, indexed_In in H.
    apply list_elem_of_In, list_elem_of_lookup. eauto. }
  split.
  - intros Hnone. rewrite filter_all_false; [reflexivity|].
    intros [i a] Hx. apply Hin, Hnone in Hx. apply Z.ltb_ge. exact Hx.
  - intros (a & Ha & Hover) Hnone.
    apply list_elem_of_In, list_elem_of_lookup in Ha as [i Hi].
    assert (Hio : In (i, a) (List.filter (fun x => isOverloaded (snd x)) sorted)).
    { apply filter_In. split; [now apply sort_In, indexed_In|].
      now apply Z.ltb_lt. }
    destruct (List.filter (fun x => isOverloaded (snd x)) sorted) as [|o os];
      [destruct Hio|].
    rewrite filter_all_false; [reflexivity|].
    intros [j b] Hx. apply Hin, Hnone in Hx. apply Z.ltb_ge. exact Hx.
Qed.

Lemma balanceLoad_terminal_cases_witness :
  balanceLoad (orchestrationOf [sampleAgent "a" RUNNING general 1 3;
                                sampleAgent "b" RUNNING general 2 2])
  = (inr tt,
     mkOrchestration [sampleAgent "a" RUNNING general 1 3;
                      sampleAgent "b" RUNNING general 2 2]
       sampleTasks AgentSpecializationManager.defaultSpecializations
       [cannotBalance]).
Proof.
  refine (proj2 (balanceLoad_terminal_cases
    (orchestrationOf [sampleAgent "a" RUNNING general 1 3;
                      sampleAgent "b" RUNNING general 2 2])) _ _).
  - exists (sampleAgent "a" RUNNING general 1 3). split; [simpl; auto|simpl; lia].
  - intros a [<-|[<-|[]]]; simpl; lia.
Defined.

(** C1. Once the last receiver is full no further load is moved (with no
    receiver left the loops leave the registry as it is), but the pass
    does not complete normally when an overloaded agent is still to be
    processed: [break] leaves the inner loop only, and the next overloaded
    agent calls [reduce] on the empty array.  Here the first overloaded
    agent fills the only receiver and the second one raises the
    TypeError. *)
Theorem balanceLoad_throws_after_last_receiver_is_full :
  (forall overs l, snd (forEachOverloaded overs l []) = (l, []))
  /\ let st := orchestrationOf [sampleAgent "a" RUNNING general 1 0;
                                sampleAgent "b" RUNNING general 1 3;
                                sampleAgent "c" RUNNING general 1 3] in
     fst (balanceLoad st) = inl ReduceOfEmptyArray /\
     map currentLoad (agents (snd (balanceLoad st))) = [1; 2; 3].
Proof.
  split; [apply forEachOverloaded_no_receiver|].
  split; reflexivity.
Qed.

(** ** The classifier on a file name and a keyword *)

(** C7. With the default pattern table, the description "api" and the
    file list ["schema.sql"] are classified as database: the extension
    match [*.sql] adds 2 points to database, the keyword hit "api" adds
    1 point to backend.  (The file name also contains the database
    keyword "sql", so that the final tally is 3 for database and 1 for
    backend.) *)
Theorem determineSpecialization_extension_outweighs_keyword :
  AgentSpecializationManager.determineSpecialization
    AgentSpecializationManager.defaultSpecializations "api" ["schema.sql"]
  = database
  /\ AgentSpecializationManager.scoreFilePatterns "schema.sql" database ["*.sql"]
       AgentSpecializationManager.initialScores
     = [(frontend, 0); (backend, 0); (database, 2); (devops, 0); (general, 0)]
  /\ AgentSpecializationManager.scoreDescription
       AgentSpecializationManager.defaultSpecializations "api"
       AgentSpecializationManager.initialScores
     = [(frontend, 0); (backend, 1); (database, 0); (devops, 0); (general, 0)]
  /\ AgentSpecializationManager.finalScores
       AgentSpecializationManager.defaultSpecializations "api" ["schema.sql"]
     = [(frontend, 0); (backend, 1); (database, 3); (devops, 0); (general, 0)].
Proof. repeat split; reflexivity. Qed.

(** ** When balancing is needed *)

Lemma sumSquares_nonneg (m : Q) (ps : list Q) (acc : Q) :
  (0 <= acc)%Q ->
  (0 <= fold_left (fun sum val => sum + (val - m) ^ 2) ps acc)%Q.
Proof.
  revert acc. induction ps as [|p ps IH]; intros acc Hacc; simpl; [exact Hacc|].
  apply IH. pose proof (Qsqr_nonneg (p - m)) as H. simpl in H. lra.
Qed.

Lemma exactVariance_nonneg (ps : list Q) : (0 <= exactVariance ps)%Q.
Proof.
  unfold exactVariance, Qdiv. apply Qmult_le_0_compat.
  - apply sumSquares_nonneg. apply Qle_refl.
  - apply Qinv_le_0_compat. change 0%Q with (inject_Z 0).
    rewrite <- Zle_Qle. lia.
Qed.

(** The test on the squares is the test on the square root. *)
Lemma exactStdDevExceeds_sqrt (ps : list Q) (t : Q) :
  (0 <= t)%Q ->
  exactStdDevExceeds ps t = true <-> (Q2R t < sqrt (Q2R (exactVariance ps)))%R.
Proof.
  intros Ht. unfold exactStdDevExceeds.
  rewrite negb_true_iff, <- not_true_iff_false, Qle_bool_iff.
  apply Qle_Rle in Ht. rewrite RMicromega.Q2R_0 in Ht.
  rewrite <- (sqrt_square (Q2R t) Ht) at 1. rewrite <- Q2R_mult.
  split.
  - intros H. apply Qnot_le_lt, Qlt_Rlt in H. apply sqrt_lt_1_alt. split; [|exact H].
    rewrite Q2R_mult. now apply Rmult_le_pos.
  - intros H Hle. apply sqrt_lt_0_alt in H. apply Qle_Rle in Hle.
    apply (Rlt_irrefl (Q2R (exactVariance ps))). eapply Rle_lt_trans; eauto.
Qed.

(** The literal [0.2] is the quotient [2 / 10], and no double is nearer
    to one fifth: it lies within half a unit of its last place,
    [2 ^ -56]. *)
Remark threshold_nearest_to_one_fifth :
  threshold = Number.div (Number.ofInteger 2) (Number.ofInteger 10) /\
  ((1 # 5) - (1 # 2 ^ 56) <= (7205759403792794 # 2 ^ 55))%Q /\
  ((7205759403792794 # 2 ^ 55) <= (1 # 5) + (1 # 2 ^ 56))%Q.
Proof.
  split; [vm_compute; reflexivity|]. split; vm_compute; discriminate.
Qed.

(** C8. [isLoadBalancingNeeded] answers true for two RUNNING agents of
    capacity 10 with loads 1 and 9, and false with loads 5 and 6.  In
    general it answers true exactly when some agent is over its capacity
    or at least two agents are RUNNING and the population standard
    deviation of their [currentLoad / capacity], computed in doubles the
    way the program does (sum, mean, squared deviations, mean, square
    root, each rounded), exceeds the double [0.2]. *)
Theorem isLoadBalancingNeeded_spread :
  (forall id1 name1 s1 id2 name2 s2,
     isLoadBalancingNeeded [mkAgent id1 name1 RUNNING s1 10 1;
                            mkAgent id2 name2 RUNNING s2 10 9] = true)
  /\ (forall id1 name1 s1 id2 name2 s2,
        isLoadBalancingNeeded [mkAgent id1 name1 RUNNING s1 10 5;
                               mkAgent id2 name2 RUNNING s2 10 6] = false)
  /\ (forall l,
        isLoadBalancingNeeded l = true <->
        (exists a, In a l /\ capacity a < currentLoad a) \/
        ((1 < length (List.filter isRunning l))%nat /\
         Number.ltb threshold
           (stdDev (map loadPercentage (List.filter isRunning l))) = true)).
Proof.
  split; [intros; vm_compute; reflexivity|].
  split; [intros; vm_compute; reflexivity|].
  intros l. unfold isLoadBalancingNeeded. rewrite length_map.
  destruct (List.filter isOverloaded l) as [|o os] eqn:Eo.
  - simpl.
    assert (Hno : ~ exists a, In a l /\ capacity a < currentLoad a).
    { intros (a & Ha & Hover). pose proof (filter_nil_none _ _ Eo a Ha) as H.
      apply Z.ltb_lt in Hover. unfold isOverloaded in H. congruence. }
    destruct (length _ <=? 1)%nat eqn:El.
    + apply Nat.leb_le in El. split; [discriminate|].
      intros [H|[H _]]; [contradiction|lia].
    + apply Nat.leb_gt in El. split; [auto|].
      intros [H|[_ H]]; [contradiction|exact H].
  - simpl. split; [|reflexivity]. intros _. left. exists o.
    assert (Hin : In o (List.filter isOverloaded l)) by (rewrite Eo; now left).
    apply filter_In in Hin as [H1 H2]. split; [exact H1|now apply Z.ltb_lt].
Qed.

(** Two RUNNING agents of capacity 30 with loads 11 and 23: none is over
    its capacity, the ratios lie 0.2 on either side of their mean, and the
    population standard deviation is 0.2, which does not exceed 0.2.  The
    doubles give a variance of 0.04000000000000002, and the program
    answers true. *)
Lemma isLoadBalancingNeeded_true_at_exact_threshold :
  let l := [sampleAgent "a" RUNNING general 30 11;
            sampleAgent "b" RUNNING general 30 23] in
  isLoadBalancingNeeded l = true /\
  (forall a, In a l -> currentLoad a <= capacity a) /\
  (exactVariance (map exactRatio (List.filter isRunning l)) == (1 # 25))%Q /\
  ~ (Q2R (1 # 5) <
     sqrt (Q2R (exactVariance (map exactRatio (List.filter isRunning l)))))%R.
Proof.
  split; [vm_compute; reflexivity|]. split.
  - intros a [<-|[<-|[]]]; simpl; lia.
  - split; [reflexivity|].
    rewrite <- exactStdDevExceeds_sqrt by discriminate.
    vm_compute. discriminate.
Qed.

(** Agents that are not RUNNING do not count for the deviation: the same
    loads on two agents that are still STARTING need no balancing. *)
Remark isLoadBalancingNeeded_ignores_starting_agents :
  isLoadBalancingNeeded [sampleAgent "a" STARTING general 10 1;
                         sampleAgent "b" STARTING general 10 9] = false.
Proof. vm_compute. reflexivity. Qed.

(** A RUNNING agent without load and without capacity has the ratio NaN,
    which spreads to the mean, the variance and the deviation; no NaN
    exceeds the threshold, and the check answers false whatever the other
    ratios are. *)
Remark isLoadBalancingNeeded_with_NaN_ratio :
  isLoadBalancingNeeded [sampleAgent "a" RUNNING general 0 0;
                         sampleAgent "b" RUNNING general 10 1;
                         sampleAgent "c" RUNNING general 10 9] = false.
Proof. vm_compute. reflexivity. Qed.

(** * Further properties of the orchestration object *)

(** ** [sort] permutes *)

Lemma insertSorted_Permutation {A : Type} (compareFn : A -> A -> comparison)
    (x : A) (l : list A) :
  Permutation (insertSorted compareFn x l) (x :: l).
Proof.
  induction l as [|y l IH]; simpl; [reflexivity|].
  destruct (compareFn x y); try reflexivity.
  rewrite IH. apply perm_swap.
Qed.

Lemma sort_Permutation {A : Type} (compareFn : A -> A -> comparison) (l : list A) :
  Permutation (sort compareFn l) l.
Proof.
  induction l as [|x l IH]; simpl; [reflexivity|].
  rewrite insertSorted_Permutation. now rewrite IH.
Qed.

Lemma indexedFrom_refs (n : nat) (l : list Agent) :
  map fst (indexedFrom n l) = seq n (length l).
Proof.
  revert n. induction l as [|a l IH]; intros n; simpl; [reflexivity|].
  now rewrite IH.
Qed.

Lemma NoDup_refs_filter (f : nat * Agent -> bool) (L : list (nat * Agent)) :
  NoDup (map fst L) -> NoDup (map fst (List.filter f L)).
Proof.
  induction L as [|x L IH]; simpl; intros H; [constructor|].
  apply NoDup_cons in H as [Hx H]. destruct (f x); simpl; [|auto].
  apply NoDup_cons. split; [|auto].
  intros Hin. apply Hx. apply list_elem_of_In in Hin. apply list_elem_of_In.
  apply in_map_iff in Hin as (y & Hy & Hin). apply filter_In in Hin as [Hin _].
  apply in_map_iff. eauto.
Qed.

Lemma sorted_refs_NoDup (f : nat * Agent -> bool)
    (compareFn : nat * Agent -> nat * Agent -> comparison) (l : list Agent) :
  NoDup (map fst (List.filter f (sort compareFn (indexed l)))).
Proof.
  apply NoDup_refs_filter.
  rewrite (Permutation_map fst (sort_Permutation compareFn (indexed l))).
  unfold indexed. rewrite indexedFrom_refs. apply NoDup_seq.
Qed.

Lemma sorted_refs_complete (f : nat * Agent -> bool)
    (compareFn : nat * Agent -> nat * Agent -> comparison) (l : list Agent)
    (i : nat) (a : Agent) :
  l !! i = Some a -> f (i, a) = true ->
  In i (map fst (List.filter f (sort compareFn (indexed l)))).
Proof.
  intros Hi Hf. apply in_map_iff. exists (i, a). split; [reflexivity|].
  apply filter_In. split; [|exact Hf]. now apply sort_In, indexed_In.
Qed.

Lemma spliceOut_NoDup (x : nat) (refs : list nat) :
  NoDup refs ->
  NoDup (spliceOut x refs) /\
  forall y, In y (spliceOut x refs) <-> In y refs /\ y <> x.
Proof.
  induction refs as [|z refs IH]; simpl; intros H.
  - split; [constructor|]. tauto.
  - apply NoDup_cons in H as [Hz H]. rewrite list_elem_of_In in Hz.
    destruct (Nat.eqb x z) eqn:E.
    + apply Nat.eqb_eq in E. subst z. split; [exact H|].
      intros y. split.
      * intros Hy. split; [auto|]. intros ->. contradiction.
      * intros [[->|Hy] Hne]; [congruence|exact Hy].
    + apply Nat.eqb_neq in E. destruct (IH H) as [IH1 IH2]. split.
      * apply NoDup_cons. split; [|exact IH1].
        rewrite list_elem_of_In, IH2. tauto.
      * intros y. simpl. rewrite IH2. split.
        -- intros [->|[Hy Hne]]; auto.
        -- intros [[->|Hy] Hne]; auto.
Qed.

Lemma loadAt_alter_eq (f : Agent -> Agent) (l : list Agent) (i : nat) (a : Agent) :
  l !! i = Some a -> loadAt (alter f i l) i = currentLoad (f a).
Proof. intros H. rewrite loadAt_alter, decide_True, H by reflexivity. reflexivity. Qed.

Lemma loadAt_alter_ne (f : Agent -> Agent) (l : list Agent) (i j : nat) :
  i <> j -> loadAt (alter f i l) j = loadAt l j.
Proof. intros H. now rewrite loadAt_alter, decide_False. Qed.

Lemma below_capacity_in_range (l : list Agent) (i : nat) :
  loadAt l i <> capacityAt l i -> exists a, l !! i = Some a.
Proof.
  unfold loadAt, capacityAt. destruct (l !! i) as [a|]; [eauto|]. simpl. lia.
Qed.

(** ** The receivers during a pass *)

(** One iteration of the inner loop on a registry whose receivers are
    exact, for an agent with excess left. *)
Lemma transfer_step (over m : nat) (l : list Agent) (under : list nat) :
  receiversExact l under ->
  capacityAt l over < loadAt l over ->
  In m under ->
  let l2 := alter increment m (alter decrement over l) in
  m <> over /\
  loadAt l2 over = loadAt l over - 1 /\
  loadAt l2 m = loadAt l m + 1 /\
  (forall i, i <> over -> i <> m -> loadAt l2 i = loadAt l i) /\
  (forall i, capacityAt l2 i = capacityAt l i).
Proof.
  intros [Hnd Hex] Hover Hm l2.
  assert (Hmu : loadAt l m < capacityAt l m) by now apply Hex.
  assert (Hne : m <> over) by (intros ->; lia).
  destruct (below_capacity_in_range l over) as [a Ha]; [lia|].
  destruct (below_capacity_in_range l m) as [b Hb]; [lia|].
  assert (Hb1 : alter decrement over l !! m = Some b).
  { rewrite list_lookup_alter_ne; auto. }
  split; [exact Hne|]. unfold l2. split; [|split; [|split]].
  - rewrite loadAt_alter_ne by exact Hne. rewrite (loadAt_alter_eq _ _ _ _ Ha).
    unfold loadAt. rewrite Ha. simpl. lia.
  - rewrite (loadAt_alter_eq _ _ _ _ Hb1). unfold loadAt. rewrite Hb. simpl. lia.
  - intros i H1 H2. rewrite !loadAt_alter_ne; auto.
  - intros i. rewrite !capacityAt_alter; auto.
Qed.

Lemma moveTasks_receivers (n over : nat) (l : list Agent) (under : list nat)
    (r : Error + unit) (l' : list Agent) (under' : list nat) :
  moveTasks n over l under = (r, (l', under')) ->
  receiversExact l under ->
  Z.of_nat n <= Z.max 0 (loadAt l over - capacityAt l over) ->
  receiversExact l' under' /\
  (forall i, loadAt l i <= capacityAt l i -> loadAt l' i <= capacityAt l i) /\
  match r with
  | inr _ => under' = [] \/ loadAt l' over = loadAt l over - Z.of_nat n
  | inl _ => (0 < n)%nat /\ under = [] /\ l' = l
  end.
Proof.
  revert l under. induction n as [|n IH]; intros l under H Hrx Hn; simpl in H.
  - injection H as <- <- <-. split; [exact Hrx|]. split; [auto|]. right. lia.
  - destruct (mostUnderloaded l under) as [m|] eqn:Em.
    2:{ destruct under; [|discriminate]. injection H as <- <- <-.
        split; [exact Hrx|]. split; [auto|]. split; [lia|auto]. }
    assert (Hm : In m under) by (eapply mostUnderloaded_In; eauto).
    assert (Hover : capacityAt l over < loadAt l over) by lia.
    destruct (transfer_step over m l under Hrx Hover Hm)
      as (Hne & Ho & Hmm & Hoth & Hcap).
    set (l2 := alter increment m (alter decrement over l)) in *.
    destruct Hrx as [Hnd Hex].
    assert (Hmu : loadAt l m < capacityAt l m) by now apply Hex.
    assert (Hkeep : forall i, loadAt l i <= capacityAt l i ->
                              loadAt l2 i <= capacityAt l i).
    { intros i Hi. destruct (decide (i = over)) as [->|H1]; [lia|].
      destruct (decide (i = m)) as [->|H2]; [lia|]. rewrite Hoth; auto. }
    assert (Hn2 : Z.of_nat n <= Z.max 0 (loadAt l2 over - capacityAt l2 over)).
    { rewrite Hcap. lia. }
    assert (Hrec : forall under1, receiversExact l2 under1 -> under1 <> [] ->
              moveTasks n over l2 under1 = (r, (l', under')) ->
              receiversExact l' under' /\
              (forall i, loadAt l i <= capacityAt l i -> loadAt l' i <= capacityAt l i) /\
              match r with
              | inr _ => under' = [] \/ loadAt l' over = loadAt l over - Z.of_nat (S n)
              | inl _ => (0 < S n)%nat /\ under = [] /\ l' = l
              end).
    { intros under1 Hrx1 Hne1 Hmv.
      destruct (IH l2 under1 Hmv Hrx1 Hn2) as (H1 & H2 & H3).
      split; [exact H1|]. split.
      - intros i Hi. rewrite <- (Hcap i). apply H2. rewrite Hcap. auto.
      - destruct r as [e|u].
        + destruct H3 as (_ & H3 & _). contradiction.
        + destruct H3 as [H3|H3]; [auto|right; lia]. }
    destruct (capacityAt l2 m <=? loadAt l2 m) eqn:Efull.
    + apply Z.leb_le in Efull. rewrite Hcap in Efull.
      destruct (spliceOut_NoDup m under Hnd) as [Hnd1 Hin1].
      assert (Hrx1 : receiversExact l2 (spliceOut m under)).
      { split; [exact Hnd1|]. intros i. rewrite Hin1, Hex, Hcap.
        destruct (decide (i = m)) as [->|H2]; [lia|].
        destruct (decide (i = over)) as [->|H1]; [lia|].
        rewrite Hoth by auto. tauto. }
      destruct (spliceOut m under) as [|u us] eqn:Es.
      * injection H as <- <- <-. split; [exact Hrx1|]. split; [exact Hkeep|]. auto.
      * apply (Hrec (u :: us)); [exact Hrx1|discriminate|exact H].
    + apply Z.leb_gt in Efull. rewrite Hcap in Efull.
      apply (Hrec under); [| |exact H].
      * split; [exact Hnd|]. intros i. rewrite Hex, Hcap.
        destruct (decide (i = m)) as [->|H2]; [lia|].
        destruct (decide (i = over)) as [->|H1]; [lia|].
        rewrite Hoth by auto. tauto.
      * intros ->. destruct Hm.
Qed.

Lemma forEachOverloaded_receivers (overs : list nat) (l : list Agent)
    (under : list nat) (r : Error + unit) (l' : list Agent) (under' : list nat) :
  forEachOverloaded overs l under = (r, (l', under')) ->
  receiversExact l under ->
  receiversExact l' under' /\
  (forall i, loadAt l i <= capacityAt l i -> loadAt l' i <= capacityAt l i) /\
  (under' = [] \/ forall o, In o overs -> loadAt l' o <= capacityAt l o) /\
  (forall e, r = inl e ->
     under' = [] /\ exists o, In o overs /\ capacityAt l o < loadAt l' o).
Proof.
  revert l under. induction overs as [|o overs IH]; intros l under H Hrx; simpl in H.
  - injection H as <- <- <-. split; [exact Hrx|]. split; [auto|].
    split; [right; intros o []|]. intros e He. discriminate.
  - destruct (moveTasks _ o l under) as [r1 [l1 under1]] eqn:Em.
    pose proof (moveTasks_frame _ _ _ _ _ _ _ Em) as (Hlen & Hcap & Hsub & _).
    destruct (moveTasks_receivers _ _ _ _ _ _ _ Em Hrx) as (Hrx1 & Hkeep1 & Hr1); [lia|].
    destruct r1 as [e|[]].
    + injection H as <- <- <-. destruct Hr1 as (Hn & -> & ->).
      assert (Hu1 : under1 = []).
      { destruct under1 as [|x xs]; [reflexivity|]. destruct (Hsub x); now left. }
      split; [exact Hrx1|]. split; [exact Hkeep1|]. split; [auto|].
      intros e' _. split; [exact Hu1|]. exists o. split; [now left|lia].
    + pose proof (forEachOverloaded_frame _ _ _ _ _ _ H) as (_ & Hcap' & Hsub' & _).
      destruct (IH l1 under1 H Hrx1) as (Hrx' & Hkeep' & Hdone & Hthrow).
      split; [exact Hrx'|]. split; [|split].
      * intros i Hi. rewrite <- (Hcap i). apply Hkeep'. rewrite Hcap. auto.
      * destruct Hdone as [Hdone|Hdone]; [auto|].
        destruct Hr1 as [->|Ho].
        -- left. destruct under' as [|x xs]; [reflexivity|].
           destruct (Hsub' x); now left.
        -- right. intros o' [<-|Ho']; [|rewrite <- (Hcap o'); auto].
           rewrite <- (Hcap o). apply Hkeep'. rewrite Hcap. lia.
      * intros e He. destruct (Hthrow e He) as (Hu & o' & Ho' & Hlt).
        split; [exact Hu|]. exists o'. split; [now right|]. now rewrite <- (Hcap o').
Qed.

Lemma noneOverloaded_at (l : list Agent) :
  noneOverloaded l <-> forall i, loadAt l i <= capacityAt l i.
Proof.
  unfold noneOverloaded, loadAt, capacityAt. rewrite Forall_lookup. split.
  - intros H i. destruct (l !! i) as [a|] eqn:E; simpl; [eauto|lia].
  - intros H i a Ha. specialize (H i). now rewrite Ha in H.
Qed.

Lemma noneUnderloaded_at (l : list Agent) :
  noneUnderloaded l <-> forall i, capacityAt l i <= loadAt l i.
Proof.
  unfold noneUnderloaded, loadAt, capacityAt. rewrite Forall_lookup. split.
  - intros H i. destruct (l !! i) as [a|] eqn:E; simpl; [eauto|lia].
  - intros H i a Ha. specialize (H i). now rewrite Ha in H.
Qed.

Lemma alter_unloaded (f : Agent -> Agent) (i : nat) (l : list Agent) :
  (forall a, unloaded (f a) = unloaded a) ->
  map unloaded (alter f i l) = map unloaded l.
Proof.
  intros Hf. revert i. induction l as [|a l IH]; intros [|i]; try reflexivity.
  - simpl. now rewrite Hf.
  - change (alter f (S i) (a :: l)) with (a :: alter f i l). simpl. now rewrite IH.
Qed.

Lemma moveTasks_unloaded (n over : nat) (l : list Agent) (under : list nat) :
  map unloaded (fst (snd (moveTasks n over l under))) = map unloaded l.
Proof.
  revert l under. induction n as [|n IH]; intros l under; simpl; [reflexivity|].
  destruct (mostUnderloaded l under) as [m|]; [|reflexivity].
  set (l2 := alter increment m (alter decrement over l)).
  assert (H2 : map unloaded l2 = map unloaded l).
  { unfold l2. rewrite !alter_unloaded; auto. }
  destruct (capacityAt l2 m <=? loadAt l2 m).
  - destruct (spliceOut m under); [exact H2|]. now rewrite IH.
  - now rewrite IH.
Qed.

Lemma forEachOverloaded_unloaded (overs : list nat) (l : list Agent) (under : list nat) :
  map unloaded (fst (snd (forEachOverloaded overs l under))) = map unloaded l.
Proof.
  revert l under. induction overs as [|o overs IH]; intros l under; simpl; [reflexivity|].
  pose proof (moveTasks_unloaded (Z.to_nat (loadAt l o - capacityAt l o)) o l under) as Hm.
  destruct (moveTasks _ o l under) as [[e|[]] [l1 under1]]; simpl in Hm; [exact Hm|].
  now rewrite IH.
Qed.

Lemma totalCapacity_unloaded (l l' : list Agent) :
  map unloaded l = map unloaded l' -> totalCapacity l = totalCapacity l'.
Proof.
  revert l'. induction l as [|a l IH]; intros [|a' l'] H; try discriminate; [reflexivity|].
  simpl in H. injection H as _ _ _ _ Hc H. simpl. rewrite (IH l' H). lia.
Qed.

(** What a call of [balanceLoad] amounts to: one of the two early returns,
    or the loops run on the overloaded agents and on exact receivers. *)
Lemma balanceLoad_run (st : Orchestration) :
  (noneOverloaded (agents st) /\ balanceLoad st = (inr tt, st)) \/
  (noneUnderloaded (agents st) /\ fst (balanceLoad st) = inr tt /\
   agents (snd (balanceLoad st)) = agents st) \/
  exists overs under r l' under',
    forEachOverloaded overs (agents st) under = (r, (l', under')) /\
    fst (balanceLoad st) = r /\
    agents (snd (balanceLoad st)) = l' /\
    receiversExact (agents st) under /\
    (forall i, capacityAt (agents st) i < loadAt (agents st) i -> In i overs) /\
    (forall x, In x overs -> (x < length (agents st))%nat) /\
    (forall x, In x under -> (x < length (agents st))%nat).
Proof.
  unfold balanceLoad, bind, get.
  set (sorted := sort (onAgent byLoadPercentage) (indexed (agents st))).
  assert (Hin : forall i a, In (i, a) sorted -> In a (agents st)).
  { intros i a H. apply sort_In, indexed_In in H.
    apply list_elem_of_In, list_elem_of_lookup. eauto. }
  destruct (List.filter (fun x => isOverloaded (snd x)) sorted) as [|o os] eqn:Eo.
  { left. split; [|reflexivity]. apply Forall_forall. intros a Ha.
    apply list_elem_of_lookup in Ha as [i Hi].
    apply indexed_In, (sort_In (onAgent byLoadPercentage)) in Hi.
    pose proof (filter_nil_none _ _ Eo _ Hi) as H. now apply Z.ltb_ge in H. }
  right.
  destruct (List.filter (fun x => isUnderloaded (snd x)) sorted) as [|u us] eqn:Eu.
  { left. split; [|split; reflexivity]. apply Forall_forall. intros a Ha.
    apply list_elem_of_lookup in Ha as [i Hi].
    apply indexed_In, (sort_In (onAgent byLoadPercentage)) in Hi.
    pose proof (filter_nil_none _ _ Eu _ Hi) as H. now apply Z.ltb_ge in H. }
  right.
  destruct (forEachOverloaded _ (agents st) _) as [r [l' under']] eqn:Ef.
  exists (map fst (o :: os)), (map fst (u :: us)), r, l', under'.
  split; [exact Ef|]. split; [destruct r as [e|[]]; reflexivity|].
  split; [destruct r as [e|[]]; reflexivity|].
  rewrite <- Eo, <- Eu. split; [split|split; [|split]].
  - apply sorted_refs_NoDup.
  - intros i. split.
    + intros H. apply sorted_refs_in_range in H as (a & Ha & Hf).
      unfold loadAt, capacityAt. rewrite Ha. simpl. now apply Z.ltb_lt.
    + intros H. destruct (below_capacity_in_range (agents st) i) as [a Ha]; [lia|].
      apply (sorted_refs_complete _ _ _ i a Ha).
      unfold loadAt, capacityAt in H. rewrite Ha in H. now apply Z.ltb_lt.
  - intros i H. destruct (below_capacity_in_range (agents st) i) as [a Ha]; [lia|].
    apply (sorted_refs_complete _ _ _ i a Ha).
    unfold loadAt, capacityAt in H. rewrite Ha in H. now apply Z.ltb_lt.
  - intros x Hx. apply sorted_refs_in_range in Hx as (a & Ha & _).
    now apply lookup_lt_Some in Ha.
  - intros x Hx. apply sorted_refs_in_range in Hx as (a & Ha & _).
    now apply lookup_lt_Some in Ha.
Qed.

(** The outcome of the loops, read on the registry. *)
Lemma balanceLoad_outcome (st : Orchestration) :
  let l := agents st in
  let l' := agents (snd (balanceLoad st)) in
  (noneOverloaded l' \/ noneUnderloaded l') /\
  (forall i, loadAt l i <= capacityAt l i -> loadAt l' i <= capacityAt l' i) /\
  (forall i, capacityAt l' i = capacityAt l i) /\
  (fst (balanceLoad st) <> inr tt -> ~ noneOverloaded l').
Proof.
  intros l l'. subst l l'.
  destruct (balanceLoad_run st)
    as [[Hno ->]|[(Hnu & Hr & ->)|(overs & under & r & l' & under' & Hf & Hr & -> & Hrx & Hov & _)]].
  - simpl. split; [auto|]. split; [auto|]. split; [auto|]. congruence.
  - split; [auto|]. split; [auto|]. split; [auto|]. congruence.
  - pose proof (forEachOverloaded_frame _ _ _ _ _ _ Hf) as (_ & Hcap & _ & _).
    destruct (forEachOverloaded_receivers _ _ _ _ _ _ Hf Hrx)
      as ((_ & Hex') & Hkeep & Hdone & Hthrow).
    split; [|split; [|split]].
    + destruct Hdone as [->|Hdone].
      * right. apply noneUnderloaded_at. intros i.
        destruct (Z_lt_le_dec (loadAt l' i) (capacityAt l' i)) as [H|H]; [|exact H].
        apply Hex' in H. destruct H.
      * left. apply noneOverloaded_at. intros i. rewrite Hcap.
        destruct (Z_lt_le_dec (capacityAt (agents st) i) (loadAt (agents st) i)) as [H|H].
        -- apply Hdone, Hov, H.
        -- now apply Hkeep.
    + intros i Hi. rewrite Hcap. now apply Hkeep.
    + exact Hcap.
    + rewrite Hr. intros Hne Hno. destruct r as [e|[]]; [|congruence].
      destruct (Hthrow e eq_refl) as (_ & o & _ & Ho).
      rewrite noneOverloaded_at in Hno. specialize (Hno o). rewrite Hcap in Hno. lia.
Qed.

Lemma balanceLoad_none_overloaded (st : Orchestration) :
  noneOverloaded (agents st) -> balanceLoad st = (inr tt, st).
Proof.
  intros Hno. unfold balanceLoad, bind, get.
  rewrite filter_all_false; [reflexivity|].
  intros [i a] Hx. apply sort_In, indexed_In in Hx. simpl.
  apply Z.ltb_ge. exact (Forall_lookup_1 _ _ _ _ Hno Hx).
Qed.

Lemma balanceLoad_none_underloaded (st : Orchestration) :
  noneUnderloaded (agents st) ->
  fst (balanceLoad st) = inr tt /\ agents (snd (balanceLoad st)) = agents st.
Proof.
  intros Hnu. unfold balanceLoad, bind, get.
  destruct (List.filter (fun x => isOverloaded (snd x)) _); [split; reflexivity|].
  rewrite filter_all_false; [split; reflexivity|].
  intros [i a] Hx. apply sort_In, indexed_In in Hx. simpl.
  apply Z.ltb_ge. exact (Forall_lookup_1 _ _ _ _ Hnu Hx).
Qed.

Lemma balanceLoad_totalLoad (st : Orchestration) :
  totalLoad (agents (snd (balanceLoad st))) = totalLoad (agents st).
Proof.
  destruct (balanceLoad_cases st)
    as [->|(overs & under & r & l' & u' & Hf & -> & Ho & Hu)]; [reflexivity|].
  eapply forEachOverloaded_totalLoad; eauto.
Qed.

Lemma balanceLoad_unloaded (st : Orchestration) :
  map unloaded (agents (snd (balanceLoad st))) = map unloaded (agents st).
Proof.
  destruct (balanceLoad_cases st)
    as [->|(overs & under & r & l' & u' & Hf & -> & _)]; [reflexivity|].
  pose proof (forEachOverloaded_unloaded overs (agents st) under) as H.
  now rewrite Hf in H.
Qed.

Lemma balanceLoad_collaborators (st : Orchestration) :
  tasks (snd (balanceLoad st)) = tasks st /\
  specializations (snd (balanceLoad st)) = specializations st.
Proof.
  unfold balanceLoad, bind, get.
  destruct (List.filter (fun x => isOverloaded (snd x)) _); [split; reflexivity|].
  destruct (List.filter (fun x => isUnderloaded (snd x)) _); [split; reflexivity|].
  destruct (forEachOverloaded _ _ _) as [[e|[]] [l' u']]; split; reflexivity.
Qed.

Lemma noneOverloaded_totals (l : list Agent) :
  noneOverloaded l -> totalLoad l <= totalCapacity l.
Proof. induction 1; simpl; lia. Qed.

Lemma noneUnderloaded_totals (l : list Agent) :
  noneUnderloaded l -> totalCapacity l <= totalLoad l.
Proof. induction 1; simpl; lia. Qed.

Lemma noneUnderloaded_full (l : list Agent) :
  noneUnderloaded l -> totalLoad l <= totalCapacity l -> noneOverloaded l.
Proof.
  induction 1 as [|a l Ha Hl IH]; simpl; intros Hsum; [constructor|].
  pose proof (noneUnderloaded_totals l Hl).
  constructor; [lia|]. apply IH. lia.
Qed.

(** ** What a rebalance pass achieves *)

(** X1. After [balanceLoad], whether it returned or threw, no agent is
    left over its capacity or no agent is left under it; an agent that
    was at or under its capacity before the pass is at or under it
    afterwards (a receiver is never filled beyond its capacity). *)
Theorem balanceLoad_balances_or_exhausts (st : Orchestration) :
  let l' := agents (snd (balanceLoad st)) in
  (noneOverloaded l' \/ noneUnderloaded l') /\
  (forall i a a', agents st !! i = Some a -> l' !! i = Some a' ->
     currentLoad a <= capacity a -> currentLoad a' <= capacity a').
Proof.
  destruct (balanceLoad_outcome st) as (H1 & H2 & _).
  split; [exact H1|]. intros i a a' Ha Ha' Hle. specialize (H2 i).
  unfold loadAt, capacityAt in H2. rewrite Ha, Ha' in H2. simpl in H2. auto.
Qed.

(** X2. A second [balanceLoad] right after a first one changes no agent
    and returns normally, even when the first one threw: the pass is
    idempotent on the registry. *)
Theorem balanceLoad_idempotent (st : Orchestration) :
  let st' := snd (balanceLoad st) in
  fst (balanceLoad st') = inr tt /\
  agents (snd (balanceLoad st')) = agents st'.
Proof.
  intros st'. destruct (balanceLoad_outcome st) as ([H|H] & _).
  - fold st' in H. rewrite (balanceLoad_none_overloaded st' H). split; reflexivity.
  - fold st' in H. now apply balanceLoad_none_underloaded.
Qed.

(** X3. [balanceLoad] leaves no agent over its capacity exactly when the
    registry has room for its load (the total load does not exceed the
    total capacity); in that case the pass returns normally. *)
Theorem balanceLoad_absorbs_excess_iff_room (st : Orchestration) :
  (noneOverloaded (agents (snd (balanceLoad st))) <->
   totalLoad (agents st) <= totalCapacity (agents st))
  /\ (totalLoad (agents st) <= totalCapacity (agents st) ->
      fst (balanceLoad st) = inr tt).
Proof.
  pose proof (balanceLoad_totalLoad st) as Hsum.
  pose proof (totalCapacity_unloaded _ _ (balanceLoad_unloaded st)) as Hcap.
  destruct (balanceLoad_outcome st) as (Hdisj & _ & _ & Hthrow).
  assert (Hroom : totalLoad (agents st) <= totalCapacity (agents st) ->
                  noneOverloaded (agents (snd (balanceLoad st)))).
  { intros Hle. destruct Hdisj as [H|H]; [exact H|].
    apply noneUnderloaded_full; [exact H|]. lia. }
  split; [split|].
  - intros H. apply noneOverloaded_totals in H. lia.
  - exact Hroom.
  - intros Hle. destruct (fst (balanceLoad st)) as [e|[]] eqn:E; [|reflexivity].
    exfalso. apply Hthrow; [discriminate|auto].
Qed.

Lemma balanceLoad_absorbs_excess_iff_room_witness :
  fst (balanceLoad (orchestrationOf [sampleAgent "a" RUNNING general 2 5;
                                     sampleAgent "b" RUNNING general 3 0;
                                     sampleAgent "c" RUNNING general 2 1]))
  = inr tt.
Proof.
  apply (proj2 (balanceLoad_absorbs_excess_iff_room
    (orchestrationOf [sampleAgent "a" RUNNING general 2 5;
                      sampleAgent "b" RUNNING general 3 0;
                      sampleAgent "c" RUNNING general 2 1]))).
  simpl. lia.
Defined.

(** X4. [balanceLoad] touches nothing but [currentLoad]: the agents keep
    their order, identifiers, names, statuses, specializations and
    capacities, and the task store and the pattern table are left alone,
    whether the pass returns or throws. *)
Theorem balanceLoad_touches_only_loads (st : Orchestration) :
  map unloaded (agents (snd (balanceLoad st))) = map unloaded (agents st) /\
  length (agents (snd (balanceLoad st))) = length (agents st) /\
  totalCapacity (agents (snd (balanceLoad st))) = totalCapacity (agents st) /\
  tasks (snd (balanceLoad st)) = tasks st /\
  specializations (snd (balanceLoad st)) = specializations st.
Proof.
  pose proof (balanceLoad_unloaded st) as H.
  split; [exact H|]. split.
  - apply (f_equal (@length Agent)) in H. now rewrite !length_map in H.
  - split; [now apply totalCapacity_unloaded|apply balanceLoad_collaborators].
Qed.

(** ** The receiver of each unit of load *)

(** [<] and [<=] order the numbers other than NaN. *)
Lemma ltb_leb_trans (x y z : Number.number) :
  Number.isNaN x = false -> Number.isNaN y = false -> Number.isNaN z = false ->
  Number.ltb x y = true -> Number.leb y z = true -> Number.ltb x z = true.
Proof.
  intros Hx Hy Hz. rewrite !place_ltb, place_leb by assumption.
  unfold Number.before. lia.
Qed.

Lemma ltb_trans (x y z : Number.number) :
  Number.isNaN x = false -> Number.isNaN y = false -> Number.isNaN z = false ->
  Number.ltb x y = true -> Number.ltb y z = true -> Number.ltb x z = true.
Proof.
  intros Hx Hy Hz. rewrite !place_ltb by assumption.
  unfold Number.before. lia.
Qed.

Lemma not_leb_ltb (x y : Number.number) :
  Number.isNaN x = false -> Number.isNaN y = false ->
  Number.leb x y = false -> Number.ltb y x = true.
Proof.
  intros Hx Hy H. apply place_ltb; [assumption|assumption|].
  destruct (Number.leb x y) eqn:E; [discriminate|].
  apply not_true_iff_false in E. rewrite place_leb in E by assumption.
  unfold Number.before in *. lia.
Qed.

Lemma ordered_not_NaN (x : Number.number) :
  Number.ordered x -> Number.isNaN x = false.
Proof. destruct x; simpl; tauto. Qed.

(** The ratio of a receiver is a number. *)
Lemma percentageAt_not_NaN (l : list Agent) (x : nat) :
  (exists a, l !! x = Some a /\ safeAgent a /\ currentLoad a < capacity a) ->
  Number.isNaN (percentageAt l x) = false.
Proof.
  intros (a & Ha & Hsafe & Hspare). unfold percentageAt. rewrite Ha. simpl.
  apply ordered_not_NaN, loadPercentage_ordered; [exact Hsafe|].
  now apply spare_hasRatio.
Qed.

Lemma reduceFrom_first_lowest (l : list Agent) (prev : nat) (rest : list nat) :
  (forall x, In x (prev :: rest) -> Number.isNaN (percentageAt l x) = false) ->
  let r := reduceFrom l prev rest in
  (r = prev /\
   forall x, In x rest ->
     Number.leb (percentageAt l prev) (percentageAt l x) = true) \/
  (exists pre post,
     rest = (pre ++ r :: post)%list /\
     Number.ltb (percentageAt l r) (percentageAt l prev) = true /\
     (forall x, In x pre ->
        Number.ltb (percentageAt l r) (percentageAt l x) = true) /\
     (forall x, In x post ->
        Number.leb (percentageAt l r) (percentageAt l x) = true)).
Proof.
  revert prev. induction rest as [|curr rest IH]; intros prev Hnum; simpl.
  - left. split; [reflexivity|]. intros x [].
  - assert (Hprev : Number.isNaN (percentageAt l prev) = false)
      by (apply Hnum; now left).
    assert (Hcurr : Number.isNaN (percentageAt l curr) = false)
      by (apply Hnum; right; now left).
    assert (Hrest : forall x, In x rest -> Number.isNaN (percentageAt l x) = false)
      by (intros x Hx; apply Hnum; right; now right).
    destruct (Number.leb (percentageAt l prev) (percentageAt l curr)) eqn:E.
    + assert (Hnum' : forall x, In x (prev :: rest) ->
                        Number.isNaN (percentageAt l x) = false)
        by (intros x [<-|Hx]; auto).
      assert (Hr : Number.isNaN (percentageAt l (reduceFrom l prev rest)) = false)
        by (apply Hnum', reduceFrom_In).
      destruct (IH prev Hnum') as [[Heq Hall]|(pre & post & Hsplit & Hlt & Hpre & Hpost)].
      * left. split; [exact Heq|]. intros x [<-|Hx]; auto.
      * right. exists (curr :: pre), post. split; [simpl; now f_equal|].
        split; [exact Hlt|]. split; [|exact Hpost].
        intros x [<-|Hx]; [|auto].
        now apply ltb_leb_trans with (percentageAt l prev).
    + assert (Hlt : Number.ltb (percentageAt l curr) (percentageAt l prev) = true)
        by now apply not_leb_ltb.
      assert (Hnum' : forall x, In x (curr :: rest) ->
                        Number.isNaN (percentageAt l x) = false)
        by (intros x [<-|Hx]; auto).
      assert (Hr : Number.isNaN (percentageAt l (reduceFrom l curr rest)) = false)
        by (apply Hnum', reduceFrom_In).
      right.
      destruct (IH curr Hnum') as [[Heq Hall]|(pre & post & Hsplit & Hlt' & Hpre & Hpost)].
      * exists [], rest. rewrite Heq. split; [reflexivity|]. split; [exact Hlt|].
        split; [intros x []|exact Hall].
      * exists (curr :: pre), post. split; [simpl; now f_equal|].
        split; [now apply ltb_trans with (percentageAt l curr)|].
        split; [|exact Hpost].
        intros x [<-|Hx]; [exact Hlt'|auto].
Qed.

(** X5. Each unit of load goes to the receiver with the lowest
    [currentLoad / capacity], the receivers being agents below their
    capacity whose loads and capacities are integers that doubles hold
    exactly; among receivers of equal ratio, to the one that comes first
    in the receiver list: every receiver before the chosen one has a
    strictly higher ratio, every receiver after it a ratio at least as
    high.  The ratios are doubles, compared with [<] and [<=]. *)
Theorem mostUnderloaded_first_lowest_ratio
    (l : list Agent) (under : list nat) (m : nat) :
  (forall x, In x under ->
     exists a, l !! x = Some a /\ safeAgent a /\ currentLoad a < capacity a) ->
  mostUnderloaded l under = Some m ->
  exists pre post,
    under = (pre ++ m :: post)%list /\
    (forall x, In x pre ->
       Number.ltb (percentageAt l m) (percentageAt l x) = true) /\
    (forall x, In x post ->
       Number.leb (percentageAt l m) (percentageAt l x) = true).
Proof.
  intros Hunder. destruct under as [|first rest]; simpl; [discriminate|].
  intros H. injection H as <-.
  destruct (reduceFrom_first_lowest l first rest)
    as [[Hr Hall]|(pre & post & Hrest & Hlt & Hpre & Hpost)].
  - intros x Hx. now apply percentageAt_not_NaN, Hunder.
  - exists [], rest. rewrite Hr. split; [reflexivity|]. split; [intros x []|exact Hall].
  - exists (first :: pre), post. split; [simpl; now f_equal|].
    split; [|exact Hpost]. intros x [<-|Hx]; auto.
Qed.

Lemma mostUnderloaded_first_lowest_ratio_witness :
  exists pre post,
    [2%nat; 0%nat; 1%nat] = (pre ++ 0%nat :: post)%list /\
    (forall x, In x pre ->
       Number.ltb
         (percentageAt [sampleAgent "a" RUNNING general 4 1;
                        sampleAgent "b" RUNNING general 8 2;
                        sampleAgent "c" RUNNING general 2 1] 0)
         (percentageAt [sampleAgent "a" RUNNING general 4 1;
                        sampleAgent "b" RUNNING general 8 2;
                        sampleAgent "c" RUNNING general 2 1] x) = true) /\
    (forall x, In x post ->
       Number.leb
         (percentageAt [sampleAgent "a" RUNNING general 4 1;
                        sampleAgent "b" RUNNING general 8 2;
                        sampleAgent "c" RUNNING general 2 1] 0)
         (percentageAt [sampleAgent "a" RUNNING general 4 1;
                        sampleAgent "b" RUNNING general 8 2;
                        sampleAgent "c" RUNNING general 2 1] x) = true).
Proof.
  apply (mostUnderloaded_first_lowest_ratio
           [sampleAgent "a" RUNNING general 4 1;
            sampleAgent "b" RUNNING general 8 2;
            sampleAgent "c" RUNNING general 2 1]
           [2%nat; 0%nat; 1%nat] 0%nat).
  - intros x [<-|[<-|[<-|[]]]]; eexists; (split; [reflexivity|]);
      (split; [repeat constructor|simpl; lia]).
  - vm_compute. reflexivity.
Defined.

(** ** The fallback of [findBestAgentForTask] *)

(** X6. When no agent is eligible for the tag (none of that
    specialization or general is RUNNING with spare capacity) but some
    RUNNING agent has spare capacity, [findBestAgentForTask] falls back
    to the RUNNING agents with spare capacity of any specialization and
    returns one whose [currentLoad / capacity] is the lowest among
    them: no other has a ratio below it, the ratios being doubles and
    "below" the test that their difference is negative.  Loads and
    capacities are integers that doubles hold exactly. *)
Theorem findBestAgentForTask_falls_back_to_lowest_ratio
    (l : list Agent) (s : AgentSpecialization) :
  Forall safeAgent l ->
  (forall b, In b l -> ~ eligible s b) ->
  (exists b, In b l /\ hasSpareCapacity b) ->
  exists i a,
    findBestAgentForTask l s = inr i /\ l !! i = Some a /\
    hasSpareCapacity a /\
    specialization a <> s /\ specialization a <> general /\
    forall b, In b l -> hasSpareCapacity b ->
      ~ Number.below (loadPercentage b) (loadPercentage a).
Proof.
  intros Hsafe Hnone (b0 & Hb0 & Hs0). unfold findBestAgentForTask.
  set (P1 := fun x : nat * Agent => _ && _ && isRunning (snd x)).
  set (P2 := fun x : nat * Agent => _ && isRunning (snd x)).
  assert (HP2 : forall j b, P2 (j, b) = true <-> hasSpareCapacity b).
  { intros j b. unfold P2, hasSpareCapacity. simpl.
    rewrite andb_true_iff, Z.ltb_lt, isRunning_true. tauto. }
  rewrite (filter_all_false P1).
  2:{ intros [j b] Hx. apply indexed_In in Hx.
      destruct (P1 (j, b)) eqn:E; [|reflexivity]. exfalso.
      apply (Hnone b).
      - apply list_elem_of_In, list_elem_of_lookup. eauto.
      - apply eligible_filter. exact E. }
  apply list_elem_of_In, list_elem_of_lookup in Hb0 as [j0 Hj0].
  assert (Hin0 : In (j0, b0) (List.filter P2 (indexed l))).
  { apply filter_In. split; [now apply indexed_In|now apply HP2]. }
  assert (Hext : sort (onAgent byLoadPercentage) (List.filter P2 (indexed l))
                 = sort (onAgent byValue) (List.filter P2 (indexed l))).
  { apply sort_ext. intros [j x] [k y] Hx Hy.
    apply filter_In in Hx as [Hx1 Hx2]. apply filter_In in Hy as [Hy1 Hy2].
    apply indexed_In in Hx1, Hy1. apply HP2 in Hx2 as [_ Hx2].
    apply HP2 in Hy2 as [_ Hy2].
    unfold onAgent. simpl. apply byLoadPercentage_value;
      eauto using safeAgent_lookup, spare_hasRatio. }
  destruct (List.filter P2 (indexed l)) as [|x2 r2] eqn:E2; [destruct Hin0|].
  rewrite Hext. clear Hext.
  destruct (sort (onAgent byValue) (x2 :: r2)) as [|[i a] t] eqn:Es.
  { apply sort_nil in Es. discriminate. }
  pose proof (sort_head_In _ _ _ _ Es) as Hh. rewrite <- E2 in Hh.
  apply filter_In in Hh as [Hh1 Hh2]. apply indexed_In in Hh1. apply HP2 in Hh2.
  assert (Ha : In a l) by (apply list_elem_of_In, list_elem_of_lookup; eauto).
  exists i, a. split; [reflexivity|]. split; [exact Hh1|]. split; [exact Hh2|].
  split; [|split].
  - intros Hs. apply (Hnone a Ha). destruct Hh2. repeat split; auto.
  - intros Hs. apply (Hnone a Ha). destruct Hh2. repeat split; auto.
  - intros b Hb Hsb.
    assert (Hsafeb : safeAgent b).
    { rewrite Forall_forall in Hsafe. apply Hsafe. now apply list_elem_of_In. }
    apply list_elem_of_In, list_elem_of_lookup in Hb as [j Hj].
    assert (Hin : In (j, b) (x2 :: r2)).
    { rewrite <- E2. apply filter_In. split; [now apply indexed_In|now apply HP2]. }
    apply not_below_value;
      [eauto using safeAgent_lookup|apply spare_hasRatio, Hh2|exact Hsafeb
      |apply spare_hasRatio, Hsb|].
    refine (sort_head_least (onAgent byValue) _ _ _ _ _ _ Es (j, b) Hin).
    + intros x. apply byValue_refl.
    + intros x y z. apply byValue_trans.
    + intros x y. apply byValue_total.
Qed.

Lemma findBestAgentForTask_falls_back_to_lowest_ratio_witness :
  exists i a,
    findBestAgentForTask [sampleAgent "f" RUNNING frontend 4 2;
                          sampleAgent "b" RUNNING backend 4 1;
                          sampleAgent "g" RUNNING general 1 1] database = inr i /\
    [sampleAgent "f" RUNNING frontend 4 2;
     sampleAgent "b" RUNNING backend 4 1;
     sampleAgent "g" RUNNING general 1 1] !! i = Some a /\
    hasSpareCapacity a.
Proof.
  destruct (findBestAgentForTask_falls_back_to_lowest_ratio
              [sampleAgent "f" RUNNING frontend 4 2;
               sampleAgent "b" RUNNING backend 4 1;
               sampleAgent "g" RUNNING general 1 1] database)
    as (i & a & H1 & H2 & H3 & _).
  - repeat constructor.
  - intros b [<-|[<-|[<-|[]]]] [[H|H] [Hc _]]; simpl in *; try discriminate; lia.
  - exists (sampleAgent "b" RUNNING backend 4 1). split; [simpl; auto|].
    split; [reflexivity|simpl; lia].
  - exists i, a. auto.
Defined.

(** ** Registry operations *)

Lemma findFrom_alter (f : Agent -> Agent) (n : nat) (id : string)
    (l : list Agent) (j : nat) (a : Agent) :
  (forall x, agentId (f x) = agentId x) ->
  findFrom n id l = Some (j, a) ->
  findFrom n id (alter f (j - n)%nat l) = Some (j, f a).
Proof.
  intros Hf. revert n. induction l as [|b l IH]; intros n; simpl; [discriminate|].
  destruct (String.eqb (agentId b) id) eqn:E.
  - intros H. injection H as <- <-. rewrite Nat.sub_diag. simpl.
    now rewrite Hf, E.
  - intros H. pose proof (findFrom_Some _ _ _ _ _ H) as (Hle & _).
    replace (j - n)%nat with (S (j - S n)) by lia.
    change (alter f (S (j - S n)) (b :: l)) with (b :: alter f (j - S n)%nat l).
    simpl. rewrite E. now apply IH.
Qed.

Lemma find_alter (f : Agent -> Agent) (id : string) (l : list Agent)
    (i : nat) (a : Agent) :
  (forall x, agentId (f x) = agentId x) ->
  find id l = Some (i, a) -> find id (alter f i l) = Some (i, f a).
Proof.
  intros Hf H. unfold find in *. pose proof (findFrom_alter f 0 id l i a Hf H) as H'.
  now rewrite Nat.sub_0_r in H'.
Qed.

Lemma findFrom_app_fresh (n : nat) (id : string) (l : list Agent) (a : Agent) :
  (forall b, In b l -> agentId b <> id) -> agentId a = id ->
  findFrom n id (l ++ [a]) = Some ((n + length l)%nat, a).
Proof.
  revert n. induction l as [|b l IH]; intros n Hfresh Ha; simpl.
  - apply String.eqb_eq in Ha. rewrite Ha. now rewrite Nat.add_0_r.
  - assert (E : String.eqb (agentId b) id = false).
    { apply String.eqb_neq. apply Hfresh. now left. }
    rewrite E. rewrite IH; [f_equal; f_equal; lia| |exact Ha].
    intros c Hc. apply Hfresh. now right.
Qed.

Lemma decrement_increment (a : Agent) : decrement (increment a) = a.
Proof.
  destruct a as [i n s sp c ld]. unfold decrement, increment, withLoad. simpl.
  f_equal. lia.
Qed.

(** X7. Registering an agent under an identifier that no agent carries
    yet and looking that identifier up gives the new agent back: it is the
    last of the registry, STARTING, with no load and the capacity asked
    for; the agents registered before are where and what they were. *)
Theorem registerAgent_then_getAgent
    (id name : string) (s : AgentSpecialization) (cap : Z) (st : Orchestration) :
  (forall b, In b (agents st) -> agentId b <> id) ->
  let n := length (agents st) in
  let st' := snd (registerAgent id name s cap st) in
  fst (registerAgent id name s cap st) = inr n /\
  getAgent id st' = (inr n, st') /\
  agents st' !! n = Some (mkAgent id name STARTING s cap 0) /\
  (forall i, (i < n)%nat -> agents st' !! i = agents st !! i) /\
  length (agents st') = S n.
Proof.
  intros Hfresh n st'. subst n st'. unfold registerAgent, getAgent, bind, get. simpl.
  unfold find. rewrite (findFrom_app_fresh 0 id (agents st)); [|exact Hfresh|reflexivity].
  simpl. split; [reflexivity|]. split; [reflexivity|]. split; [|split].
  - rewrite lookup_app_r by lia. now rewrite Nat.sub_diag.
  - intros i Hi. now rewrite lookup_app_l.
  - rewrite length_app. simpl. lia.
Qed.

Lemma registerAgent_then_getAgent_witness :
  getAgent "b" (snd (registerAgent "b" "second" backend 3
                       (orchestrationOf [sampleAgent "a" RUNNING general 2 1])))
  = (inr 1%nat,
     snd (registerAgent "b" "second" backend 3
            (orchestrationOf [sampleAgent "a" RUNNING general 2 1]))).
Proof.
  refine (proj1 (proj2 (registerAgent_then_getAgent "b" "second" backend 3
    (orchestrationOf [sampleAgent "a" RUNNING general 2 1]) _))).
  intros b [<-|[]]. discriminate.
Defined.

(** X8. An explicit assignment that goes through, followed by
    [completeTask] for the same agent, restores the object exactly,
    provided the agent's load was not negative. *)
Theorem assignTask_then_completeTask
    (taskId taskId' id : string) (i : nat) (st st1 : Orchestration) :
  id <> EmptyString ->
  assignTask taskId (Some id) st = (inr i, st1) ->
  0 <= loadAt (agents st) i ->
  completeTask id taskId' st1 = (inr i, st).
Proof.
  intros Hid. rewrite (assignTask_explicit _ _ _ Hid).
  destruct (find id (agents st)) as [[j a]|] eqn:Ef; [|discriminate].
  destruct (capacity a <=? currentLoad a); [discriminate|].
  intros H Hload. injection H as <- <-.
  pose proof (find_Some _ _ _ _ Ef) as [Hj _].
  unfold loadAt in Hload. rewrite Hj in Hload. simpl in Hload.
  unfold completeTask, bind, get. simpl.
  rewrite (find_alter increment id _ j a) by auto. simpl.
  replace (0 <? currentLoad a + 1) with true by (symmetry; apply Z.ltb_lt; lia).
  simpl. unfold setAgents, saveAgents, ret. simpl.
  rewrite list_alter_alter_eq, list_alter_id by apply decrement_increment.
  destruct st; reflexivity.
Qed.

Lemma assignTask_then_completeTask_witness :
  completeTask "a" "t2"
    (snd (assignTask "t1" (Some "a")
            (orchestrationOf [sampleAgent "a" FAILED general 2 1])))
  = (inr 0%nat, orchestrationOf [sampleAgent "a" FAILED general 2 1]).
Proof.
  apply (assignTask_then_completeTask "t1" "t2" "a" 0
           (orchestrationOf [sampleAgent "a" FAILED general 2 1])).
  - discriminate.
  - reflexivity.
  - vm_compute. discriminate.
Defined.

Lemma totalLoad_app (l1 l2 : list Agent) :
  totalLoad (l1 ++ l2) = totalLoad l1 + totalLoad l2.
Proof. induction l1 as [|a l1 IH]; simpl; [reflexivity|]. rewrite IH. lia. Qed.

(** What a successful [assignTask] does to the registry, in either mode. *)
Lemma assignTask_inr (taskId : string) (agentId : option string)
    (st st' : Orchestration) (i : nat) :
  assignTask taskId agentId st = (inr i, st') ->
  exists a, agents st !! i = Some a /\ currentLoad a < capacity a /\
            st' = withAgents (alter increment i (agents st)) st.
Proof.
  destruct (truthy_cases agentId) as [Ht|(id & -> & Hid)].
  - rewrite (assignTask_auto _ _ _ Ht).
    destruct (tasks st taskId) as [task|]; [|discriminate].
    destruct (findBestAgentForTask _ _) as [e|j] eqn:E; [discriminate|].
    intros H. injection H as <- <-.
    apply findBestAgentForTask_inr in E as (a & Ha & _ & Hc). eauto.
  - rewrite (assignTask_explicit _ _ _ Hid).
    destruct (find id (agents st)) as [[j a]|] eqn:Ef; [|discriminate].
    destruct (capacity a <=? currentLoad a) eqn:Ec; [discriminate|].
    intros H. injection H as <- <-. apply find_Some in Ef as [Hj _].
    apply Z.leb_gt in Ec. eauto.
Qed.

Lemma assignTask_inl (taskId : string) (agentId : option string)
    (st st' : Orchestration) (e : Error) :
  assignTask taskId agentId st = (inl e, st') -> st' = st.
Proof.
  destruct (truthy_cases agentId) as [Ht|(id & -> & Hid)].
  - rewrite (assignTask_auto _ _ _ Ht).
    destruct (tasks st taskId) as [task|]; [|congruence].
    destruct (findBestAgentForTask _ _); congruence.
  - rewrite (assignTask_explicit _ _ _ Hid).
    destruct (find id (agents st)) as [[j a]|]; [|congruence].
    destruct (capacity a <=? currentLoad a); congruence.
Qed.

Lemma perform_noneOverloaded (op : Operation) (st : Orchestration) :
  admissible op -> noneOverloaded (agents st) ->
  noneOverloaded (agents (perform op st)).
Proof.
  intros Hop Hno.
  destruct op as [id name s cap|taskId agentId|agentId taskId| |id s]; simpl.
  - apply Forall_app. split; [exact Hno|]. constructor; [|constructor].
    simpl in *. lia.
  - destruct (assignTask taskId agentId st) as [[e|i] st'] eqn:E; simpl.
    + now rewrite (assignTask_inl _ _ _ _ _ E).
    + apply assignTask_inr in E as (a & Ha & Hc & ->). simpl.
      apply Forall_alter; [exact Hno|]. intros x Hx _.
      assert (x = a) by congruence. subst x. simpl. lia.
  - unfold completeTask, bind, get.
    destruct (find agentId (agents st)) as [[i agent]|]; [|exact Hno].
    destruct (0 <? currentLoad agent); simpl; [|exact Hno].
    apply Forall_alter; [exact Hno|]. intros x _ Hx. simpl. lia.
  - now rewrite (balanceLoad_none_overloaded st Hno).
  - unfold updateAgentStatus, bind, get.
    destruct (find id (agents st)) as [[i agent]|]; [|exact Hno].
    simpl. apply Forall_alter; [exact Hno|]. intros x _ Hx. exact Hx.
Qed.

(** X9. The operations of the object never overload an agent: from a
    registry in which no load exceeds its capacity, every sequence of
    [registerAgent] (with a positive capacity), [assignTask],
    [completeTask], [balanceLoad] and [updateAgentStatus] calls leads to
    such a registry again, on which [balanceLoad] returns at once without
    moving anything. *)
Theorem operations_never_overload (ops : list Operation) (st : Orchestration) :
  noneOverloaded (agents st) ->
  Forall admissible ops ->
  noneOverloaded (agents (performAll ops st)) /\
  balanceLoad (performAll ops st) = (inr tt, performAll ops st).
Proof.
  intros Hno Hops.
  assert (H : noneOverloaded (agents (performAll ops st))).
  { revert st Hno. induction Hops as [|op ops Hop Hops IH]; intros st Hno; [exact Hno|].
    simpl. apply IH. now apply perform_noneOverloaded. }
  split; [exact H|]. now apply balanceLoad_none_overloaded.
Qed.

Lemma operations_never_overload_witness :
  noneOverloaded
    (agents (performAll
       [RegisterAgent "c" "c" database 1; UpdateAgentStatus "c" RUNNING;
        AssignTask "t1" None; AssignTask "t1" None; AssignTask "t1" (Some "c");
        CompleteTask "a" "t1"; BalanceLoad]
       (orchestrationOf [sampleAgent "a" RUNNING general 1 0]))).
Proof.
  apply (operations_never_overload
    [RegisterAgent "c" "c" database 1; UpdateAgentStatus "c" RUNNING;
     AssignTask "t1" None; AssignTask "t1" None; AssignTask "t1" (Some "c");
     CompleteTask "a" "t1"; BalanceLoad]
    (orchestrationOf [sampleAgent "a" RUNNING general 1 0])).
  - repeat constructor; simpl; lia.
  - repeat constructor; simpl; lia.
Defined.

Lemma perform_totalLoad (op : Operation) (st : Orchestration) :
  totalLoad (agents (perform op st)) = totalLoad (agents st) + loadDelta op st.
Proof.
  destruct op as [id name s cap|taskId agentId|agentId taskId| |id s]; simpl.
  - rewrite totalLoad_app. simpl. lia.
  - destruct (assignTask taskId agentId st) as [[e|i] st'] eqn:E; simpl.
    + rewrite (assignTask_inl _ _ _ _ _ E). lia.
    + apply assignTask_inr in E as (a & Ha & _ & ->). simpl.
      rewrite (totalLoad_alter _ _ _ _ Ha). simpl. lia.
  - unfold completeTask, bind, get.
    destruct (find agentId (agents st)) as [[i agent]|] eqn:Ef; [|simpl; lia].
    apply find_Some in Ef as [Hi _].
    destruct (0 <? currentLoad agent); simpl; [|lia].
    rewrite (totalLoad_alter _ _ _ _ Hi). simpl. lia.
  - rewrite balanceLoad_totalLoad. lia.
  - unfold updateAgentStatus, bind, get.
    destruct (find id (agents st)) as [[i agent]|] eqn:Ef; [|simpl; lia].
    apply find_Some in Ef as [Hi _]. simpl.
    rewrite (totalLoad_alter _ _ _ _ Hi). simpl. lia.
Qed.

(** X10. Load accounting: over any sequence of calls the sum of
    [currentLoad] changes by one unit up for each [assignTask] that goes
    through and one unit down for each [completeTask] on an agent that
    carries load; failed calls, completions on an idle or unknown agent,
    [registerAgent], [updateAgentStatus] and [balanceLoad] leave the sum
    as it is. *)
Theorem operations_account_for_load (ops : list Operation) (st : Orchestration) :
  totalLoad (agents (performAll ops st)) = totalLoad (agents st) + totalDelta ops st.
Proof.
  revert st. induction ops as [|op ops IH]; intros st; simpl; [lia|].
  change (fold_left (fun s op => perform op s) ops (perform op st))
    with (performAll ops (perform op st)).
  rewrite IH, perform_totalLoad. lia.
Qed.

(** X11. An agent whose status is set to anything but RUNNING is out of
    automatic assignment: after a successful [updateAgentStatus] to such
    a status, no automatic [assignTask] returns that agent.  The update
    itself changes that agent's status and nothing else. *)
Theorem updateAgentStatus_gates_auto_assignment
    (id : string) (s : AgentStatusType) (i : nat) (st st1 : Orchestration) :
  updateAgentStatus id s st = (inr i, st1) ->
  (exists a, agents st !! i = Some a /\ agentId a = id /\
             st1 = withAgents (alter (withStatus s) i (agents st)) st /\
             agents st1 !! i = Some (withStatus s a))
  /\ (s <> RUNNING ->
      forall taskId agentId j st2,
        truthy agentId = None ->
        assignTask taskId agentId st1 = (inr j, st2) -> j <> i).
Proof.
  unfold updateAgentStatus, bind, get.
  destruct (find id (agents st)) as [[k a]|] eqn:Ef; [|discriminate].
  simpl. intros H. injection H as <- <-. apply find_Some in Ef as [Hk Hid].
  assert (Hk1 : alter (withStatus s) k (agents st) !! k = Some (withStatus s a)).
  { rewrite list_lookup_alter_eq, Hk. reflexivity. }
  split.
  - exists a. repeat split; auto.
  - intros Hs taskId agentId j st2 Ht H.
    rewrite (assignTask_auto _ _ _ Ht) in H. simpl in H.
    destruct (tasks st taskId) as [task|]; [|discriminate].
    destruct (findBestAgentForTask _ _) as [e|j'] eqn:E; [discriminate|].
    injection H as <- _.
    apply findBestAgentForTask_inr in E as (b & Hb & Hr & _).
    intros ->. rewrite Hk1 in Hb. injection Hb as <-. simpl in Hr. contradiction.
Qed.

Lemma updateAgentStatus_gates_auto_assignment_witness :
  fst (assignTask "t1" None
         (snd (updateAgentStatus "d" DISCONNECTED
                 (orchestrationOf [sampleAgent "g" RUNNING general 4 0;
                                   sampleAgent "d" RUNNING database 4 0]))))
  = inr 0%nat /\ 0%nat <> 1%nat.
Proof.
  split; [reflexivity|].
  refine (proj2 (updateAgentStatus_gates_auto_assignment "d" DISCONNECTED 1
    (orchestrationOf [sampleAgent "g" RUNNING general 4 0;
                      sampleAgent "d" RUNNING database 4 0]) _ eq_refl) _
    "t1" None 0%nat
    (snd (assignTask "t1" None
         (snd (updateAgentStatus "d" DISCONNECTED
                 (orchestrationOf [sampleAgent "g" RUNNING general 4 0;
                                   sampleAgent "d" RUNNING database 4 0])))))
    eq_refl eq_refl).
  discriminate.
Defined.

(** * Further properties of the classifier *)

Lemma AgentSpecialization_eqb_eq (a b : AgentSpecialization) :
  AgentSpecialization_eqb a b = true <-> a = b.
Proof. destruct a, b; simpl; split; congruence. Qed.

Lemma getPatterns_addPatterns
    (k : AgentSpecialization) (patterns : list string)
    (table : AgentSpecializationManager.PatternTable) :
  AgentSpecializationManager.getPatterns k
    (AgentSpecializationManager.addPatterns k patterns table)
  = (AgentSpecializationManager.getPatterns k table ++ patterns)%list
  /\ forall k', k' <> k ->
       AgentSpecializationManager.getPatterns k'
         (AgentSpecializationManager.addPatterns k patterns table)
       = AgentSpecializationManager.getPatterns k' table.
Proof.
  induction table as [|[k0 ps0] table [IH1 IH2]]; simpl.
  - destruct k; simpl; split; try reflexivity;
      intros k' Hk'; destruct k'; simpl; congruence.
  - destruct (AgentSpecialization_eqb k k0) eqn:E; simpl.
    + rewrite E. split; [reflexivity|]. intros k' Hk'.
      apply AgentSpecialization_eqb_eq in E. subst k0.
      destruct (AgentSpecialization_eqb k' k) eqn:E'; [|reflexivity].
      apply AgentSpecialization_eqb_eq in E'. contradiction.
    + rewrite E. split; [exact IH1|]. intros k' Hk'.
      destruct (AgentSpecialization_eqb k' k0); [reflexivity|]. now apply IH2.
Qed.


(** X12. [addPatterns] appends to the patterns of its specialization and
    to nothing else: [getPatterns] for that specialization gives the old
    patterns followed by the new ones, in order, and for any other
    specialization what it gave before; a specialization without an entry
    (such as general in the default table) gets one. *)
Theorem addPatterns_then_getPatterns
    (k : AgentSpecialization) (patterns : list string)
    (table : AgentSpecializationManager.PatternTable) :
  AgentSpecializationManager.getPatterns k
    (AgentSpecializationManager.addPatterns k patterns table)
  = (AgentSpecializationManager.getPatterns k table ++ patterns)%list
  /\ forall k', k' <> k ->
       AgentSpecializationManager.getPatterns k'
         (AgentSpecializationManager.addPatterns k patterns table)
       = AgentSpecializationManager.getPatterns k' table.
Proof. apply getPatterns_addPatterns. Qed.

Section Scoring.
Import AgentSpecializationManager JsString.

Lemma bump_keys (k : AgentSpecialization) (n : Z) (sc : Scores) :
  map fst (bump k n sc) = map fst sc.
Proof.
  induction sc as [|[k' v] sc IH]; simpl; [reflexivity|].
  destruct (AgentSpecialization_eqb k k'); simpl; [reflexivity|now rewrite IH].
Qed.

Lemma scoreOf_bump (k k' : AgentSpecialization) (n : Z) (sc : Scores) :
  In k' (map fst sc) ->
  scoreOf k (bump k' n sc) =
  scoreOf k sc + (if AgentSpecialization_eqb k k' then n else 0).
Proof.
  induction sc as [|[k0 v] sc IH]; simpl; [intros []|].
  intros Hin. destruct (AgentSpecialization_eqb k' k0) eqn:E0; simpl.
  - apply AgentSpecialization_eqb_eq in E0. subst k0.
    destruct (AgentSpecialization_eqb k k'); lia.
  - destruct Hin as [->|Hin].
    { assert (AgentSpecialization_eqb k' k' = true) by now apply AgentSpecialization_eqb_eq.
      congruence. }
    destruct (AgentSpecialization_eqb k k0) eqn:E1.
    + apply AgentSpecialization_eqb_eq in E1. subst k0.
      destruct (AgentSpecialization_eqb k k') eqn:E2; [|lia].
      apply AgentSpecialization_eqb_eq in E2. subst k'.
      assert (AgentSpecialization_eqb k k = true) by now apply AgentSpecialization_eqb_eq.
      congruence.
    + now apply IH.
Qed.

Lemma initialScores_allScored : allScored initialScores.
Proof. intros k. destruct k; simpl; auto 6. Qed.

Lemma scoreDescriptionPatterns_spec (d : string) (k k' : AgentSpecialization)
    (ps : list string) (sc : Scores) :
  allScored sc ->
  allScored (scoreDescriptionPatterns d k' ps sc) /\
  scoreOf k (scoreDescriptionPatterns d k' ps sc) =
  scoreOf k sc + (if AgentSpecialization_eqb k k' then descriptionHits d ps else 0).
Proof.
  revert sc. induction ps as [|p ps IH]; intros sc Hall; simpl.
  - split; [exact Hall|]. destruct (AgentSpecialization_eqb k k'); lia.
  - destruct (includes d (toLowerCase p)).
    + destruct (IH (bump k' 1 sc)) as [H1 H2].
      { intros k0. rewrite bump_keys. apply Hall. }
      split; [exact H1|]. rewrite H2, scoreOf_bump by apply Hall.
      destruct (AgentSpecialization_eqb k k'); lia.
    + destruct (IH sc Hall) as [H1 H2]. split; [exact H1|]. rewrite H2.
      destruct (AgentSpecialization_eqb k k'); lia.
Qed.

Lemma scoreFilePatterns_spec (f : string) (k k' : AgentSpecialization)
    (ps : list string) (sc : Scores) :
  allScored sc ->
  allScored (scoreFilePatterns f k' ps sc) /\
  scoreOf k (scoreFilePatterns f k' ps sc) =
  scoreOf k sc + (if AgentSpecialization_eqb k k' then filePoints f ps else 0).
Proof.
  revert sc. induction ps as [|p ps IH]; intros sc Hall; simpl.
  - split; [exact Hall|]. destruct (AgentSpecialization_eqb k k'); lia.
  - assert (Hb : forall n, allScored (bump k' n sc)).
    { intros n k0. rewrite bump_keys. apply Hall. }
    destruct (startsWith p "*.").
    + destruct (endsWith f (substring1 p)).
      * destruct (IH _ (Hb 2)) as [H1 H2]. split; [exact H1|].
        rewrite H2, scoreOf_bump by apply Hall.
        destruct (AgentSpecialization_eqb k k'); lia.
      * destruct (IH sc Hall) as [H1 H2]. split; [exact H1|]. rewrite H2.
        destruct (AgentSpecialization_eqb k k'); lia.
    + destruct (includes f (toLowerCase p)).
      * destruct (IH _ (Hb 1)) as [H1 H2]. split; [exact H1|].
        rewrite H2, scoreOf_bump by apply Hall.
        destruct (AgentSpecialization_eqb k k'); lia.
      * destruct (IH sc Hall) as [H1 H2]. split; [exact H1|]. rewrite H2.
        destruct (AgentSpecialization_eqb k k'); lia.
Qed.

Lemma getPatterns_absent (k : AgentSpecialization) (table : PatternTable) :
  ~ In k (map fst table) -> getPatterns k table = [].
Proof.
  induction table as [|[k' ps] table IH]; simpl; [reflexivity|].
  intros H. destruct (AgentSpecialization_eqb k k') eqn:E.
  - apply AgentSpecialization_eqb_eq in E. subst k'. exfalso. auto.
  - apply IH. auto.
Qed.

(** The loop over the entries of the table, for a per-entry scoring
    function that adds up per key. *)
Lemma entries_spec
    (step : AgentSpecialization -> list string -> Scores -> Scores)
    (points : list string -> Z)
    (loop : PatternTable -> Scores -> Scores) :
  (forall sc, loop [] sc = sc) ->
  (forall k ps rest sc, loop ((k, ps) :: rest) sc = loop rest (step k ps sc)) ->
  points [] = 0 ->
  (forall k k' ps sc, allScored sc ->
     allScored (step k' ps sc) /\
     scoreOf k (step k' ps sc) =
     scoreOf k sc + (if AgentSpecialization_eqb k k' then points ps else 0)) ->
  forall table sc k, NoDup (map fst table) -> allScored sc ->
    allScored (loop table sc) /\
    scoreOf k (loop table sc) = scoreOf k sc + points (getPatterns k table).
Proof.
  intros Hnil Hcons Hp0 Hstep table.
  induction table as [|[k' ps] table IH]; intros sc k Hnd Hall.
  - rewrite Hnil. simpl. split; [exact Hall|]. lia.
  - rewrite Hcons. simpl in Hnd. apply NoDup_cons in Hnd as [Hk' Hnd].
    destruct (Hstep k k' ps sc Hall) as [Hall1 Hs1].
    destruct (IH (step k' ps sc) k Hnd Hall1) as [Hall2 Hs2].
    split; [exact Hall2|]. rewrite Hs2, Hs1. simpl.
    destruct (AgentSpecialization_eqb k k') eqn:E; [|lia].
    apply AgentSpecialization_eqb_eq in E. subst k'.
    rewrite getPatterns_absent, Hp0; [lia|]. now rewrite <- list_elem_of_In.
Qed.

Lemma finalScores_spec (table : PatternTable) (d : string) (files : list string)
    (k : AgentSpecialization) :
  NoDup (map fst table) ->
  allScored (finalScores table d files) /\
  scoreOf k (finalScores table d files) = expectedScore table k d files.
Proof.
  intros Hnd. unfold finalScores, expectedScore, scoreDescription.
  destruct (entries_spec (scoreDescriptionPatterns (toLowerCase d))
              (descriptionHits (toLowerCase d))
              (scoreDescriptionEntries (toLowerCase d))) with
    (table := table) (sc := initialScores) (k := k) as [Hall Hs]; auto.
  { intros. apply scoreDescriptionPatterns_spec; auto. }
  { apply initialScores_allScored. }
  assert (Hk0 : scoreOf k initialScores = 0) by (destruct k; reflexivity).
  rewrite Hk0, Z.add_0_l in Hs.
  set (sc0 := scoreDescriptionEntries (toLowerCase d) table initialScores) in *.
  clearbody sc0. rewrite <- Hs. clear Hs Hk0.
  revert sc0 Hall. induction files as [|f files IH]; intros sc0 Hall; simpl.
  - split; [exact Hall|]. lia.
  - destruct (entries_spec (scoreFilePatterns (toLowerCase f))
                (filePoints (toLowerCase f))
                (scoreFileEntries (toLowerCase f))) with
      (table := table) (sc := sc0) (k := k) as [Hall1 Hs1]; auto.
    { intros. apply scoreFilePatterns_spec; auto. }
    destruct (IH _ Hall1) as [Hall2 Hs2]. split; [exact Hall2|].
    rewrite Hs2, Hs1. lia.
Qed.

End Scoring.

Section Classifier.
Import AgentSpecializationManager JsString.

Lemma bump_nonneg (k : AgentSpecialization) (n : Z) (sc : Scores) :
  0 <= n -> Forall (fun p => 0 <= snd p) sc ->
  Forall (fun p => 0 <= snd p) (bump k n sc).
Proof.
  intros Hn. induction 1 as [|[k' v] sc Hv Hsc IH]; simpl; [constructor|].
  destruct (AgentSpecialization_eqb k k'); constructor; simpl in *; auto; lia.
Qed.

Lemma scoreDescriptionEntries_nonneg (d : string) (table : PatternTable) (sc : Scores) :
  Forall (fun p => 0 <= snd p) sc ->
  Forall (fun p => 0 <= snd p) (scoreDescriptionEntries d table sc).
Proof.
  revert sc. induction table as [|[k ps] table IH]; intros sc H; simpl; [exact H|].
  apply IH. clear IH. revert sc H. induction ps as [|p ps IHp]; intros sc H; simpl;
    [exact H|].
  apply IHp. destruct (includes d (toLowerCase p)); [|exact H].
  apply bump_nonneg; [lia|exact H].
Qed.

Lemma scoreFileEntries_nonneg (f : string) (table : PatternTable) (sc : Scores) :
  Forall (fun p => 0 <= snd p) sc ->
  Forall (fun p => 0 <= snd p) (scoreFileEntries f table sc).
Proof.
  revert sc. induction table as [|[k ps] table IH]; intros sc H; simpl; [exact H|].
  apply IH. clear IH. revert sc H. induction ps as [|p ps IHp]; intros sc H; simpl;
    [exact H|].
  apply IHp. destruct (startsWith p "*.").
  - destruct (endsWith f (substring1 p)); [|exact H]. apply bump_nonneg; [lia|exact H].
  - destruct (includes f (toLowerCase p)); [|exact H]. apply bump_nonneg; [lia|exact H].
Qed.

Lemma finalScores_nonneg (table : PatternTable) (d : string) (files : list string) :
  Forall (fun p => 0 <= snd p) (finalScores table d files).
Proof.
  unfold finalScores, scoreDescription.
  assert (H0 : Forall (fun p : AgentSpecialization * Z => 0 <= snd p)
                 (scoreDescriptionEntries (toLowerCase d) table initialScores)).
  { apply scoreDescriptionEntries_nonneg. repeat constructor; simpl; lia. }
  revert H0. generalize (scoreDescriptionEntries (toLowerCase d) table initialScores).
  induction files as [|f files IH]; intros sc H; simpl; [exact H|].
  apply IH. now apply scoreFileEntries_nonneg.
Qed.

Lemma pickBest_spec (entries : Scores) (maxScore : Z) (best : AgentSpecialization) :
  let r := pickBest entries maxScore best in
  (r = best /\ forall p, In p entries -> snd p <= maxScore) \/
  (exists pre v post,
     entries = (pre ++ (r, v) :: post)%list /\ maxScore < v /\
     (forall p, In p pre -> snd p < v) /\
     (forall p, In p post -> snd p <= v)).
Proof.
  revert maxScore best. induction entries as [|[k score] rest IH];
    intros maxScore best; simpl.
  - left. split; [reflexivity|]. intros p [].
  - destruct (maxScore <? score) eqn:E.
    + apply Z.ltb_lt in E. right.
      destruct (IH score k) as [[Hr Hall]|(pre & v & post & Hrest & Hlt & Hpre & Hpost)].
      * exists [], score, rest. rewrite Hr. split; [reflexivity|]. split; [exact E|].
        split; [intros p []|exact Hall].
      * exists ((k, score) :: pre), v, post. split; [simpl; now f_equal|].
        split; [lia|]. split; [|exact Hpost].
        intros p [<-|Hp]; [simpl; lia|auto].
    + apply Z.ltb_ge in E.
      destruct (IH maxScore best)
        as [[Hr Hall]|(pre & v & post & Hrest & Hlt & Hpre & Hpost)].
      * left. split; [exact Hr|]. intros p [<-|Hp]; [simpl; lia|auto].
      * right. exists ((k, score) :: pre), v, post. split; [simpl; now f_equal|].
        split; [exact Hlt|]. split; [|exact Hpost].
        intros p [<-|Hp]; [simpl; lia|auto].
Qed.

(** X13. The score a specialization ends with is the number of its
    patterns found in the lower-cased description, plus, for every file,
    2 for each of its extension patterns the lower-cased file name ends
    with and 1 for each of its other patterns found in the name; this
    holds for any pattern table (a [Map]: the keys are distinct), any
    description and any files. *)
Theorem finalScores_counts_pattern_matches
    (table : PatternTable) (d : string) (files : list string)
    (k : AgentSpecialization) :
  NoDup (map fst table) ->
  scoreOf k (finalScores table d files) = expectedScore table k d files.
Proof. intros Hnd. now apply finalScores_spec. Qed.

Lemma finalScores_counts_pattern_matches_witness :
  scoreOf database (finalScores defaultSpecializations
                      "Add an INDEX" ["Schema.SQL"; "notes.txt"])
  = expectedScore defaultSpecializations database
      "Add an INDEX" ["Schema.SQL"; "notes.txt"].
Proof.
  apply (finalScores_counts_pattern_matches defaultSpecializations
           "Add an INDEX" ["Schema.SQL"; "notes.txt"] database).
  simpl. apply NoDup_cons_2; [|apply NoDup_cons_2; [|apply NoDup_cons_2;
    [|apply NoDup_cons_2; [|apply NoDup_nil_2]]]];
  intros H; apply list_elem_of_In in H; simpl in H; intuition discriminate.
Defined.

(** X14. [determineSpecialization] returns the specialization with the
    strictly highest score, the first one in the order of the scores
    (frontend, backend, database, devops, general) on a tie: every
    specialization before it scored strictly less, every one after it at
    most as much.  It returns general when every score is 0. *)
Theorem determineSpecialization_picks_first_highest
    (table : PatternTable) (d : string) (files : list string) :
  let sc := finalScores table d files in
  let r := determineSpecialization table d files in
  (r = general /\ forall p, In p sc -> snd p = 0) \/
  (exists pre v post,
     sc = (pre ++ (r, v) :: post)%list /\ 0 < v /\
     (forall p, In p pre -> snd p < v) /\
     (forall p, In p post -> snd p <= v)).
Proof.
  intros sc r. subst r. unfold determineSpecialization. fold sc.
  destruct (pickBest_spec sc 0 general) as [[Hr Hall]|H]; [left|right; exact H].
  split; [exact Hr|]. intros p Hp.
  pose proof (finalScores_nonneg table d files) as Hnn. fold sc in Hnn.
  rewrite Forall_forall in Hnn. apply list_elem_of_In in Hp as Hp'.
  specialize (Hnn p Hp'). specialize (Hall p Hp). simpl in Hnn. lia.
Qed.
End Classifier.

Section ClassifierPatterns.
Import AgentSpecializationManager JsString.

Lemma addPatterns_keys (k : AgentSpecialization) (ps : list string)
    (table : PatternTable) (k' : AgentSpecialization) :
  In k' (map fst (addPatterns k ps table)) <-> In k' (map fst table) \/ k' = k.
Proof.
  induction table as [|[k0 ps0] table IH]; simpl.
  - intuition.
  - destruct (AgentSpecialization_eqb k k0) eqn:E; simpl.
    + apply AgentSpecialization_eqb_eq in E. subst k0. intuition.
    + rewrite IH. intuition.
Qed.

Lemma addPatterns_NoDup (k : AgentSpecialization) (ps : list string)
    (table : PatternTable) :
  NoDup (map fst table) -> NoDup (map fst (addPatterns k ps table)).
Proof.
  induction table as [|[k0 ps0] table IH]; simpl; intros H.
  - apply NoDup_cons_2; [|apply NoDup_nil_2]. intros Hin.
    apply list_elem_of_In in Hin. destruct Hin.
  - apply NoDup_cons in H as [Hk0 H].
    destruct (AgentSpecialization_eqb k k0) eqn:E; simpl.
    + apply NoDup_cons_2; auto.
    + apply NoDup_cons_2; [|auto]. rewrite list_elem_of_In, addPatterns_keys.
      rewrite list_elem_of_In in Hk0. intros [Hin | ->]; [auto|].
      assert (AgentSpecialization_eqb k k = true) by now apply AgentSpecialization_eqb_eq.
      congruence.
Qed.

Lemma descriptionHits_app (d : string) (ps qs : list string) :
  descriptionHits d (ps ++ qs) = descriptionHits d ps + descriptionHits d qs.
Proof. induction ps as [|p ps IH]; simpl; [reflexivity|]. rewrite IH. lia. Qed.

Lemma filePoints_app (f : string) (ps qs : list string) :
  filePoints f (ps ++ qs) = filePoints f ps + filePoints f qs.
Proof. induction ps as [|p ps IH]; simpl; [reflexivity|]. rewrite IH. lia. Qed.

Lemma descriptionHits_nonneg (d : string) (ps : list string) :
  0 <= descriptionHits d ps.
Proof.
  induction ps as [|p ps IH]; simpl; [lia|].
  destruct (includes d (toLowerCase p)); lia.
Qed.

Lemma filePoints_nonneg (f : string) (ps : list string) : 0 <= filePoints f ps.
Proof.
  induction ps as [|p ps IH]; simpl; [lia|].
  destruct (startsWith p "*."); [destruct (endsWith f (substring1 p))|
                                 destruct (includes f (toLowerCase p))]; lia.
Qed.

Lemma filesPoints_nonneg (ps : list string) (files : list string) :
  0 <= fold_right (fun file acc => filePoints (toLowerCase file) ps + acc) 0 files.
Proof.
  induction files as [|f files IH]; simpl; [lia|].
  pose proof (filePoints_nonneg (toLowerCase f) ps). lia.
Qed.

(** X15. Adding patterns to a specialization leaves the score of every
    other specialization as it was, for any description and files, and
    raises the score of that specialization by what the new patterns match
    on their own; it never lowers a score. *)
Theorem addPatterns_raises_only_its_own_score
    (table : PatternTable) (k : AgentSpecialization) (ps : list string)
    (d : string) (files : list string) :
  NoDup (map fst table) ->
  let before := finalScores table d files in
  let after := finalScores (addPatterns k ps table) d files in
  (forall k', k' <> k -> scoreOf k' after = scoreOf k' before) /\
  scoreOf k after =
    scoreOf k before
    + descriptionHits (toLowerCase d) ps
    + fold_right (fun file acc => filePoints (toLowerCase file) ps + acc) 0 files /\
  scoreOf k before <= scoreOf k after.
Proof.
  intros Hnd before after. subst before after.
  pose proof (addPatterns_NoDup k ps table Hnd) as Hnd'.
  destruct (getPatterns_addPatterns k ps table) as [Hk Hother].
  assert (Hexact : scoreOf k (finalScores (addPatterns k ps table) d files) =
    scoreOf k (finalScores table d files)
    + descriptionHits (toLowerCase d) ps
    + fold_right (fun file acc => filePoints (toLowerCase file) ps + acc) 0 files).
  { rewrite (proj2 (finalScores_spec _ d files k Hnd')).
    rewrite (proj2 (finalScores_spec _ d files k Hnd)).
    unfold expectedScore. rewrite Hk, descriptionHits_app.
    induction files as [|f files IH]; simpl; [lia|].
    rewrite filePoints_app. lia. }
  split; [|split; [exact Hexact|]].
  - intros k' Hk'.
    rewrite (proj2 (finalScores_spec _ d files k' Hnd')).
    rewrite (proj2 (finalScores_spec _ d files k' Hnd)).
    unfold expectedScore. now rewrite (Hother k' Hk').
  - rewrite Hexact. pose proof (descriptionHits_nonneg (toLowerCase d) ps).
    pose proof (filesPoints_nonneg ps files). lia.
Qed.

Lemma addPatterns_raises_only_its_own_score_witness :
  scoreOf frontend (finalScores defaultSpecializations "style the page" ["a.less"])
  <= scoreOf frontend
       (finalScores (addPatterns frontend ["*.less"; "style"] defaultSpecializations)
          "style the page" ["a.less"]).
Proof.
  refine (proj2 (proj2 (addPatterns_raises_only_its_own_score
    defaultSpecializations frontend ["*.less"; "style"] "style the page" ["a.less"] _))).
  simpl. apply NoDup_cons_2; [|apply NoDup_cons_2; [|apply NoDup_cons_2;
    [|apply NoDup_cons_2; [|apply NoDup_nil_2]]]];
  intros H; apply list_elem_of_In in H; simpl in H; intuition discriminate.
Defined.

Lemma lowerChar_idempotent (c : ascii) : lowerChar (lowerChar c) = lowerChar c.
Proof.
  destruct c as [[] [] [] [] [] [] [] []]; reflexivity.
Qed.

Lemma toLowerCase_idempotent (s : string) : toLowerCase (toLowerCase s) = toLowerCase s.
Proof.
  induction s as [|c s IH]; simpl; [reflexivity|].
  now rewrite lowerChar_idempotent, IH.
Qed.

(** X16. The classifier ignores letter case in the description and in the
    file names: lower-casing them beforehand changes no score and not the
    result. *)
Theorem determineSpecialization_ignores_case
    (table : PatternTable) (d : string) (files : list string) :
  finalScores table (toLowerCase d) (map toLowerCase files)
    = finalScores table d files /\
  determineSpecialization table (toLowerCase d) (map toLowerCase files)
    = determineSpecialization table d files.
Proof.
  assert (H : finalScores table (toLowerCase d) (map toLowerCase files)
              = finalScores table d files).
  { unfold finalScores, scoreDescription. rewrite toLowerCase_idempotent.
    generalize (scoreDescriptionEntries (toLowerCase d) table initialScores).
    induction files as [|f files IH]; intros sc; simpl; [reflexivity|].
    now rewrite toLowerCase_idempotent, IH. }
  split; [exact H|]. unfold determineSpecialization. now rewrite H.
Qed.
End ClassifierPatterns.

(** * Properties of the load distribution *)

Section SortedFacts.
Context {A : Type} (compareFn : A -> A -> comparison).
Hypothesis compare_trans :
  forall x y z, compareFn x y <> Gt -> compareFn y z <> Gt -> compareFn x z <> Gt.
Hypothesis compare_total :
  forall x y, compareFn x y = Gt -> compareFn y x <> Gt.

Let notAfter (x y : A) : Prop := compareFn x y <> Gt.

Lemma insertSorted_sorted (x : A) (l : list A) :
  StronglySorted notAfter l -> StronglySorted notAfter (insertSorted compareFn x l).
Proof.
  induction 1 as [|y l Hl IH Hy]; simpl.
  - constructor; constructor.
  - destruct (compareFn x y) eqn:E.
    + constructor; [constructor; assumption|]. constructor; [unfold notAfter; congruence|].
      eapply Forall_impl; [exact Hy|]. intros z Hz.
      apply compare_trans with y; [congruence|exact Hz].
    + constructor; [constructor; assumption|]. constructor; [unfold notAfter; congruence|].
      eapply Forall_impl; [exact Hy|]. intros z Hz.
      apply compare_trans with y; [congruence|exact Hz].
    + constructor; [exact IH|].
      apply Forall_forall. intros z Hz. apply list_elem_of_In, insertSorted_In in Hz.
      destruct Hz as [->|Hz]; [now apply compare_total|].
      rewrite Forall_forall in Hy. apply Hy. now apply list_elem_of_In.
Qed.

Lemma sort_sorted (l : list A) : StronglySorted notAfter (sort compareFn l).
Proof.
  induction l as [|x l IH]; simpl; [constructor|]. now apply insertSorted_sorted.
Qed.
End SortedFacts.

Lemma StronglySorted_weaken {A : Type} (R R' : A -> A -> Prop) (l : list A) :
  (forall x y, R x y -> R' x y) -> StronglySorted R l -> StronglySorted R' l.
Proof.
  intros HR. induction 1 as [|x l Hl IH Hx]; constructor; [exact IH|].
  eapply Forall_impl; [exact Hx|]. intros y. apply HR.
Qed.

Lemma fold_left_totalLoad (l : list Agent) (acc : Z) :
  fold_left (fun sum agent => sum + currentLoad agent) l acc = acc + totalLoad l.
Proof.
  revert acc. induction l as [|a l IH]; intros acc; simpl; [lia|]. rewrite IH. lia.
Qed.

Lemma fold_left_totalCapacity (l : list Agent) (acc : Z) :
  fold_left (fun sum agent => sum + capacity agent) l acc = acc + totalCapacity l.
Proof.
  revert acc. induction l as [|a l IH]; intros acc; simpl; [lia|]. rewrite IH. lia.
Qed.

(** X17. The totals that [getLoadDistribution] reports are the same
    before and after a [balanceLoad] pass, whether the pass returned or
    threw: total capacity, total load and overall load percentage. *)
Theorem balanceLoad_keeps_distribution_totals (st : Orchestration) :
  let before := getLoadDistribution (agents st) in
  let after := getLoadDistribution (agents (snd (balanceLoad st))) in
  distTotalCapacity after = distTotalCapacity before /\
  distTotalLoad after = distTotalLoad before /\
  distLoadPercentage after = distLoadPercentage before /\
  length (distAgents after) = length (distAgents before).
Proof.
  pose proof (balanceLoad_totalLoad st) as Hsum.
  pose proof (balanceLoad_unloaded st) as Hun.
  pose proof (totalCapacity_unloaded _ _ Hun) as Hcap.
  simpl. rewrite !fold_left_totalLoad, !fold_left_totalCapacity, Hsum, Hcap.
  repeat split.
  rewrite !(Permutation_length (sort_Permutation _ _)), !length_map.
  apply (f_equal (@length Agent)) in Hun. now rewrite !length_map in Hun.
Qed.

Lemma StronglySorted_weaken_In {A : Type} (R R' : A -> A -> Prop) (l : list A) :
  (forall x y, In x l -> In y l -> R x y -> R' x y) ->
  StronglySorted R l -> StronglySorted R' l.
Proof.
  intros HR Hs. induction Hs as [|x l Hl IH Hx]; constructor.
  - apply IH. intros y z Hy Hz. apply HR; now right.
  - rewrite Forall_forall in *. intros y Hy. apply HR; [now left| |now apply Hx].
    right. now apply list_elem_of_In.
Qed.

(** The percentage of an agent that has a ratio is a number. *)
Lemma entryLoadPercentage_ordered (a : Agent) :
  safeAgent a -> hasRatio a ->
  Number.ordered (entryLoadPercentage (agentLoadOf a)).
Proof.
  intros [H1 H2] H. unfold agentLoadOf. cbn [entryLoadPercentage].
  apply (mul_ordered _ 100).
  - now apply div_ordered.
  - split; reflexivity.
  - discriminate.
Qed.

(** X18. [getLoadDistribution] lists every agent once, and its totals are
    the sums over the registry.  When the loads and capacities are
    integers that doubles hold exactly and no agent has both load and
    capacity zero, the list runs from the highest load percentage to the
    lowest: no entry has a percentage below that of an entry after it,
    the percentages being the doubles [currentLoad / capacity * 100] and
    "below" the test that their difference is negative. *)
Theorem getLoadDistribution_lists_most_loaded_first (l : list Agent) :
  let d := getLoadDistribution l in
  Permutation (distAgents d) (map agentLoadOf l) /\
  (Forall safeAgent l -> Forall hasRatio l ->
   StronglySorted
     (fun a b => ~ Number.below (entryLoadPercentage a) (entryLoadPercentage b))
     (distAgents d)) /\
  distTotalLoad d = totalLoad l /\
  distTotalCapacity d = totalCapacity l.
Proof.
  simpl. split; [apply sort_Permutation|]. split; [|split].
  - intros Hsafe Hratio.
    assert (Hord : forall e, In e (map agentLoadOf l) ->
                     Number.ordered (entryLoadPercentage e)).
    { intros e He. apply in_map_iff in He as (a & <- & Ha).
      apply list_elem_of_In in Ha. rewrite Forall_forall in Hsafe, Hratio.
      apply entryLoadPercentage_ordered; auto. }
    assert (Hext : sort byPercentageDescending (map agentLoadOf l)
                   = sort byValueDescending (map agentLoadOf l)).
    { apply sort_ext. intros x y Hx Hy. apply sign_sub; auto. }
    rewrite Hext.
    eapply StronglySorted_weaken_In; [|apply (sort_sorted byValueDescending)].
    + intros x y Hx Hy Hxy. apply sort_In in Hx, Hy.
      unfold Number.below. rewrite sign_sub by auto.
      apply compareRank_not_Lt. exact Hxy.
    + intros x y z. unfold byValueDescending. rewrite !compareRank_not_Gt. lia.
    + intros x y. unfold byValueDescending. apply compareRank_total.
  - rewrite fold_left_totalLoad. lia.
  - rewrite fold_left_totalCapacity. lia.
Qed.

Lemma getLoadDistribution_lists_most_loaded_first_witness :
  map entryId
    (distAgents (getLoadDistribution
       [sampleAgent "a" RUNNING general 4 1;
        sampleAgent "b" RUNNING general 3 3;
        sampleAgent "c" RUNNING general 0 2])) = ["c"; "b"; "a"] /\
  StronglySorted
    (fun a b => ~ Number.below (entryLoadPercentage a) (entryLoadPercentage b))
    (distAgents (getLoadDistribution
       [sampleAgent "a" RUNNING general 4 1;
        sampleAgent "b" RUNNING general 3 3;
        sampleAgent "c" RUNNING general 0 2])).
Proof.
  split; [vm_compute; reflexivity|].
  apply (getLoadDistribution_lists_most_loaded_first
           [sampleAgent "a" RUNNING general 4 1;
            sampleAgent "b" RUNNING general 3 3;
            sampleAgent "c" RUNNING general 0 2]).
  - repeat constructor.
  - repeat (constructor; [first [left; discriminate|right; discriminate]|]).
    constructor.
Defined.

(** With an agent that has neither load nor capacity the percentage is
    NaN, every difference with it is NaN, and the list is not ordered:
    here the idle agent stays between a lower and a higher percentage. *)
Remark getLoadDistribution_with_NaN_percentage :
  map entryId
    (distAgents (getLoadDistribution
       [sampleAgent "a" RUNNING general 4 1;
        sampleAgent "idle" RUNNING general 0 0;
        sampleAgent "b" RUNNING general 4 3])) = ["a"; "idle"; "b"].
Proof. vm_compute. reflexivity. Qed.

(** * Properties of the file-name extraction *)

Section FileNames.
Import FileNameRegex.

Lemma lowers_spec (k : nat) (last : option ascii) (s : string)
    (last' : option ascii) (rest : string) :
  lowers k last s = Some (last', rest) ->
  exists ext,
    s = (ext ++ rest)%string /\ String.length ext = k /\
    allChars isLower ext = true /\
    ((k = 0%nat /\ last' = last) \/ exists c, last' = Some c /\ isLower c = true).
Proof.
  revert last s. induction k as [|k IH]; intros last s H; simpl in H.
  - injection H as <- <-. exists EmptyString. repeat split; auto.
  - destruct s as [|c s]; [discriminate|].
    destruct (isLower c) eqn:Ec; [|discriminate].
    apply IH in H as (ext & -> & Hlen & Hall & Hlast).
    exists (String c ext). simpl. rewrite Ec, Hall, Hlen. repeat split; auto.
    right. destruct Hlast as [[_ ->]|Hlast]; eauto.
Qed.

Lemma isLower_isWord (c : ascii) : isLower c = true -> isWord c = true.
Proof.
  unfold isLower, isWord. intros ->. now rewrite orb_true_r.
Qed.

Lemma isDot_eq (c : ascii) : isDot c = true -> c = "."%char.
Proof.
  unfold isDot, between. intros H. apply andb_prop in H as [H1 H2].
  apply Nat.leb_le in H1, H2.
  assert (Hn : nat_of_ascii c = 46%nat) by lia.
  rewrite <- (ascii_nat_embedding c), Hn. reflexivity.
Qed.

Lemma extensionLength_spec (dot : ascii) (s : string) (k : nat) :
  extensionLength dot s = Some k ->
  exists ext rest,
    s = (ext ++ rest)%string /\ String.length ext = k /\
    (2 <= k <= 4)%nat /\ allChars isLower ext = true /\
    wordAt (head rest) = false.
Proof.
  unfold extensionLength.
  assert (Hext : forall n, (0 < n)%nat -> extension n dot s = true ->
            exists ext rest,
              s = (ext ++ rest)%string /\ String.length ext = n /\
              allChars isLower ext = true /\ wordAt (head rest) = false).
  { intros n Hn. unfold extension.
    destruct (lowers n (Some dot) s) as [[last rest]|] eqn:El; [|discriminate].
    apply lowers_spec in El as (ext & -> & Hlen & Hall & Hlast).
    intros Hb. exists ext, rest. repeat split; auto.
    destruct Hlast as [[Hz _]|(c & -> & Hc)]; [lia|].
    unfold boundary in Hb. simpl in Hb. rewrite (isLower_isWord c Hc) in Hb.
      now destruct (wordAt (head rest)). }
  destruct (extension 4 dot s) eqn:E4.
  { intros H. injection H as <-. destruct (Hext 4%nat ltac:(lia) E4) as (e & r & H1 & H2 & H3 & H4).
    exists e, r. repeat split; auto; lia. }
  destruct (extension 3 dot s) eqn:E3.
  { intros H. injection H as <-. destruct (Hext 3%nat ltac:(lia) E3) as (e & r & H1 & H2 & H3 & H4).
    exists e, r. repeat split; auto; lia. }
  destruct (extension 2 dot s) eqn:E2; [|discriminate].
  intros H. injection H as <-. destruct (Hext 2%nat ltac:(lia) E2) as (e & r & H1 & H2 & H3 & H4).
  exists e, r. repeat split; auto; lia.
Qed.
Lemma dropChars_split (len : nat) (s : string) (c : ascii) (rest : string) :
  dropChars len s = String c rest ->
  exists stem, s = (stem ++ String c rest)%string /\ String.length stem = len.
Proof.
  revert s. induction len as [|len IH]; intros s H.
  - exists EmptyString. destruct s; simpl in H; auto.
  - destruct s as [|d s]; [discriminate|]. simpl in H.
    apply IH in H as (stem & -> & Hlen). exists (String d stem). simpl. auto.
Qed.

Lemma classRun_prefix (stem t : string) :
  (String.length stem <= classRun (stem ++ t))%nat -> allChars isClass stem = true.
Proof.
  induction stem as [|c stem IH]; simpl; [reflexivity|].
  destruct (isClass c); simpl; [|lia]. intros H. apply IH. lia.
Qed.

Lemma substring_prefix (a b : string) :
  String.substring 0 (String.length a) (a ++ b) = a.
Proof.
  induction a as [|c a IH]; simpl; [destruct b; reflexivity|]. now rewrite IH.
Qed.

Lemma append_assoc3 (a b c : string) : ((a ++ b) ++ c = a ++ (b ++ c))%string.
Proof.
  induction a as [|x a IH]; [reflexivity|].
  change (String x ((a ++ b) ++ c) = String x (a ++ (b ++ c)))%string.
  now rewrite IH.
Qed.

Lemma length_append2 (a b : string) :
  String.length (a ++ b) = (String.length a + String.length b)%nat.
Proof.
  induction a as [|x a IH]; [reflexivity|].
  change (S (String.length (a ++ b)) = S (String.length a + String.length b)).
  now rewrite IH.
Qed.

Lemma backtrack_spec (len : nat) (s : string) (n : nat) :
  backtrack len s = Some n ->
  exists len', (1 <= len' <= len)%nat /\ afterClass len' s = Some n.
Proof.
  induction len as [|len IH]; simpl; [discriminate|].
  destruct (afterClass (S len) s) as [n'|] eqn:E.
  - intros H. injection H as <-. exists (S len). split; [lia|exact E].
  - intros H. apply IH in H as (len' & Hl & Ha). exists len'. split; [lia|exact Ha].
Qed.

Lemma matchAt_spec (prev : option ascii) (s : string) (n : nat) :
  matchAt prev s = Some n -> isFileName (String.substring 0 n s).
Proof.
  unfold matchAt. destruct (boundary prev (head s)); [|discriminate].
  intros H. apply backtrack_spec in H as (len & Hlen & Ha).
  unfold afterClass in Ha.
  destruct (dropChars len s) as [|c rest] eqn:Ed; [discriminate|].
  destruct (isDot c) eqn:Ec; [|discriminate].
  destruct (extensionLength c rest) as [k|] eqn:Ee; [|discriminate].
  injection Ha as <-.
  apply isDot_eq in Ec. subst c.
  apply dropChars_split in Ed as (stem & -> & Hstem).
  apply extensionLength_spec in Ee as (ext & rest' & -> & Hk & Hk24 & Hlow & _).
  exists stem, ext. split; [|split; [|split; [|split]]].
  - replace (stem ++ String "." (ext ++ rest'))%string
      with ((stem ++ "." ++ ext) ++ rest')%string.
    + replace (len + 1 + k)%nat with (String.length (stem ++ "." ++ ext)%string).
      * apply substring_prefix.
      * rewrite !length_append2. change (String.length ".") with 1%nat. lia.
    + rewrite append_assoc3. simpl. reflexivity.
  - intros ->. simpl in Hstem. lia.
  - apply (classRun_prefix stem (String "." (ext ++ rest'))). lia.
  - lia.
  - exact Hlow.
Qed.

Lemma matchAll_spec (prev : option ascii) (s : string) (skip : nat) (m : string) :
  In m (matchAll prev s skip) -> isFileName m.
Proof.
  revert prev skip. induction s as [|c s IH]; intros prev skip; simpl; [intros []|].
  destruct skip as [|k]; [|apply IH].
  destruct (matchAt prev (String c s)) as [n|] eqn:E; [|apply IH].
  intros [<-|H]; [|now apply IH in H]. now apply matchAt_spec in E.
Qed.

(** X19. Every file name that [determineTaskSpecialization] extracts from
    a description has the shape of the regular expression: a non-empty
    stem of letters, digits, underscores and hyphens, a dot, and an
    extension of two to four lower-case letters.  Names whose extension
    has one letter or more than four (such as [main.c] or [page.xhtml])
    are therefore never passed whole to the classifier. *)
Theorem fileMatches_are_file_names (description m : string) :
  In m (fileMatches description) -> isFileName m.
Proof. unfold fileMatches. apply matchAll_spec. Qed.

Lemma fileMatches_are_file_names_witness :
  isFileName "my-app.tsx".
Proof.
  apply (fileMatches_are_file_names "see my-app.tsx and main.c" "my-app.tsx").
  vm_compute. auto.
Defined.
End FileNames.

(** * The needed-check and the pass *)

(** X20. When [isLoadBalancingNeeded] answers false, [balanceLoad] does
    nothing: it returns at once and leaves the object as it is.  The
    converse fails: the check can answer true, on the spread of the load
    ratios alone, for a registry on which [balanceLoad] does nothing. *)
Theorem balanceLoad_idle_when_not_needed :
  (forall st, isLoadBalancingNeeded (agents st) = false ->
              balanceLoad st = (inr tt, st))
  /\ exists st, isLoadBalancingNeeded (agents st) = true /\
                balanceLoad st = (inr tt, st).
Proof.
  split.
  - intros st H. apply balanceLoad_none_overloaded.
    unfold isLoadBalancingNeeded in H.
    destruct (List.filter isOverloaded (agents st)) as [|o os] eqn:Eo;
      [|simpl in H; discriminate].
    apply Forall_forall. intros a Ha. apply list_elem_of_In in Ha.
    pose proof (filter_nil_none _ _ Eo a Ha) as Hf. now apply Z.ltb_ge in Hf.
  - exists (orchestrationOf [sampleAgent "a" RUNNING general 10 1;
                             sampleAgent "b" RUNNING general 10 9]).
    split; reflexivity.
Qed.

Lemma balanceLoad_idle_when_not_needed_witness :
  balanceLoad (orchestrationOf [sampleAgent "a" RUNNING general 10 5;
                                sampleAgent "b" RUNNING general 10 6])
  = (inr tt, orchestrationOf [sampleAgent "a" RUNNING general 10 5;
                              sampleAgent "b" RUNNING general 10 6]).
Proof.
  apply (proj1 balanceLoad_idle_when_not_needed
    (orchestrationOf [sampleAgent "a" RUNNING general 10 5;
                      sampleAgent "b" RUNNING general 10 6])).
  reflexivity.
Defined.

(** * Properties of the work queue *)

Section WorkQueueFacts.
Import WorkQueue.

Lemma findIndex_Some (p : QueueItem -> bool) (items : list QueueItem) (i : nat) :
  findIndex p items = Some i ->
  exists q, items !! i = Some q /\ p q = true /\
            forall j q', (j < i)%nat -> items !! j = Some q' -> p q' = false.
Proof.
  revert i. induction items as [|q items IH]; intros i; simpl; [discriminate|].
  destruct (p q) eqn:E.
  - intros H. injection H as <-. exists q. repeat split; auto. intros j q' Hj. lia.
  - destruct (findIndex p items) as [k|]; simpl; [|discriminate].
    intros H. injection H as <-. destruct (IH k eq_refl) as (q0 & H1 & H2 & H3).
    exists q0. repeat split; auto. intros [|j] q' Hj Hq'.
    + simpl in Hq'. congruence.
    + simpl in Hq'. apply (H3 j); [lia|exact Hq'].
Qed.

Lemma findIndex_None (p : QueueItem -> bool) (items : list QueueItem) :
  findIndex p items = None <-> forall q, In q items -> p q = false.
Proof.
  induction items as [|q items IH]; simpl.
  - split; [intros _ q []|reflexivity].
  - destruct (p q) eqn:E.
    + split; [discriminate|]. intros H. rewrite (H q) in E; [discriminate|now left].
    + destruct (findIndex p items) as [k|]; simpl.
      * split; [discriminate|]. intros H. exfalso.
        assert (Hn : Some k = None) by (apply IH; intros q' Hq'; apply H; now right).
        discriminate.
      * split; [|reflexivity]. intros _ q' [<-|Hq']; [exact E|].
        now apply (proj1 IH).
Qed.

(** [getItemById] is the first item with that identifier. *)
Lemma getItemById_find (id : string) (items : list QueueItem) :
  getItemById id items = List.find (hasId id) items.
Proof.
  unfold getItemById. induction items as [|q items IH]; simpl; [reflexivity|].
  destruct (hasId id q); [reflexivity|].
  destruct (findIndex (hasId id) items) as [k|]; simpl; exact IH.
Qed.

Lemma byPriorityThenAge_not_Gt (a b : QueueItem) :
  byPriorityThenAge a b <> Gt <->
  (isPending a = true /\ isPending b = false) \/
  (isPending a = isPending b /\
   (urgency b < urgency a \/
    (urgency a = urgency b /\ createdAt (item a) <= createdAt (item b)))).
Proof.
  unfold byPriorityThenAge, urgency.
  set (ua := priorityValue (priority (item a))).
  set (ub := priorityValue (priority (item b))).
  destruct (isPending a), (isPending b); simpl;
    try (split; [intros _; auto|intros _; discriminate]);
    try (split; [intros H; congruence|intros [[? ?]|[? _]]; discriminate]).
  all: destruct (ub - ua =? 0) eqn:E; simpl;
    [apply Z.eqb_eq in E|apply Z.eqb_neq in E].
  all: rewrite Z.compare_ngt_iff, Z.nlt_ge; split;
    [intros H; right; split; [reflexivity|lia]
    |intros [[? ?]|[_ H]]; [discriminate|lia]].
Qed.

Lemma byPriorityThenAge_refl (a : QueueItem) : byPriorityThenAge a a <> Gt.
Proof. apply byPriorityThenAge_not_Gt. right. split; [reflexivity|]. right. lia. Qed.

Lemma byPriorityThenAge_trans (a b c : QueueItem) :
  byPriorityThenAge a b <> Gt -> byPriorityThenAge b c <> Gt ->
  byPriorityThenAge a c <> Gt.
Proof.
  rewrite !byPriorityThenAge_not_Gt.
  intros [[H1 H2]|[H1 H2]] [[H3 H4]|[H3 H4]]; try congruence.
  - left. split; congruence.
  - left. split; congruence.
  - right. split; [congruence|]. lia.
Qed.

Lemma byPriorityThenAge_total (a b : QueueItem) :
  byPriorityThenAge a b = Gt -> byPriorityThenAge b a <> Gt.
Proof.
  intros H. apply byPriorityThenAge_not_Gt.
  assert (Hn : ~ byPriorityThenAge a b <> Gt) by (intros Hc; contradiction).
  rewrite byPriorityThenAge_not_Gt in Hn.
  destruct (isPending a) eqn:Ea, (isPending b) eqn:Eb.
  - right. split; [reflexivity|].
    destruct (Z_lt_le_dec (urgency a) (urgency b)); [auto|].
    destruct (Z.eq_dec (urgency a) (urgency b)).
    + right. split; [lia|].
      destruct (Z_le_gt_dec (createdAt (item b)) (createdAt (item a))); [auto|].
      exfalso. apply Hn. right. split; [reflexivity|]. right. lia.
    + exfalso. apply Hn. right. split; [reflexivity|]. left. lia.
  - exfalso. apply Hn. left. auto.
  - left. auto.
  - right. split; [reflexivity|].
    destruct (Z_lt_le_dec (urgency a) (urgency b)); [auto|].
    destruct (Z.eq_dec (urgency a) (urgency b)).
    + right. split; [lia|].
      destruct (Z_le_gt_dec (createdAt (item b)) (createdAt (item a))); [auto|].
      exfalso. apply Hn. right. split; [reflexivity|]. right. lia.
    + exfalso. apply Hn. right. split; [reflexivity|]. left. lia.
Qed.

Lemma filter_length_Permutation {A : Type} (f : A -> bool) (l l' : list A) :
  Permutation l l' -> length (List.filter f l) = length (List.filter f l').
Proof.
  induction 1 as [|x l l' _ IH|x y l|l l' l'' _ IH1 _ IH2]; simpl.
  - reflexivity.
  - destruct (f x); simpl; congruence.
  - destruct (f x), (f y); reflexivity.
  - congruence.
Qed.
(** X21. [getNextItem] hands out the most urgent pending item: if some
    item is pending it returns, at the head of the re-sorted queue, a
    pending item of the highest priority and, among those, of the earliest
    creation time, marks it in-progress with the current time as start
    time, and the number of pending items goes down by one; if no item is
    pending it returns nothing and changes no item.  In both cases the
    queue keeps the same items (re-ordered). *)
Theorem getNextItem_hands_out_most_urgent (now : Z) (items : list QueueItem) :
  match getNextItem now items with
  | (None, items') =>
      (forall q, In q items -> isPending q = false) /\ Permutation items' items
  | (Some i, items') =>
      exists q rest,
        i = 0%nat /\ In q items /\ isPending q = true /\
        Permutation (q :: rest) items /\
        items' = start now q :: rest /\
        (forall p, In p items -> isPending p = true ->
           urgency p <= urgency q /\
           (urgency p = urgency q -> createdAt (item q) <= createdAt (item p))) /\
        (length (listItems (Some pending) items') + 1
         = length (listItems (Some pending) items))%nat
  end.
Proof.
  unfold getNextItem.
  pose proof (sort_Permutation byPriorityThenAge items) as Hperm.
  destruct (sort byPriorityThenAge items) as [|h t] eqn:Es.
  - simpl. split; [|exact Hperm]. intros q Hq.
    apply Permutation_nil in Hperm. subst items. destruct Hq.
  - assert (Hleast : forall y, In y items -> byPriorityThenAge h y <> Gt).
    { apply (sort_head_least byPriorityThenAge) with (t := t); auto.
      - apply byPriorityThenAge_refl.
      - apply byPriorityThenAge_trans.
      - apply byPriorityThenAge_total. }
    assert (Hh : In h items).
    { apply (Permutation_in h Hperm). now left. }
    simpl. destruct (isPending h) eqn:Eh.
    + exists h, t. split; [reflexivity|]. split; [exact Hh|]. split; [exact Eh|].
      split; [exact Hperm|]. split; [reflexivity|]. split.
      * intros p Hp Ep. specialize (Hleast p Hp).
        apply byPriorityThenAge_not_Gt in Hleast.
        destruct Hleast as [[_ H]|[_ H]]; [congruence|]. lia.
      * rewrite <- (filter_length_Permutation _ _ _ Hperm). simpl.
        fold (itemStatus h) (isPending h). rewrite Eh. simpl. lia.
    + assert (Hnone : forall q, In q items -> isPending q = false).
      { intros q Hq. specialize (Hleast q Hq).
        apply byPriorityThenAge_not_Gt in Hleast.
        destruct Hleast as [[H _]|[H _]]; congruence. }
      assert (Hf : findIndex isPending t = None).
      { apply findIndex_None. intros q Hq. apply Hnone.
        apply (Permutation_in q Hperm). now right. }
      rewrite Hf. simpl. split; [exact Hnone|exact Hperm].
Qed.

Lemma find_removed (id : string) (l : list QueueItem) :
  List.find (hasId id) (List.filter (fun q => negb (hasId id q)) l) = None.
Proof.
  induction l as [|q l IH]; simpl; [reflexivity|].
  destruct (hasId id q) eqn:E; simpl; [exact IH|]. now rewrite E.
Qed.

Lemma find_kept (id id' : string) (l : list QueueItem) :
  id' <> id ->
  List.find (hasId id') (List.filter (fun q => negb (hasId id q)) l)
  = List.find (hasId id') l.
Proof.
  intros Hne. induction l as [|q l IH]; simpl; [reflexivity|].
  destruct (hasId id q) eqn:E; simpl.
  - assert (E' : hasId id' q = false).
    { unfold hasId in *. apply String.eqb_eq in E. apply String.eqb_neq. congruence. }
    now rewrite E'.
  - destruct (hasId id' q); [reflexivity|exact IH].
Qed.

Lemma filter_nothing_removed (id : string) (l : list QueueItem) :
  List.find (hasId id) l = None ->
  List.filter (fun q => negb (hasId id q)) l = l.
Proof.
  induction l as [|q l IH]; simpl; [reflexivity|].
  destruct (hasId id q); [discriminate|]. simpl. intros H. now rewrite IH.
Qed.

Lemma length_removed (id : string) (l : list QueueItem) :
  length (List.filter (fun q => negb (hasId id q)) l) = length l <->
  List.find (hasId id) l = None.
Proof.
  induction l as [|q l IH]; simpl; [tauto|].
  pose proof (filter_length_le (fun q => negb (hasId id q)) l) as Hle.
  destruct (hasId id q); simpl.
  - split; [lia|discriminate].
  - rewrite <- IH. lia.
Qed.

(** X22. [removeItem] removes every item with the identifier: afterwards
    [getItemById] finds nothing under it; the call answers true exactly
    when some item carried the identifier, and otherwise leaves the queue
    as it is; the items with other identifiers are found as before. *)
Theorem removeItem_then_getItemById (id : string) (items : list QueueItem) :
  let r := fst (removeItem id items) in
  let items' := snd (removeItem id items) in
  getItemById id items' = None /\
  (r = true <-> getItemById id items <> None) /\
  (forall id', id' <> id -> getItemById id' items' = getItemById id' items) /\
  (r = false -> items' = items).
Proof.
  intros r items'. subst r items'.
  assert (Hsnd : snd (removeItem id items)
                 = List.filter (fun q => negb (hasId id q)) items).
  { unfold removeItem. destruct (negb _); reflexivity. }
  assert (Hfst : fst (removeItem id items) = true <->
                 List.find (hasId id) items <> None).
  { unfold removeItem. rewrite <- length_removed.
    destruct (length _ =? length items)%nat eqn:E; simpl.
    - apply Nat.eqb_eq in E. split; [discriminate|]. intros H. contradiction.
    - apply Nat.eqb_neq in E. tauto. }
  rewrite Hsnd, !getItemById_find. split; [apply find_removed|].
  split; [exact Hfst|]. split.
  - intros id' Hne. rewrite !getItemById_find. now apply find_kept.
  - intros Hf. apply filter_nothing_removed.
    destruct (List.find (hasId id) items) eqn:E; [|reflexivity].
    assert (fst (removeItem id items) = true) by (apply Hfst; discriminate).
    congruence.
Qed.

Lemma find_alter_id (f : QueueItem -> QueueItem) (id : string)
    (items : list QueueItem) (i : nat) :
  (forall q, itemId (f q) = itemId q) ->
  findIndex (hasId id) items = Some i ->
  forall id', List.find (hasId id') (alter f i items)
              = if String.eqb id' id then option_map f (List.find (hasId id) items)
                else List.find (hasId id') items.
Proof.
  intros Hf. revert i. induction items as [|q l IH]; intros i; simpl; [discriminate|].
  assert (Hh : forall id0, hasId id0 (f q) = hasId id0 q).
  { intros id0. unfold hasId. now rewrite Hf. }
  destruct (hasId id q) eqn:E.
  - intros H. injection H as <-. intros id'. simpl. rewrite Hh.
    destruct (String.eqb id' id) eqn:E'.
    + apply String.eqb_eq in E'. subst id'. now rewrite E.
    + assert (E2 : hasId id' q = false).
      { unfold hasId in *. apply String.eqb_eq in E. apply String.eqb_neq.
        apply String.eqb_neq in E'. congruence. }
      now rewrite E2.
  - destruct (findIndex (hasId id) l) as [k|] eqn:Ek; simpl; [|discriminate].
    intros H. injection H as <-. intros id'.
    change (alter f (S k) (q :: l)) with (q :: alter f k l). simpl.
    rewrite (IH k eq_refl id').
    destruct (String.eqb id' id) eqn:E'.
    + apply String.eqb_eq in E'. subst id'. now rewrite E.
    + destruct (hasId id' q); reflexivity.
Qed.

(** X23. [updateItemStatus] on an identifier the queue does not know
    answers false and changes nothing.  On a known identifier it answers
    true and updates the first item with it: the status is set; for
    completed and failed the completion time becomes the current time and
    the result the one given, for the other statuses both stay as they
    were (an item put back to pending keeps an earlier completion time);
    every other identifier is looked up as before. *)
Theorem updateItemStatus_then_getItemById
    (id : string) (s : WorkStatus) (res : option string) (now : Z)
    (items : list QueueItem) :
  let r := fst (updateItemStatus id s res now items) in
  let items' := snd (updateItemStatus id s res now items) in
  (getItemById id items = None -> r = false /\ items' = items) /\
  (forall q, getItemById id items = Some q ->
     r = true /\
     exists q', getItemById id items' = Some q' /\
       itemStatus q' = s /\ itemId q' = id /\
       assignedTo q' = assignedTo q /\ startedAt q' = startedAt q /\
       (if WorkStatus_eqb s completed || WorkStatus_eqb s failed
        then completedAt q' = Some now /\ result q' = res
        else completedAt q' = completedAt q /\ result q' = result q)) /\
  (forall id', id' <> id -> getItemById id' items' = getItemById id' items) /\
  length items' = length items.
Proof.
  intros r items'. subst r items'. unfold updateItemStatus.
  assert (Hf : forall q, itemId (finish s res now q) = itemId q).
  { intros q. unfold finish.
    destruct (WorkStatus_eqb s completed || WorkStatus_eqb s failed); reflexivity. }
  destruct (findIndex (hasId id) items) as [i|] eqn:Ei; simpl.
  - pose proof (find_alter_id _ id items i Hf Ei) as Halt.
    split; [|split; [|split]].
    + unfold getItemById. rewrite Ei. intros H.
      apply findIndex_Some in Ei as (q & Hq & _). congruence.
    + intros q Hq. split; [reflexivity|]. rewrite getItemById_find in Hq.
      exists (finish s res now q). rewrite getItemById_find, Halt, String.eqb_refl, Hq.
      split; [reflexivity|].
      assert (Hid : itemId q = id).
      { apply find_some in Hq as [_ Hq]. now apply String.eqb_eq in Hq. }
      unfold finish.
      destruct (WorkStatus_eqb s completed || WorkStatus_eqb s failed);
        simpl; repeat split; auto.
    + intros id' Hne. rewrite !getItemById_find, Halt.
      apply String.eqb_neq in Hne. now rewrite Hne.
    + apply length_alter.
  - split; [auto|]. split; [|auto]. intros q Hq. unfold getItemById in Hq.
    rewrite Ei in Hq. discriminate.
Qed.

(** X24. An item added under an identifier that the queue does not hold
    yet is found under it, pending and created at the current time,
    whatever identifier, status and creation time the input carried, and
    with the title, description and priority of the input; every item
    already queued is found as before. *)
Theorem addItem_then_getItemById
    (id : string) (now : Z) (input : QueueItem) (items : list QueueItem) :
  getItemById id items = None ->
  let items' := snd (addItem id now input items) in
  getItemById id items' = Some (newItem id now input) /\
  itemStatus (newItem id now input) = pending /\
  createdAt (item (newItem id now input)) = now /\
  (forall id', id' <> id -> getItemById id' items' = getItemById id' items) /\
  In (newItem id now input) (listItems (Some pending) items').
Proof.
  intros Hfresh items'. subst items'. simpl.
  rewrite getItemById_find in Hfresh. rewrite getItemById_find.
  assert (Hnew : hasId id (newItem id now input) = true).
  { unfold hasId, itemId. simpl. apply String.eqb_refl. }
  split; [|split; [reflexivity|split; [reflexivity|split]]].
  - induction items as [|q l IH]; simpl in *; [now rewrite Hnew|].
    destruct (hasId id q); [discriminate|]. now apply IH.
  - intros id' Hne. rewrite !getItemById_find. clear Hfresh.
    induction items as [|q l IH]; simpl.
    + assert (E : hasId id' (newItem id now input) = false).
      { unfold hasId, itemId. simpl. apply String.eqb_neq. congruence. }
      now rewrite E.
    + destruct (hasId id' q); [reflexivity|exact IH].
  - apply filter_In. split; [|reflexivity]. apply in_or_app. right. now left.
Qed.

Lemma addItem_then_getItemById_witness :
  getItemById "w2"
    (snd (addItem "w2" 7
            (mkQueueItem (mkWorkItem "x" "T" "D" high failed 0) None None None None)
            [mkQueueItem (mkWorkItem "w1" "A" "B" low pending 1) None None None None]))
  = Some (newItem "w2" 7
            (mkQueueItem (mkWorkItem "x" "T" "D" high failed 0) None None None None)).
Proof.
  refine (proj1 (addItem_then_getItemById "w2" 7
    (mkQueueItem (mkWorkItem "x" "T" "D" high failed 0) None None None None)
    [mkQueueItem (mkWorkItem "w1" "A" "B" low pending 1) None None None None] _)).
  reflexivity.
Defined.
End WorkQueueFacts.

(** * Properties of the agent monitor *)

Section AgentMonitorFacts.
Import AgentMonitor.

Lemma get_update (k k' : string) (f : AgentStatus -> AgentStatus) (m : Agents) :
  get k' (update k f m) =
  if String.eqb k k' then option_map f (get k m) else get k' m.
Proof.
  induction m as [|[k0 v] m IH]; simpl.
  - destruct (String.eqb k k'); reflexivity.
  - destruct (String.eqb k0 k) eqn:E; simpl.
    + apply String.eqb_eq in E. subst k0. rewrite ?String.eqb_refl.
      destruct (String.eqb k k'); reflexivity.
    + rewrite IH. destruct (String.eqb k0 k') eqn:E'; [|reflexivity].
      apply String.eqb_eq in E'. subst k0. rewrite String.eqb_sym, E. reflexivity.
Qed.

Lemma get_set (k k' : string) (v : AgentStatus) (m : Agents) :
  get k' (set k v m) = if String.eqb k k' then Some v else get k' m.
Proof.
  induction m as [|[k0 v0] m IH]; simpl.
  - reflexivity.
  - destruct (String.eqb k0 k) eqn:E; simpl.
    + apply String.eqb_eq in E. subst k0. rewrite ?String.eqb_refl.
      destruct (String.eqb k k'); reflexivity.
    + rewrite IH. destruct (String.eqb k0 k') eqn:E'; [|reflexivity].
      apply String.eqb_eq in E'. subst k0. rewrite String.eqb_sym, E. reflexivity.
Qed.

Lemma get_heartbeatMonitor (freq now : Z) (k : string) (m : Agents) :
  get k (heartbeatMonitor freq now m) = option_map (checkHeartbeat freq now) (get k m).
Proof.
  induction m as [|[k0 v] m IH]; simpl; [reflexivity|].
  destruct (String.eqb k0 k); [reflexivity|exact IH].
Qed.

(** X25. A heartbeat keeps a registered agent alive for twice the
    heartbeat frequency: after [recordHeartbeat] read the clock at [t],
    the agent is RUNNING whatever its status was before (a completed,
    failed or disconnected agent is revived); a firing of the heartbeat
    monitor at time [now] leaves it RUNNING when [now - t] is at most twice
    the frequency, and otherwise marks it DISCONNECTED and logs one
    DISCONNECTION after the HEARTBEAT. *)
Theorem heartbeat_keeps_agent_alive
    (agentId : string) (t t' freq now : Z) (a : AgentStatus) (m : Agents) :
  get agentId m = Some a ->
  let m1 := snd (recordHeartbeat agentId t t' m) in
  let beat := mkAgentOperation t' HEARTBEAT NoDetails in
  let lost := mkAgentOperation now DISCONNECTION (ReasonDetails "Heartbeat timeout") in
  fst (recordHeartbeat agentId t t' m) = true /\
  get agentId m1
    = Some (mkAgentStatus (id a) RUNNING t (operations a ++ [beat])) /\
  get agentId (heartbeatMonitor freq now m1)
    = Some (if freq * 2 <? now - t
            then mkAgentStatus (id a) DISCONNECTED t (operations a ++ [beat; lost])
            else mkAgentStatus (id a) RUNNING t (operations a ++ [beat])).
Proof.
  intros Ha m1 beat lost. subst m1. unfold recordHeartbeat. rewrite Ha. simpl.
  split; [reflexivity|].
  assert (H1 : get agentId (update agentId
            (fun a0 => push beat (mkAgentStatus (id a0) RUNNING t (operations a0))) m)
          = Some (mkAgentStatus (id a) RUNNING t (operations a ++ [beat]))).
  { rewrite get_update, String.eqb_refl, Ha. reflexivity. }
  split; [exact H1|].
  rewrite get_heartbeatMonitor. fold beat. rewrite H1. simpl.
  unfold checkHeartbeat. simpl.
  destruct (freq * 2 <? now - t); [|reflexivity].
  unfold push, withMonitorStatus. simpl. now rewrite <- app_assoc.
Qed.

Lemma heartbeat_keeps_agent_alive_witness :
  get "a1" (heartbeatMonitor 5000 10000
              (snd (recordHeartbeat "a1" 0 1
                      [("a1", mkAgentStatus "a1" FAILED (-3) [])])))
  = Some (mkAgentStatus "a1" RUNNING 0 [mkAgentOperation 1 HEARTBEAT NoDetails]).
Proof.
  exact (proj2 (proj2 (heartbeat_keeps_agent_alive "a1" 0 1 5000 10000
    (mkAgentStatus "a1" FAILED (-3) [])
    [("a1", mkAgentStatus "a1" FAILED (-3) [])] eq_refl))).
Defined.

Lemma set_keys (k : string) (v : AgentStatus) (m : Agents) :
  map fst (set k v m) =
  match get k m with
  | Some _ => map fst m
  | None => (map fst m ++ [k])%list
  end.
Proof.
  induction m as [|[k0 v0] m IH]; simpl; [reflexivity|].
  destruct (String.eqb k0 k); simpl; [reflexivity|].
  rewrite IH. destruct (get k m); reflexivity.
Qed.

(** X26. [registerAgent] is a reset: the agent is then found STARTING,
    with the current time as last heartbeat and an empty operation log,
    also when the identifier was registered before (its earlier status and
    log are dropped, its place among the agents is kept); a new identifier
    goes to the end; every other agent is found as before. *)
Theorem registerAgent_resets (agentId : string) (now : Z) (m : Agents) :
  let m' := snd (registerAgent agentId now m) in
  get agentId m' = Some (mkAgentStatus agentId STARTING now []) /\
  fst (registerAgent agentId now m) = mkAgentStatus agentId STARTING now [] /\
  (forall k, k <> agentId -> get k m' = get k m) /\
  map fst m' = (match get agentId m with
                | Some _ => map fst m
                | None => (map fst m ++ [agentId])%list
                end).
Proof.
  simpl. split; [|split; [reflexivity|split]].
  - now rewrite get_set, String.eqb_refl.
  - intros k Hk. rewrite get_set.
    destruct (String.eqb agentId k) eqn:E; [|reflexivity].
    apply String.eqb_eq in E. congruence.
  - apply set_keys.
Qed.

Lemma call_log (agentId : string) (c : Call) (a : AgentStatus) (m : Agents) :
  registers agentId c = false ->
  get agentId m = Some a ->
  exists a' new,
    get agentId (call c m) = Some a' /\
    operations a' = (operations a ++ new)%list /\
    (length new <= 1)%nat /\ id a' = id a.
Proof.
  intros Hreg Ha.
  assert (Hsame : exists a' new, Some a = Some a' /\
            operations a' = (operations a ++ new)%list /\
            (length new <= 1)%nat /\ id a' = id a).
  { exists a, []. rewrite app_nil_r. simpl. auto. }
  assert (Hupd : forall k f,
            (forall x, exists new, operations (f x) = (operations x ++ new)%list /\
                                   (length new <= 1)%nat /\ id (f x) = id x) ->
            exists a' new, get agentId (update k f m) = Some a' /\
              operations a' = (operations a ++ new)%list /\
              (length new <= 1)%nat /\ id a' = id a).
  { intros k f Hf. rewrite get_update. destruct (String.eqb k agentId) eqn:E.
    - apply String.eqb_eq in E. subst k. rewrite Ha. simpl.
      destruct (Hf a) as (new & H1 & H2 & H3). eauto 6.
    - rewrite Ha. exact Hsame. }
  destruct c as [k now|k now now'|k r now|k e now|freq now]; simpl in *.
  - rewrite get_set, Hreg, Ha. exact Hsame.
  - unfold recordHeartbeat. destruct (get k m); simpl; [|rewrite Ha; exact Hsame].
    apply Hupd. intros x. eexists. simpl. split; [reflexivity|]. simpl. auto.
  - unfold recordCompletion. destruct (get k m); simpl; [|rewrite Ha; exact Hsame].
    apply Hupd. intros x. eexists. simpl. split; [reflexivity|]. simpl. auto.
  - unfold recordError. destruct (get k m); simpl; [|rewrite Ha; exact Hsame].
    apply Hupd. intros x. eexists. simpl. split; [reflexivity|]. simpl. auto.
  - rewrite get_heartbeatMonitor, Ha. simpl. unfold checkHeartbeat.
    destruct (_ && _); [|exact Hsame].
    eexists _, _. split; [reflexivity|]. simpl. split; [reflexivity|]. simpl. auto.
Qed.

(** X27. The operation log of an agent is append-only: over any sequence
    of heartbeats, completions, errors, firings of the heartbeat monitor
    and registrations of other agents, a registered agent stays
    registered, and its log is its earlier log followed by at most one new
    operation per call. *)
Theorem operations_log_is_append_only
    (agentId : string) (cs : list Call) (a : AgentStatus) (m : Agents) :
  Forall (fun c => registers agentId c = false) cs ->
  get agentId m = Some a ->
  exists a' new,
    get agentId (fold_left (fun m c => call c m) cs m) = Some a' /\
    operations a' = (operations a ++ new)%list /\
    (length new <= length cs)%nat /\ id a' = id a.
Proof.
  intros Hcs. revert a m. induction Hcs as [|c cs Hc Hcs IH]; intros a m Ha; simpl.
  - exists a, []. rewrite app_nil_r. simpl. auto.
  - destruct (call_log agentId c a m Hc Ha) as (a1 & new1 & H1 & H2 & H3 & H4).
    destruct (IH a1 _ H1) as (a' & new & H5 & H6 & H7 & H8).
    exists a', (new1 ++ new)%list. split; [exact H5|]. split; [|split].
    + rewrite H6, H2. now rewrite app_assoc.
    + rewrite length_app. lia.
    + congruence.
Qed.

Lemma operations_log_is_append_only_witness :
  exists a' new,
    get "a1" (fold_left (fun m c => call c m)
                [RecordHeartbeat "a1" 5 5; RegisterAgentCall "a2" 6;
                 HeartbeatMonitor 1 100;
                 RecordCompletion "a1" (mkOperationResult true None None) 101]
                [("a1", mkAgentStatus "a1" STARTING 0 [])]) = Some a' /\
    operations a' = ([] ++ new)%list /\ (length new <= 4)%nat /\ id a' = "a1".
Proof.
  apply (operations_log_is_append_only "a1"
    [RecordHeartbeat "a1" 5 5; RegisterAgentCall "a2" 6; HeartbeatMonitor 1 100;
     RecordCompletion "a1" (mkOperationResult true None None) 101]
    (mkAgentStatus "a1" STARTING 0 []) [("a1", mkAgentStatus "a1" STARTING 0 [])]).
  - repeat constructor.
  - reflexivity.
Defined.
End AgentMonitorFacts.

(** * Properties of the performance metrics *)

Section PerformanceMetricsFacts.
Import PerformanceMetrics.

Lemma matches_successFilter (v : Q) (timeRange : option (Z * Z))
    (metric : PerformanceMetric) :
  matches (successFilter v timeRange) metric = counted timeRange metric.
Proof.
  unfold matches, counted, successFilter.
  destruct timeRange as [[start finish]|]; simpl.
  - destruct (String.eqb (metricName metric) "operation_success"); simpl.
    + destruct start as [|sp|sp], finish as [|fp|fp]; simpl;
        rewrite ?Z.ltb_antisym;
        repeat match goal with
               | |- context [Z.leb ?a ?b] => destruct (Z.leb a b); simpl
               end; reflexivity.
    + destruct start as [|sp|sp], finish as [|fp|fp]; simpl;
        repeat match goal with
               | |- context [Z.ltb ?a ?b] => destruct (Z.ltb a b); simpl
               end; reflexivity.
  - now rewrite andb_true_r.
Qed.

Lemma filter_agree {A : Type} (f g : A -> bool) (l : list A) :
  (forall x, f x = g x) -> List.filter f l = List.filter g l.
Proof.
  intros H. induction l as [|x l IH]; simpl; [reflexivity|]. now rewrite H, IH.
Qed.

(** X28. [getSuccessRate] does not look at the values of the metrics: its
    two filters differ only in the field [value], which [getMetrics]
    never reads, so that the successes and the failures it counts are the
    same metrics.  The rate is 100 when no metric named
    [operation_success] lies in the time range and 50 as soon as one
    does, whether the operations succeeded or failed. *)
Theorem getSuccessRate_is_100_or_50
    (timeRange : option (Z * Z)) (metrics : list PerformanceMetric) :
  getMetrics (Some (successFilter 1 timeRange)) metrics
    = getMetrics (Some (successFilter 0 timeRange)) metrics /\
  (getSuccessRate timeRange metrics ==
   if (length (List.filter (counted timeRange) metrics) =? 0)%nat
   then 100 else 50)%Q.
Proof.
  assert (H : forall v, getMetrics (Some (successFilter v timeRange)) metrics
                        = List.filter (counted timeRange) metrics).
  { intros v. simpl. apply filter_agree. intros x. apply matches_successFilter. }
  split; [now rewrite !H|].
  unfold getSuccessRate. rewrite !H.
  set (n := length (List.filter (counted timeRange) metrics)).
  clearbody n. destruct n as [|n]; [reflexivity|].
  replace (S n + S n =? 0)%nat with false by (symmetry; apply Nat.eqb_neq; lia).
  change (S n =? 0)%nat with false. cbv iota.
  replace (Z.of_nat (S n + S n)) with (2 * Z.of_nat (S n)) by lia.
  rewrite inject_Z_mult.
  assert (Hz : ~ (inject_Z (Z.of_nat (S n)) == 0)%Q).
  { intros Hz. change 0%Q with (inject_Z 0) in Hz.
    apply inject_Z_injective in Hz. discriminate Hz. }
  field. exact Hz.
Qed.
End PerformanceMetricsFacts.
